(** * Riddle Maker: the action handlers over the table store

    A shallow embedding of [src/db/tables.ts] (the two tables) and of
    [src/src/actions/index.ts] (the eight actions of [server]), followed by
    the properties of the ownership and consistency rules they enforce.

    The table store is a pair of row lists in insertion order.  A handler is
    a computation over the database that either returns a value or throws,
    and in both cases leaves a database behind: statements that were issued
    before a throw are not rolled back. *)

From Stdlib Require Import String Ascii List ZArith Bool Arith Lia.
Import ListNotations.
Open Scope string_scope.
Open Scope list_scope.

Set Implicit Arguments.

(** ** Values *)

(** A [Date] is a number of milliseconds, as [new Date()] holds it. *)
Definition Date := Z.

(** [z.enum(["easy", "medium", "hard"])] *)
Inductive Difficulty := easy | medium | hard.

Definition Difficulty_text (d : Difficulty) : string :=
  match d with easy => "easy" | medium => "medium" | hard => "hard" end.

(** JavaScript truthiness of the optional inputs the handlers test with
    [if (input.x)]: [undefined], [false] and the empty string are falsy. *)
Definition truthy_flag (b : option bool) : bool :=
  match b with Some true => true | _ => false end.

Definition truthy_text (s : option string) : bool :=
  match s with Some v => negb (v =? "") | None => false end.

(** [a ?? b] *)
Definition nullish {A} (a : option A) (b : A) : A :=
  match a with Some v => v | None => b end.

(** ** Numbers

    A JavaScript number is a double.  It holds every whole number up to
    2^53 in absolute value; past that, the result of an operation is the
    nearest double, ties to even.  [js_round z] is the double nearest to the
    whole number [z]: 53 significant bits are kept, the rest is rounded.  A
    result of 2^1024 or more in absolute value stands for [Infinity]. *)
Definition js_round (z : Z) : Z :=
  let a := Z.abs z in
  if (a <? 2 ^ 53)%Z then z
  else
    let e := (Z.log2 a - 52)%Z in
    let q := (a / 2 ^ e)%Z in
    let r := (a mod 2 ^ e)%Z in
    let half := (2 ^ (e - 1))%Z in
    let up := (half <? r)%Z || ((half =? r)%Z && Z.odd q) in
    (Z.sgn z * ((if up then q + 1 else q) * 2 ^ e))%Z.

(** [a - b] and [a * b] on whole numbers *)
Definition js_sub (a b : Z) : Z := js_round (a - b).

Definition js_mul (a b : Z) : Z := js_round (a * b).

(** [Number.isFinite] *)
Definition js_finite (z : Z) : bool := (Z.abs z <? 2 ^ 1024)%Z.

Arguments js_round : simpl never.
Arguments js_finite : simpl never.

(** ** Tables ([src/db/tables.ts]) *)

Module RiddleCollections.
Record row := {
  id : string;
  userId : string;
  name : string;
  description : option string;
  icon : option string;
  isDefault : bool;
  createdAt : Date;
  updatedAt : Date
}.

(** The object given to [.set(...)]: a column that is [None] is not
    assigned. *)
Record partial := {
  set_name : option string;
  set_description : option string;
  set_icon : option string;
  set_isDefault : option bool;
  set_updatedAt : option Date
}.

Definition assign (p : partial) (r : row) : row :=
  {| id := id r;
     userId := userId r;
     name := nullish (set_name p) (name r);
     description :=
       match set_description p with Some d => Some d | None => description r end;
     icon := match set_icon p with Some i => Some i | None => icon r end;
     isDefault := nullish (set_isDefault p) (isDefault r);
     createdAt := createdAt r;
     updatedAt := nullish (set_updatedAt p) (updatedAt r) |}.
End RiddleCollections.

Module Riddles.
Record row := {
  id : string;
  collectionId : option string;
  userId : string;
  question : string;
  answer : string;
  hint : option string;
  difficulty : option string;
  category : option string;
  language : option string;
  isFavorite : bool;
  isPublic : bool;
  createdAt : Date;
  updatedAt : Date
}.

(** [set_collectionId] distinguishes a column left out ([None]) from a
    column assigned [null] ([Some None]). *)
Record partial := {
  set_question : option string;
  set_answer : option string;
  set_hint : option string;
  set_difficulty : option string;
  set_category : option string;
  set_language : option string;
  set_collectionId : option (option string);
  set_isFavorite : option bool;
  set_isPublic : option bool;
  set_updatedAt : option Date
}.

Definition keep {A} (p : option A) (old : option A) : option A :=
  match p with Some v => Some v | None => old end.

Definition assign (p : partial) (r : row) : row :=
  {| id := id r;
     collectionId := nullish (set_collectionId p) (collectionId r);
     userId := userId r;
     question := nullish (set_question p) (question r);
     answer := nullish (set_answer p) (answer r);
     hint := keep (set_hint p) (hint r);
     difficulty := keep (set_difficulty p) (difficulty r);
     category := keep (set_category p) (category r);
     language := keep (set_language p) (language r);
     isFavorite := nullish (set_isFavorite p) (isFavorite r);
     isPublic := nullish (set_isPublic p) (isPublic r);
     createdAt := createdAt r;
     updatedAt := nullish (set_updatedAt p) (updatedAt r) |}.
End Riddles.

(** ** The table store ([astro:db])

    The store is outside the repository; what the handlers rely on is
    modelled here.  Two constraints are declared by [tables.ts]: [id] is the
    primary key of both tables, and [Riddles.collectionId] references
    [RiddleCollections.id].  The primary key is always enforced.  Whether the
    reference is enforced is a setting of the connection, kept in the
    database as [foreign_keys], so that every result below says which setting
    it holds for.

    A number bound to [LIMIT] or [OFFSET] reaches the store as a double.
    The client refuses a number that is not finite before it sends the
    statement; the store takes a whole number strictly between -2^63 and
    2^63, which it converts to a 64-bit integer, and refuses any other with
    a datatype mismatch.

    [journal] records the statements issued, oldest first: it is what
    "no data access" is measured by. *)

Inductive TableName := tRiddleCollections | tRiddles.
Inductive Verb := SELECT | INSERT | UPDATE | DELETE.
Definition Statement := (Verb * TableName)%type.

Record Database := {
  foreign_keys : bool;
  collections : list RiddleCollections.row;
  riddles : list Riddles.row;
  journal : list Statement
}.

Definition issued (st : Statement) (d : Database) : Database :=
  {| foreign_keys := foreign_keys d;
     collections := collections d;
     riddles := riddles d;
     journal := journal d ++ [st] |}.

Definition with_collections (l : list RiddleCollections.row) (d : Database) :=
  {| foreign_keys := foreign_keys d;
     collections := l;
     riddles := riddles d;
     journal := journal d |}.

Definition with_riddles (l : list Riddles.row) (d : Database) :=
  {| foreign_keys := foreign_keys d;
     collections := collections d;
     riddles := l;
     journal := journal d |}.

Definition empty (fk : bool) : Database :=
  {| foreign_keys := fk; collections := []; riddles := []; journal := [] |}.

(** ** Handler computations *)

Inductive ErrorCode := UNAUTHORIZED | NOT_FOUND | FORBIDDEN.

Inductive Exception :=
| ActionError (code : ErrorCode)   (* thrown by the handlers *)
| ActionInputError                 (* the input does not parse *)
| SQLITE_CONSTRAINT                (* the store refuses a statement *)
| SQLITE_MISMATCH                  (* the store refuses a LIMIT or OFFSET *)
| RangeError.                      (* the client refuses a number *)

Inductive Outcome (A : Type) :=
| Returns (a : A)
| Throws (e : Exception).
Arguments Throws {A} e.

Definition Action (A : Type) := Database -> Outcome A * Database.

Definition ret {A} (a : A) : Action A := fun d => (Returns a, d).

Definition throw {A} (e : Exception) : Action A := fun d => (Throws e, d).

Definition bind {A B} (m : Action A) (k : A -> Action B) : Action B :=
  fun d =>
    match m d with
    | (Returns a, d') => k a d'
    | (Throws e, d') => (Throws e, d')
    end.

Declare Scope action_scope.
Delimit Scope action_scope with action.
Notation "x <- m ;; k" := (bind m (fun x => k))
  (at level 100, m at next level, right associativity) : action_scope.
Notation "m ;; k" := (bind m (fun _ => k))
  (at level 100, right associativity) : action_scope.
Open Scope action_scope.

(** [if (c) { await stmt }] *)
Definition when (c : bool) (m : Action unit) : Action unit :=
  if c then m else ret tt.

(** ** Conditions: [eq] and [and] of [astro:db]

    A comparison with a [NULL] column is never true. *)

Class SqlEq (C V : Type) := sql_eqb : C -> V -> bool.

#[global] Instance SqlEq_text : SqlEq string string := String.eqb.
#[global] Instance SqlEq_bool : SqlEq bool bool := Bool.eqb.
#[global] Instance SqlEq_nullable : SqlEq (option string) string :=
  fun c v => match c with Some x => String.eqb x v | None => false end.

Definition eq {row C V} `{SqlEq C V} (column : row -> C) (v : V) : row -> bool :=
  fun r => sql_eqb (column r) v.

Definition and_ {row} (conds : list (row -> bool)) : row -> bool :=
  fun r => forallb (fun c => c r) conds.

(** ** Statements *)

Section Rows.
Context {row : Type}.

(** [.set(p).where(c)] on a row list *)
Definition update_where (f : row -> row) (c : row -> bool) (l : list row) :=
  map (fun r => if c r then f r else r) l.

(** [.delete().where(c)] on a row list *)
Definition delete_where (c : row -> bool) (l : list row) :=
  filter (fun r => negb (c r)) l.

(** [.limit(n).offset(k)]: a negative limit is no limit, a negative offset
    is no offset. *)
Definition limit_offset (n k : Z) (l : list row) : list row :=
  let rest := skipn (Z.to_nat k) l in
  if (n <? 0)%Z then rest else firstn (Z.to_nat n) rest.
End Rows.

(** A double that the store converts to a 64-bit integer. *)
Definition int64 (z : Z) : bool := ((- 2 ^ 63 <? z) && (z <? 2 ^ 63))%Z.

Arguments int64 : simpl never.

Definition has_collection (d : Database) (c : string) : bool :=
  existsb (fun p => RiddleCollections.id p =? c) (collections d).

(** A riddle row whose reference has no parent row. *)
Definition dangling (d : Database) (r : Riddles.row) : bool :=
  match Riddles.collectionId r with
  | Some c => negb (has_collection d c)
  | None => false
  end.

(** A collection row that some riddle row references. *)
Definition referenced (d : Database) (p : RiddleCollections.row) : bool :=
  existsb (eq Riddles.collectionId (RiddleCollections.id p)) (riddles d).

Definition mentions_reference (p : Riddles.partial) : bool :=
  match Riddles.set_collectionId p with Some _ => true | None => false end.

Module db.
(** [db.select().from(RiddleCollections).where(c)] *)
Definition select_RiddleCollections (c : RiddleCollections.row -> bool)
  : Action (list RiddleCollections.row) :=
  fun d => (Returns (filter c (collections d)),
            issued (SELECT, tRiddleCollections) d).

(** A [SELECT] of the rows [matching], with [.limit(n).offset(k)]. *)
Definition paged {row} (st : Statement) (matching : list row) (n k : Z)
  : Action (list row) :=
  fun d =>
    if js_finite n && js_finite k
    then
      if int64 n && int64 k
      then (Returns (limit_offset n k matching), issued st d)
      else (Throws SQLITE_MISMATCH, issued st d)
    else (Throws RangeError, d).

(** [....where(c).limit(n).offset(k)] *)
Definition page_RiddleCollections (c : RiddleCollections.row -> bool)
    (n k : Z) : Action (list RiddleCollections.row) :=
  fun d =>
    paged (SELECT, tRiddleCollections) (filter c (collections d)) n k d.

(** [db.update(RiddleCollections).set(p).where(c).returning()]; no
    handler assigns [id], so the reference from [Riddles] is not
    concerned. *)
Definition update_RiddleCollections (p : RiddleCollections.partial)
    (c : RiddleCollections.row -> bool) : Action (list RiddleCollections.row) :=
  fun d =>
    let d := issued (UPDATE, tRiddleCollections) d in
    (Returns (map (RiddleCollections.assign p) (filter c (collections d))),
     with_collections
       (update_where (RiddleCollections.assign p) c (collections d)) d).

(** [db.insert(RiddleCollections).values(r).returning()] *)
Definition insert_RiddleCollections (r : RiddleCollections.row)
  : Action (list RiddleCollections.row) :=
  fun d =>
    let d := issued (INSERT, tRiddleCollections) d in
    if has_collection d (RiddleCollections.id r)
    then (Throws SQLITE_CONSTRAINT, d)
    else (Returns [r], with_collections (collections d ++ [r]) d).

(** [db.delete(RiddleCollections).where(c)]: refused, when references
    are enforced, if a riddle still references a deleted row. *)
Definition delete_RiddleCollections (c : RiddleCollections.row -> bool)
  : Action unit :=
  fun d =>
    let d := issued (DELETE, tRiddleCollections) d in
    if foreign_keys d && existsb (referenced d) (filter c (collections d))
    then (Throws SQLITE_CONSTRAINT, d)
    else (Returns tt,
          with_collections (delete_where c (collections d)) d).

(** [db.select().from(Riddles).where(c)] *)
Definition select_Riddles (c : Riddles.row -> bool)
  : Action (list Riddles.row) :=
  fun d => (Returns (filter c (riddles d)), issued (SELECT, tRiddles) d).

(** [db.select().from(Riddles).limit(n).offset(k)], with [.where(c)] when
    there is a condition *)
Definition page_Riddles (c : option (Riddles.row -> bool)) (n k : Z)
  : Action (list Riddles.row) :=
  fun d =>
    let matching :=
      match c with Some c => filter c (riddles d) | None => riddles d end in
    paged (SELECT, tRiddles) matching n k d.

(** [db.update(Riddles).set(p).where(c).returning()]: refused, when
    references are enforced, if [p] assigns [collectionId] and a row it
    assigns to is left without a parent. *)
Definition update_Riddles (p : Riddles.partial) (c : Riddles.row -> bool)
  : Action (list Riddles.row) :=
  fun d =>
    let d := issued (UPDATE, tRiddles) d in
    let changed := map (Riddles.assign p) (filter c (riddles d)) in
    if foreign_keys d && mentions_reference p && existsb (dangling d) changed
    then (Throws SQLITE_CONSTRAINT, d)
    else (Returns changed,
          with_riddles (update_where (Riddles.assign p) c (riddles d)) d).

(** [db.insert(Riddles).values(r).returning()] *)
Definition insert_Riddles (r : Riddles.row) : Action (list Riddles.row) :=
  fun d =>
    let d := issued (INSERT, tRiddles) d in
    if existsb (fun x => Riddles.id x =? Riddles.id r) (riddles d)
    then (Throws SQLITE_CONSTRAINT, d)
    else if foreign_keys d && dangling d r
    then (Throws SQLITE_CONSTRAINT, d)
    else (Returns [r], with_riddles (riddles d ++ [r]) d).

(** [db.delete(Riddles).where(c)] *)
Definition delete_Riddles (c : Riddles.row -> bool) : Action unit :=
  fun d =>
    let d := issued (DELETE, tRiddles) d in
    (Returns tt, with_riddles (delete_where c (riddles d)) d).
End db.

(** ** The request context and [requireUser] *)

Module User.
Record t := { id : string }.
End User.

Record Locals := { user : option User.t }.

(** [context.locals] may be [undefined], and so may [locals.user]. *)
Record ActionAPIContext := { locals : option Locals }.

Definition requireUser (context : ActionAPIContext) : Action User.t :=
  match locals context with
  | Some l =>
      match user l with
      | Some u => ret u
      | None => throw (ActionError UNAUTHORIZED)
      end
  | None => throw (ActionError UNAUTHORIZED)
  end.

(** The ambient values a handler reads: the clock ([new Date()]) and the
    identifier generator ([crypto.randomUUID()]). *)
Record Ambient := { now : Date; randomUUID : string }.

(** [crypto.randomUUID()] returns a string of 36 characters. *)
Definition uuid_shaped (s : string) : Prop := String.length s = 36.

(** ** Input schemas ([astro:schema])

    A raw input is an object of JSON values; a field that is absent reads as
    [None] ([undefined]).  [JNumber] holds the integral numbers:
    [z.number().int()] accepts every double that is a whole number, with no
    upper bound.  A number with a fractional part, an array or a nested
    object is [JOther], which none of the schemas below accepts. *)

Inductive Json :=
| JNull
| JBool (b : bool)
| JNumber (n : Z)
| JString (s : string)
| JOther.

Definition Fields := list (string * Json).

Fixpoint field (k : string) (o : Fields) : option Json :=
  match o with
  | [] => None
  | (k', v) :: o' => if k' =? k then Some v else field k o'
  end.

Module z.
(** A schema parses a field; [None] is a validation issue. *)
Definition schema (A : Type) := option Json -> option A.

Definition string : schema String.string :=
  fun v => match v with Some (JString s) => Some s | _ => None end.

Definition min (n : nat) (s : schema String.string) : schema String.string :=
  fun v =>
    match s v with
    | Some x => if (n <=? String.length x)%nat then Some x else None
    | None => None
    end.

Definition boolean : schema bool :=
  fun v => match v with Some (JBool b) => Some b | _ => None end.

(** [z.number().int()] *)
Definition int : schema Z :=
  fun v => match v with Some (JNumber n) => Some n | _ => None end.

Definition positive (s : schema Z) : schema Z :=
  fun v =>
    match s v with
    | Some n => if (0 <? n)%Z then Some n else None
    | None => None
    end.

Definition max (m : Z) (s : schema Z) : schema Z :=
  fun v =>
    match s v with
    | Some n => if (n <=? m)%Z then Some n else None
    | None => None
    end.

(** [z.enum(["easy", "medium", "hard"])] *)
Definition enum : schema Difficulty :=
  fun v =>
    match v with
    | Some (JString s) =>
        if s =? "easy" then Some easy
        else if s =? "medium" then Some medium
        else if s =? "hard" then Some hard
        else None
    | _ => None
    end.

Definition optional {A} (s : schema A) : schema (option A) :=
  fun v => match v with None => Some None | _ => option_map Some (s v) end.

Definition nullable {A} (s : schema A) : schema (option A) :=
  fun v =>
    match v with Some JNull => Some None | _ => option_map Some (s v) end.

Definition default {A} (d : A) (s : schema A) : schema A :=
  fun v => match v with None => Some d | _ => s v end.
End z.

(** [z.object({...})]: every field must parse. *)
Notation "'field!' x := e 'in' k" :=
  (match e with Some x => k | None => None end)
  (at level 10, x name, e at level 100, k at level 200).

(** ** The actions ([src/src/actions/index.ts]) *)

Module createRiddleCollection.
Record input := {
  name : string;
  description : option string;
  icon : option string;
  isDefault : option bool
}.

Definition handler (input : input) (context : ActionAPIContext)
    (env : Ambient) : Action (option RiddleCollections.row) :=
  user <- requireUser context ;;
  let now := now env in
  when (truthy_flag (isDefault input))
    (_ <- db.update_RiddleCollections
            {| RiddleCollections.set_name := None;
               RiddleCollections.set_description := None;
               RiddleCollections.set_icon := None;
               RiddleCollections.set_isDefault := Some false;
               RiddleCollections.set_updatedAt := Some now |}
            (eq RiddleCollections.userId (User.id user)) ;;
     ret tt) ;;
  inserted <- db.insert_RiddleCollections
    {| RiddleCollections.id := randomUUID env;
       RiddleCollections.userId := User.id user;
       RiddleCollections.name := name input;
       RiddleCollections.description := description input;
       RiddleCollections.icon := icon input;
       RiddleCollections.isDefault := nullish (isDefault input) false;
       RiddleCollections.createdAt := now;
       RiddleCollections.updatedAt := now |} ;;
  ret (hd_error inserted).

Definition schema (o : Fields) : option input :=
  field! name := z.min 1 z.string (field "name" o) in
  field! description := z.optional z.string (field "description" o) in
  field! icon := z.optional z.string (field "icon" o) in
  field! isDefault := z.optional z.boolean (field "isDefault" o) in
  Some {| name := name; description := description; icon := icon;
          isDefault := isDefault |}.
End createRiddleCollection.

Module updateRiddleCollection.
Record input := {
  id : string;
  name : option string;
  description : option string;
  icon : option string;
  isDefault : option bool
}.

Definition updateData (input : input) (now : Date)
  : RiddleCollections.partial :=
  {| RiddleCollections.set_name := name input;
     RiddleCollections.set_description := description input;
     RiddleCollections.set_icon := icon input;
     RiddleCollections.set_isDefault := isDefault input;
     RiddleCollections.set_updatedAt := Some now |}.

Definition handler (input : input) (context : ActionAPIContext)
    (env : Ambient) : Action (option RiddleCollections.row) :=
  user <- requireUser context ;;
  existing <- db.select_RiddleCollections
    (and_ [eq RiddleCollections.id (id input);
           eq RiddleCollections.userId (User.id user)]) ;;
  match hd_error existing with
  | None => throw (ActionError NOT_FOUND)
  | Some _ =>
      let now := now env in
      when (truthy_flag (isDefault input))
        (_ <- db.update_RiddleCollections
                {| RiddleCollections.set_name := None;
                   RiddleCollections.set_description := None;
                   RiddleCollections.set_icon := None;
                   RiddleCollections.set_isDefault := Some false;
                   RiddleCollections.set_updatedAt := Some now |}
                (eq RiddleCollections.userId (User.id user)) ;;
         ret tt) ;;
      updated <- db.update_RiddleCollections (updateData input now)
        (and_ [eq RiddleCollections.id (id input);
               eq RiddleCollections.userId (User.id user)]) ;;
      ret (hd_error updated)
  end.

Definition schema (o : Fields) : option input :=
  field! id := z.min 1 z.string (field "id" o) in
  field! name := z.optional (z.min 1 z.string) (field "name" o) in
  field! description := z.optional z.string (field "description" o) in
  field! icon := z.optional z.string (field "icon" o) in
  field! isDefault := z.optional z.boolean (field "isDefault" o) in
  Some {| id := id; name := name; description := description; icon := icon;
          isDefault := isDefault |}.
End updateRiddleCollection.

Module deleteRiddleCollection.
Record input := { id : string }.

Definition handler (input : input) (context : ActionAPIContext)
    (env : Ambient) : Action unit :=
  user <- requireUser context ;;
  existing <- db.select_RiddleCollections
    (and_ [eq RiddleCollections.id (id input);
           eq RiddleCollections.userId (User.id user)]) ;;
  match hd_error existing with
  | None => throw (ActionError NOT_FOUND)
  | Some _ =>
      let now := now env in
      _ <- db.update_Riddles
        {| Riddles.set_question := None;
           Riddles.set_answer := None;
           Riddles.set_hint := None;
           Riddles.set_difficulty := None;
           Riddles.set_category := None;
           Riddles.set_language := None;
           Riddles.set_collectionId := Some None;
           Riddles.set_isFavorite := None;
           Riddles.set_isPublic := None;
           Riddles.set_updatedAt := Some now |}
        (and_ [eq Riddles.collectionId (id input);
               eq Riddles.userId (User.id user)]) ;;
      db.delete_RiddleCollections
        (and_ [eq RiddleCollections.id (id input);
               eq RiddleCollections.userId (User.id user)])
  end.

Definition schema (o : Fields) : option input :=
  field! id := z.min 1 z.string (field "id" o) in
  Some {| id := id |}.
End deleteRiddleCollection.

Module createRiddle.
Record input := {
  question : string;
  answer : string;
  hint : option string;
  difficulty : option Difficulty;
  category : option string;
  language : option string;
  collectionId : option string;
  isFavorite : option bool;
  isPublic : option bool
}.

Definition handler (input : input) (context : ActionAPIContext)
    (env : Ambient) : Action (option Riddles.row) :=
  user <- requireUser context ;;
  when (truthy_text (collectionId input))
    (found <- db.select_RiddleCollections
       (and_ [eq RiddleCollections.id (nullish (collectionId input) "");
              eq RiddleCollections.userId (User.id user)]) ;;
     match hd_error found with
     | None => throw (ActionError FORBIDDEN)
     | Some _ => ret tt
     end) ;;
  let now := now env in
  inserted <- db.insert_Riddles
    {| Riddles.id := randomUUID env;
       Riddles.userId := User.id user;
       Riddles.collectionId := collectionId input;
       Riddles.question := question input;
       Riddles.answer := answer input;
       Riddles.hint := hint input;
       Riddles.difficulty := option_map Difficulty_text (difficulty input);
       Riddles.category := category input;
       Riddles.language := language input;
       Riddles.isFavorite := nullish (isFavorite input) false;
       Riddles.isPublic := nullish (isPublic input) false;
       Riddles.createdAt := now;
       Riddles.updatedAt := now |} ;;
  ret (hd_error inserted).

Definition schema (o : Fields) : option input :=
  field! question := z.min 1 z.string (field "question" o) in
  field! answer := z.min 1 z.string (field "answer" o) in
  field! hint := z.optional z.string (field "hint" o) in
  field! difficulty := z.optional z.enum (field "difficulty" o) in
  field! category := z.optional z.string (field "category" o) in
  field! language := z.optional z.string (field "language" o) in
  field! collectionId := z.optional z.string (field "collectionId" o) in
  field! isFavorite := z.optional z.boolean (field "isFavorite" o) in
  field! isPublic := z.optional z.boolean (field "isPublic" o) in
  Some {| question := question; answer := answer; hint := hint;
          difficulty := difficulty; category := category;
          language := language; collectionId := collectionId;
          isFavorite := isFavorite; isPublic := isPublic |}.
End createRiddle.

Module updateRiddle.
(** [collectionId] is [z.string().nullable().optional()]: left out
    ([None]), [null] ([Some None]) or a string. *)
Record input := {
  id : string;
  question : option string;
  answer : option string;
  hint : option string;
  difficulty : option Difficulty;
  category : option string;
  language : option string;
  collectionId : option (option string);
  isFavorite : option bool;
  isPublic : option bool
}.

(** [typeof input.collectionId !== "undefined" && input.collectionId] *)
Definition checks_collection (input : input) : bool :=
  match collectionId input with
  | Some c => truthy_text c
  | None => false
  end.

Definition updateData (input : input) (now : Date) : Riddles.partial :=
  {| Riddles.set_question := question input;
     Riddles.set_answer := answer input;
     Riddles.set_hint := hint input;
     Riddles.set_difficulty := option_map Difficulty_text (difficulty input);
     Riddles.set_category := category input;
     Riddles.set_language := language input;
     Riddles.set_collectionId := collectionId input;
     Riddles.set_isFavorite := isFavorite input;
     Riddles.set_isPublic := isPublic input;
     Riddles.set_updatedAt := Some now |}.

Definition handler (input : input) (context : ActionAPIContext)
    (env : Ambient) : Action (option Riddles.row) :=
  user <- requireUser context ;;
  existing <- db.select_Riddles
    (and_ [eq Riddles.id (id input); eq Riddles.userId (User.id user)]) ;;
  match hd_error existing with
  | None => throw (ActionError NOT_FOUND)
  | Some _ =>
      when (checks_collection input)
        (found <- db.select_RiddleCollections
           (and_ [eq RiddleCollections.id
                    (nullish (nullish (collectionId input) None) "");
                  eq RiddleCollections.userId (User.id user)]) ;;
         match hd_error found with
         | None => throw (ActionError FORBIDDEN)
         | Some _ => ret tt
         end) ;;
      updated <- db.update_Riddles (updateData input (now env))
        (and_ [eq Riddles.id (id input); eq Riddles.userId (User.id user)]) ;;
      ret (hd_error updated)
  end.

Definition schema (o : Fields) : option input :=
  field! id := z.min 1 z.string (field "id" o) in
  field! question := z.optional (z.min 1 z.string) (field "question" o) in
  field! answer := z.optional (z.min 1 z.string) (field "answer" o) in
  field! hint := z.optional z.string (field "hint" o) in
  field! difficulty := z.optional z.enum (field "difficulty" o) in
  field! category := z.optional z.string (field "category" o) in
  field! language := z.optional z.string (field "language" o) in
  field! collectionId :=
    z.optional (z.nullable z.string) (field "collectionId" o) in
  field! isFavorite := z.optional z.boolean (field "isFavorite" o) in
  field! isPublic := z.optional z.boolean (field "isPublic" o) in
  Some {| id := id; question := question; answer := answer; hint := hint;
          difficulty := difficulty; category := category;
          language := language; collectionId := collectionId;
          isFavorite := isFavorite; isPublic := isPublic |}.
End updateRiddle.

Module deleteRiddle.
Record input := { id : string }.

Definition handler (input : input) (context : ActionAPIContext)
    (env : Ambient) : Action unit :=
  user <- requireUser context ;;
  existing <- db.select_Riddles
    (and_ [eq Riddles.id (id input); eq Riddles.userId (User.id user)]) ;;
  match hd_error existing with
  | None => throw (ActionError NOT_FOUND)
  | Some _ =>
      db.delete_Riddles
        (and_ [eq Riddles.id (id input); eq Riddles.userId (User.id user)])
  end.

Definition schema (o : Fields) : option input :=
  field! id := z.min 1 z.string (field "id" o) in
  Some {| id := id |}.
End deleteRiddle.

(** What both listings return: [{ items, total: items.length }]. *)
Record Page (row : Type) := { items : list row; total : nat }.

Module listMyCollections.
Record input := { page : Z; pageSize : Z }.

Definition handler (input : input) (context : ActionAPIContext)
    (env : Ambient) : Action (Page RiddleCollections.row) :=
  user <- requireUser context ;;
  items <- db.page_RiddleCollections
    (eq RiddleCollections.userId (User.id user))
    (pageSize input) (js_mul (js_sub (page input) 1) (pageSize input)) ;;
  ret {| items := items; total := length items |}.

Definition schema (o : Fields) : option input :=
  field! page := z.default 1%Z (z.positive z.int) (field "page" o) in
  field! pageSize :=
    z.default 20%Z (z.max 100 (z.positive z.int)) (field "pageSize" o) in
  Some {| page := page; pageSize := pageSize |}.
End listMyCollections.

Module listMyRiddles.
Record input := {
  collectionId : option string;
  favoritesOnly : option bool;
  difficulty : option Difficulty;
  category : option string;
  page : Z;
  pageSize : Z
}.

(** [filters.push(c)] under [if (t)] *)
Definition push_if {A} (t : bool) (c : A) (filters : list A) : list A :=
  if t then filters ++ [c] else filters.

Definition filters (input : input) (user : User.t)
  : list (Riddles.row -> bool) :=
  let filters := [eq Riddles.userId (User.id user)] in
  let filters :=
    push_if (truthy_text (collectionId input))
      (eq Riddles.collectionId (nullish (collectionId input) "")) filters in
  let filters :=
    push_if (truthy_flag (favoritesOnly input))
      (eq Riddles.isFavorite true) filters in
  (* [if (input.difficulty)]: each of the three texts is truthy *)
  let filters :=
    match difficulty input with
    | Some d => filters ++ [eq Riddles.difficulty (Difficulty_text d)]
    | None => filters
    end in
  push_if (truthy_text (category input))
    (eq Riddles.category (nullish (category input) "")) filters.

(** [filters.length ? and(...filters) : undefined] *)
Definition whereClause (input : input) (user : User.t)
  : option (Riddles.row -> bool) :=
  match filters input user with
  | [] => None
  | fs => Some (and_ fs)
  end.

Definition handler (input : input) (context : ActionAPIContext)
    (env : Ambient) : Action (Page Riddles.row) :=
  user <- requireUser context ;;
  items <- db.page_Riddles (whereClause input user)
    (pageSize input) (js_mul (js_sub (page input) 1) (pageSize input)) ;;
  ret {| items := items; total := length items |}.

Definition schema (o : Fields) : option input :=
  field! collectionId := z.optional z.string (field "collectionId" o) in
  field! favoritesOnly := z.optional z.boolean (field "favoritesOnly" o) in
  field! difficulty := z.optional z.enum (field "difficulty" o) in
  field! category := z.optional z.string (field "category" o) in
  field! page := z.default 1%Z (z.positive z.int) (field "page" o) in
  field! pageSize :=
    z.default 20%Z (z.max 100 (z.positive z.int)) (field "pageSize" o) in
  Some {| collectionId := collectionId; favoritesOnly := favoritesOnly;
          difficulty := difficulty; category := category; page := page;
          pageSize := pageSize |}.
End listMyRiddles.

(** ** [server]: the eight actions behind one entry point *)

Inductive Name :=
| CreateRiddleCollection | UpdateRiddleCollection | DeleteRiddleCollection
| CreateRiddle | UpdateRiddle | DeleteRiddle
| ListMyCollections | ListMyRiddles.

(** A call is an action together with an input of its type. *)
Inductive Call :=
| call_createRiddleCollection (i : createRiddleCollection.input)
| call_updateRiddleCollection (i : updateRiddleCollection.input)
| call_deleteRiddleCollection (i : deleteRiddleCollection.input)
| call_createRiddle (i : createRiddle.input)
| call_updateRiddle (i : updateRiddle.input)
| call_deleteRiddle (i : deleteRiddle.input)
| call_listMyCollections (i : listMyCollections.input)
| call_listMyRiddles (i : listMyRiddles.input).

(** The [data] of [{ success: true, data }]; the two deletions return
    [{ success: true }] alone. *)
Inductive Data :=
| data_collection (c : option RiddleCollections.row)
| data_riddle (r : option Riddles.row)
| data_none
| data_collections (p : Page RiddleCollections.row)
| data_riddles (p : Page Riddles.row).

Definition fmap {A B} (f : A -> B) (m : Action A) : Action B :=
  a <- m ;; ret (f a).

Definition name_of (c : Call) : Name :=
  match c with
  | call_createRiddleCollection _ => CreateRiddleCollection
  | call_updateRiddleCollection _ => UpdateRiddleCollection
  | call_deleteRiddleCollection _ => DeleteRiddleCollection
  | call_createRiddle _ => CreateRiddle
  | call_updateRiddle _ => UpdateRiddle
  | call_deleteRiddle _ => DeleteRiddle
  | call_listMyCollections _ => ListMyCollections
  | call_listMyRiddles _ => ListMyRiddles
  end.

Definition schema (n : Name) (raw : Fields) : option Call :=
  match n with
  | CreateRiddleCollection =>
      option_map call_createRiddleCollection (createRiddleCollection.schema raw)
  | UpdateRiddleCollection =>
      option_map call_updateRiddleCollection (updateRiddleCollection.schema raw)
  | DeleteRiddleCollection =>
      option_map call_deleteRiddleCollection (deleteRiddleCollection.schema raw)
  | CreateRiddle => option_map call_createRiddle (createRiddle.schema raw)
  | UpdateRiddle => option_map call_updateRiddle (updateRiddle.schema raw)
  | DeleteRiddle => option_map call_deleteRiddle (deleteRiddle.schema raw)
  | ListMyCollections =>
      option_map call_listMyCollections (listMyCollections.schema raw)
  | ListMyRiddles => option_map call_listMyRiddles (listMyRiddles.schema raw)
  end.

Definition handler (c : Call) (context : ActionAPIContext) (env : Ambient)
  : Action Data :=
  match c with
  | call_createRiddleCollection i =>
      fmap data_collection (createRiddleCollection.handler i context env)
  | call_updateRiddleCollection i =>
      fmap data_collection (updateRiddleCollection.handler i context env)
  | call_deleteRiddleCollection i =>
      fmap (fun _ => data_none) (deleteRiddleCollection.handler i context env)
  | call_createRiddle i =>
      fmap data_riddle (createRiddle.handler i context env)
  | call_updateRiddle i =>
      fmap data_riddle (updateRiddle.handler i context env)
  | call_deleteRiddle i =>
      fmap (fun _ => data_none) (deleteRiddle.handler i context env)
  | call_listMyCollections i =>
      fmap data_collections (listMyCollections.handler i context env)
  | call_listMyRiddles i =>
      fmap data_riddles (listMyRiddles.handler i context env)
  end.

(** Modelled from the spec: [defineAction] of [astro:actions], which is not
    part of the repository.  The raw input is parsed with the action's
    schema; an input that does not parse is rejected before handler logic
    runs, and otherwise the handler runs on the parsed input. *)
Definition defineAction {I O} (schema : Fields -> option I)
    (handler : I -> ActionAPIContext -> Ambient -> Action O)
    (raw : Fields) (context : ActionAPIContext) (env : Ambient) : Action O :=
  match schema raw with
  | Some input => handler input context env
  | None => throw ActionInputError
  end.

Definition server (n : Name) : Fields -> ActionAPIContext -> Ambient -> Action Data :=
  defineAction (schema n) handler.

(** ** Reachable databases

    A database is reachable when calls lead to it from the empty tables: any
    action, on any input of its type, from any context, at any time, whether
    the call returns or throws.  Every identifier drawn is a UUID. *)
Inductive reachable (fk : bool) : Database -> Prop :=
| reachable_empty : reachable fk (empty fk)
| reachable_call d c context env :
    reachable fk d ->
    uuid_shaped (randomUUID env) ->
    reachable fk (snd (handler c context env d)).

(** * Vocabulary of the properties *)

(** ** Callers and the rows they own *)

(** [locals?.user] *)
Definition caller (context : ActionAPIContext) : option User.t :=
  match locals context with
  | Some l => user l
  | None => None
  end.

(** Two databases hold the same rows under the same settings; only the
    journal may differ. *)
Definition same_tables (d d' : Database) : Prop :=
  foreign_keys d' = foreign_keys d /\
  collections d' = collections d /\
  riddles d' = riddles d.

Definition owns_collection (x u : string) : RiddleCollections.row -> bool :=
  and_ [eq RiddleCollections.id x; eq RiddleCollections.userId u].

Definition owns_riddle (x u : string) : Riddles.row -> bool :=
  and_ [eq Riddles.id x; eq Riddles.userId u].

Definition attached_to (x u : string) : Riddles.row -> bool :=
  and_ [eq Riddles.collectionId x; eq Riddles.userId u].

Definition no_collection_of (u x : string) (d : Database) : Prop :=
  forall r, In r (collections d) ->
    ~ (RiddleCollections.id r = x /\ RiddleCollections.userId r = u).

Definition no_riddle_of (u x : string) (d : Database) : Prop :=
  forall r, In r (riddles d) ->
    ~ (Riddles.id r = x /\ Riddles.userId r = u).

(** ** Rows and partial rows the handlers build *)

(** [{ isDefault: false, updatedAt: now }] *)
Definition clear_default (now : Date) : RiddleCollections.partial :=
  {| RiddleCollections.set_name := None;
     RiddleCollections.set_description := None;
     RiddleCollections.set_icon := None;
     RiddleCollections.set_isDefault := Some false;
     RiddleCollections.set_updatedAt := Some now |}.

(** [{ collectionId: null, updatedAt: now }] *)
Definition detach (now : Date) : Riddles.partial :=
  {| Riddles.set_question := None;
     Riddles.set_answer := None;
     Riddles.set_hint := None;
     Riddles.set_difficulty := None;
     Riddles.set_category := None;
     Riddles.set_language := None;
     Riddles.set_collectionId := Some None;
     Riddles.set_isFavorite := None;
     Riddles.set_isPublic := None;
     Riddles.set_updatedAt := Some now |}.

(** [{ items, total: items.length }] of the rows a paged [SELECT] gives *)
Definition page_of {A} (r : Outcome (list A) * Database)
  : Outcome (Page A) * Database :=
  match r with
  | (Returns l, d) => (Returns {| items := l; total := length l |}, d)
  | (Throws e, d) => (Throws e, d)
  end.

(** [const [row] = await ... .returning()] *)
Definition first_row {A} (r : Outcome (list A) * Database)
  : Outcome (option A) * Database :=
  match r with
  | (Returns l, d) => (Returns (hd_error l), d)
  | (Throws e, d) => (Throws e, d)
  end.

Definition new_collection (i : createRiddleCollection.input) (u : User.t)
    (env : Ambient) : RiddleCollections.row :=
  {| RiddleCollections.id := randomUUID env;
     RiddleCollections.userId := User.id u;
     RiddleCollections.name := createRiddleCollection.name i;
     RiddleCollections.description := createRiddleCollection.description i;
     RiddleCollections.icon := createRiddleCollection.icon i;
     RiddleCollections.isDefault :=
       nullish (createRiddleCollection.isDefault i) false;
     RiddleCollections.createdAt := now env;
     RiddleCollections.updatedAt := now env |}.

Definition new_riddle (i : createRiddle.input) (u : User.t) (env : Ambient)
  : Riddles.row :=
  {| Riddles.id := randomUUID env;
     Riddles.userId := User.id u;
     Riddles.collectionId := createRiddle.collectionId i;
     Riddles.question := createRiddle.question i;
     Riddles.answer := createRiddle.answer i;
     Riddles.hint := createRiddle.hint i;
     Riddles.difficulty :=
       option_map Difficulty_text (createRiddle.difficulty i);
     Riddles.category := createRiddle.category i;
     Riddles.language := createRiddle.language i;
     Riddles.isFavorite := nullish (createRiddle.isFavorite i) false;
     Riddles.isPublic := nullish (createRiddle.isPublic i) false;
     Riddles.createdAt := now env;
     Riddles.updatedAt := now env |}.

(** The collections of [u] as [updateRiddleCollection] finds them when it
    writes: with [isDefault] cleared if the input asks for the default. *)
Definition before_write (i : updateRiddleCollection.input) (u : User.t)
    (t : Date) (l : list RiddleCollections.row) : list RiddleCollections.row :=
  if truthy_flag (updateRiddleCollection.isDefault i)
  then update_where (RiddleCollections.assign (clear_default t))
         (eq RiddleCollections.userId (User.id u)) l
  else l.

(** ** Malformed inputs *)

Definition empty_text (k : string) (raw : Fields) : Prop :=
  field k raw = Some (JString "").

Definition takes_id (n : Name) : bool :=
  match n with
  | UpdateRiddleCollection | DeleteRiddleCollection
  | UpdateRiddle | DeleteRiddle => true
  | _ => false
  end.

Definition takes_difficulty (n : Name) : bool :=
  match n with
  | CreateRiddle | UpdateRiddle | ListMyRiddles => true
  | _ => false
  end.

Definition takes_page (n : Name) : bool :=
  match n with
  | ListMyCollections | ListMyRiddles => true
  | _ => false
  end.

(** The malformed inputs: an empty required text, a difficulty that is not
    one of the three, a page below 1, a page size outside 1..100. *)
Inductive malformed : Name -> Fields -> Prop :=
| empty_collection_name raw :
    empty_text "name" raw -> malformed CreateRiddleCollection raw
| empty_question raw :
    empty_text "question" raw -> malformed CreateRiddle raw
| empty_answer raw :
    empty_text "answer" raw -> malformed CreateRiddle raw
| empty_id n raw :
    takes_id n = true -> empty_text "id" raw -> malformed n raw
| unknown_difficulty n raw s :
    takes_difficulty n = true ->
    field "difficulty" raw = Some (JString s) ->
    s <> "easy" -> s <> "medium" -> s <> "hard" ->
    malformed n raw
| page_below_1 n raw p :
    takes_page n = true ->
    field "page" raw = Some (JNumber p) -> (p < 1)%Z ->
    malformed n raw
| pageSize_out_of_range n raw p :
    takes_page n = true ->
    field "pageSize" raw = Some (JNumber p) -> (p < 1 \/ 100 < p)%Z ->
    malformed n raw.

(** What a parsed listing input holds for [page] and [pageSize]. *)
Definition paging (c : Call) : option (Z * Z) :=
  match c with
  | call_listMyCollections i =>
      Some (listMyCollections.page i, listMyCollections.pageSize i)
  | call_listMyRiddles i =>
      Some (listMyRiddles.page i, listMyRiddles.pageSize i)
  | _ => None
  end.

(** ** Fields after a partial update *)

(** A field after an update: the supplied value, or the previous one when
    none was supplied. *)
Definition takes {A} (supplied : option A) (before after : A) : Prop :=
  match supplied with
  | Some v => after = v
  | None => after = before
  end.

Definition riddle_updated (i : updateRiddle.input) (t : Date)
    (old new : Riddles.row) : Prop :=
  Riddles.id new = Riddles.id old /\
  Riddles.userId new = Riddles.userId old /\
  Riddles.createdAt new = Riddles.createdAt old /\
  Riddles.updatedAt new = t /\
  takes (updateRiddle.question i) (Riddles.question old) (Riddles.question new) /\
  takes (updateRiddle.answer i) (Riddles.answer old) (Riddles.answer new) /\
  takes (option_map Some (updateRiddle.hint i))
    (Riddles.hint old) (Riddles.hint new) /\
  takes (option_map (fun x => Some (Difficulty_text x)) (updateRiddle.difficulty i))
    (Riddles.difficulty old) (Riddles.difficulty new) /\
  takes (option_map Some (updateRiddle.category i))
    (Riddles.category old) (Riddles.category new) /\
  takes (option_map Some (updateRiddle.language i))
    (Riddles.language old) (Riddles.language new) /\
  takes (updateRiddle.collectionId i)
    (Riddles.collectionId old) (Riddles.collectionId new) /\
  takes (updateRiddle.isFavorite i)
    (Riddles.isFavorite old) (Riddles.isFavorite new) /\
  takes (updateRiddle.isPublic i) (Riddles.isPublic old) (Riddles.isPublic new).

Definition collection_updated (i : updateRiddleCollection.input) (t : Date)
    (old new : RiddleCollections.row) : Prop :=
  RiddleCollections.id new = RiddleCollections.id old /\
  RiddleCollections.userId new = RiddleCollections.userId old /\
  RiddleCollections.createdAt new = RiddleCollections.createdAt old /\
  RiddleCollections.updatedAt new = t /\
  takes (updateRiddleCollection.name i)
    (RiddleCollections.name old) (RiddleCollections.name new) /\
  takes (option_map Some (updateRiddleCollection.description i))
    (RiddleCollections.description old) (RiddleCollections.description new) /\
  takes (option_map Some (updateRiddleCollection.icon i))
    (RiddleCollections.icon old) (RiddleCollections.icon new) /\
  takes (updateRiddleCollection.isDefault i)
    (RiddleCollections.isDefault old) (RiddleCollections.isDefault new).

(** ** Default collections *)

Definition default_of (u : string) (r : RiddleCollections.row) : bool :=
  (RiddleCollections.userId r =? u) && RiddleCollections.isDefault r.

(** The collections of [u] that are marked as default. *)
Definition defaults_of (u : string) (d : Database) : list RiddleCollections.row :=
  filter (default_of u) (collections d).

(** At most one collection of [v] is marked as default. *)
Definition at_most_one_default (v : string) (d : Database) : Prop :=
  length (defaults_of v d) <= 1.

(** ** The statements a call issues

    Every call amounts to a sequence of statements on the tables.  Each kind
    of statement is listed with what the handler has established by the time
    it issues it. *)

Definition only_collections (d d' : Database)
    (l : list RiddleCollections.row) : Prop :=
  foreign_keys d' = foreign_keys d /\ riddles d' = riddles d /\
  collections d' = l.

Definition only_riddles (d d' : Database) (l : list Riddles.row) : Prop :=
  foreign_keys d' = foreign_keys d /\ collections d' = collections d /\
  riddles d' = l.

(** A reference that the handler has let through: either it names a
    collection of [u], or it is the empty string, which no check looks at and
    which only the store can refuse. *)
Definition let_through (u : string) (d : Database) (c : string) : Prop :=
  (c = "" /\ (foreign_keys d = true -> has_collection d "" = true)) \/
  (exists p, In p (collections d) /\
             RiddleCollections.id p = c /\ RiddleCollections.userId p = u).

Inductive statement (u : string) (env : Ambient) (d d' : Database) : Prop :=
| st_read :
    same_tables d d' -> statement u env d d'
| st_clear_defaults t :
    only_collections d d'
      (update_where (RiddleCollections.assign (clear_default t))
         (eq RiddleCollections.userId u) (collections d)) ->
    statement u env d d'
| st_insert_collection r :
    only_collections d d' (collections d ++ [r]) ->
    has_collection d (RiddleCollections.id r) = false ->
    RiddleCollections.id r = randomUUID env ->
    RiddleCollections.userId r = u ->
    (RiddleCollections.isDefault r = true -> defaults_of u d = []) ->
    statement u env d d'
| st_update_collection p x :
    only_collections d d'
      (update_where (RiddleCollections.assign p) (owns_collection x u)
         (collections d)) ->
    (RiddleCollections.set_isDefault p = Some true -> defaults_of u d = []) ->
    statement u env d d'
| st_delete_collection x :
    only_collections d d' (delete_where (owns_collection x u) (collections d)) ->
    (forall r, In r (riddles d) -> attached_to x u r = false) ->
    statement u env d d'
| st_detach t x :
    only_riddles d d'
      (update_where (Riddles.assign (detach t)) (attached_to x u) (riddles d)) ->
    statement u env d d'
| st_insert_riddle r :
    only_riddles d d' (riddles d ++ [r]) ->
    Riddles.userId r = u ->
    (forall c, Riddles.collectionId r = Some c -> let_through u d c) ->
    statement u env d d'
| st_update_riddle p x :
    only_riddles d d'
      (update_where (Riddles.assign p) (owns_riddle x u) (riddles d)) ->
    (forall c, Riddles.set_collectionId p = Some (Some c) -> let_through u d c) ->
    statement u env d d'
| st_delete_riddle x :
    only_riddles d d' (delete_where (owns_riddle x u) (riddles d)) ->
    statement u env d d'.

Inductive statements (u : string) (env : Ambient) : Database -> Database -> Prop :=
| statements_none d : statements u env d d
| statements_then d1 d2 d3 :
    statement u env d1 d2 -> statements u env d2 d3 -> statements u env d1 d3.

(** ** Invariants of the tables *)

(** [id] is the primary key of [RiddleCollections]. *)
Definition primary_keys (d : Database) : Prop :=
  NoDup (map RiddleCollections.id (collections d)).

(** Every collection identifier was drawn by [crypto.randomUUID()]. *)
Definition uuid_keys (d : Database) : Prop :=
  forall p, In p (collections d) -> uuid_shaped (RiddleCollections.id p).

(** The collection that riddle [r] references exists and has the owner of
    [r]. *)
Definition resolves (d : Database) (r : Riddles.row) : Prop :=
  forall c, Riddles.collectionId r = Some c ->
    exists p, In p (collections d) /\
              RiddleCollections.id p = c /\
              RiddleCollections.userId p = Riddles.userId r.

(** Every reference resolves, except that a store which does not enforce
    references may hold riddles whose [collectionId] is the empty string. *)
Definition references_ok (d : Database) : Prop :=
  forall r, In r (riddles d) ->
    resolves d r \/
    (Riddles.collectionId r = Some "" /\ foreign_keys d = false).

Definition all_resolve (d : Database) : Prop :=
  forall r, In r (riddles d) -> resolves d r.

Record consistent (d : Database) : Prop := {
  consistent_keys : primary_keys d;
  consistent_uuids : uuid_keys d;
  consistent_references : references_ok d
}.

(** Riddle [r] references collection [x]. *)
Definition references (x : string) (r : Riddles.row) : bool :=
  match Riddles.collectionId r with
  | Some c => c =? x
  | None => false
  end.

(** Riddle [r] with its reference set to [null] and [updatedAt] set to [t],
    every other column as it was. *)
Definition detached_row (t : Date) (r : Riddles.row) : Riddles.row :=
  {| Riddles.id := Riddles.id r;
     Riddles.collectionId := None;
     Riddles.userId := Riddles.userId r;
     Riddles.question := Riddles.question r;
     Riddles.answer := Riddles.answer r;
     Riddles.hint := Riddles.hint r;
     Riddles.difficulty := Riddles.difficulty r;
     Riddles.category := Riddles.category r;
     Riddles.language := Riddles.language r;
     Riddles.isFavorite := Riddles.isFavorite r;
     Riddles.isPublic := Riddles.isPublic r;
     Riddles.createdAt := Riddles.createdAt r;
     Riddles.updatedAt := t |}.

(** ** Pages *)

(** [Number.MAX_SAFE_INTEGER]: up to it every whole number is a double, and
    sums and products that stay below it are exact. *)
Definition MAX_SAFE_INTEGER : Z := (2 ^ 53 - 1)%Z.

(** Row [k] of the page: row [(page - 1) * pageSize + k] of the matching
    rows, for [k] below [pageSize]. *)
Definition page_row {A} (page pageSize : Z) (matching : list A) (k : nat)
  : option A :=
  if (Z.of_nat k <? pageSize)%Z
  then nth_error matching (Z.to_nat ((page - 1) * pageSize) + k)
  else None.

(** The rows of [u] that match every filter provided in the input, as the
    claim words it. *)
Definition matches_provided (i : listMyRiddles.input) (u : string)
    (r : Riddles.row) : bool :=
  (Riddles.userId r =? u)
  && match listMyRiddles.collectionId i with
     | Some c => sql_eqb (Riddles.collectionId r) c
     | None => true
     end
  && match listMyRiddles.favoritesOnly i with
     | Some true => Riddles.isFavorite r
     | _ => true
     end
  && match listMyRiddles.difficulty i with
     | Some l => sql_eqb (Riddles.difficulty r) (Difficulty_text l)
     | None => true
     end
  && match listMyRiddles.category i with
     | Some c => sql_eqb (Riddles.category r) c
     | None => true
     end.

(** The same, where a [collectionId] or [category] that is the empty string
    counts as not provided. *)
Definition matches_nonempty (i : listMyRiddles.input) (u : string)
    (r : Riddles.row) : bool :=
  (Riddles.userId r =? u)
  && match listMyRiddles.collectionId i with
     | Some c => (c =? "") || sql_eqb (Riddles.collectionId r) c
     | None => true
     end
  && match listMyRiddles.favoritesOnly i with
     | Some true => Riddles.isFavorite r
     | _ => true
     end
  && match listMyRiddles.difficulty i with
     | Some l => sql_eqb (Riddles.difficulty r) (Difficulty_text l)
     | None => true
     end
  && match listMyRiddles.category i with
     | Some c => (c =? "") || sql_eqb (Riddles.category r) c
     | None => true
     end.

(** ** Sample requests and databases, to run the handlers on concrete inputs *)

Definition anonymous : ActionAPIContext := {| locals := None |}.

Definition signed_in (u : string) : ActionAPIContext :=
  {| locals := Some {| user := Some {| User.id := u |} |} |}.

Definition at_ (t : Date) (uuid : string) : Ambient :=
  {| now := t; randomUUID := uuid |}.

Definition uuid1 := "00000000-0000-4000-8000-000000000001".
Definition uuid2 := "00000000-0000-4000-8000-000000000002".
Definition uuid3 := "00000000-0000-4000-8000-000000000003".

(** A first collection, "Logic", created by user A as her default. *)
Definition logic_input : createRiddleCollection.input :=
  {| createRiddleCollection.name := "Logic";
     createRiddleCollection.description := None;
     createRiddleCollection.icon := None;
     createRiddleCollection.isDefault := Some true |}.

Definition logic_row : RiddleCollections.row :=
  new_collection logic_input {| User.id := "A" |} (at_ 10%Z uuid1).

Definition with_logic (fk : bool) : Database :=
  snd (handler (call_createRiddleCollection logic_input) (signed_in "A")
         (at_ 10%Z uuid1) (empty fk)).

Definition wordplay_input : createRiddleCollection.input :=
  {| createRiddleCollection.name := "Wordplay";
     createRiddleCollection.description := None;
     createRiddleCollection.icon := None;
     createRiddleCollection.isDefault := Some true |}.

Definition piano_input (c : option string) : createRiddle.input :=
  {| createRiddle.question := "What has keys but no locks?";
     createRiddle.answer := "A piano";
     createRiddle.hint := None;
     createRiddle.difficulty := Some easy;
     createRiddle.category := Some "wordplay";
     createRiddle.language := None;
     createRiddle.collectionId := c;
     createRiddle.isFavorite := None;
     createRiddle.isPublic := None |}.

Definition piano_row : Riddles.row :=
  new_riddle (piano_input (Some uuid1)) {| User.id := "A" |} (at_ 20%Z uuid2).

(** "Logic" with one riddle of user A in it. *)
Definition with_piano (fk : bool) : Database :=
  snd (handler (call_createRiddle (piano_input (Some uuid1))) (signed_in "A")
         (at_ 20%Z uuid2) (with_logic fk)).

(** A second riddle of user A, outside any collection. *)
Definition with_two (fk : bool) : Database :=
  snd (handler (call_createRiddle (piano_input None)) (signed_in "A")
         (at_ 30%Z uuid3) (with_piano fk)).

Definition hint_only (h : string) : updateRiddle.input :=
  {| updateRiddle.id := uuid2;
     updateRiddle.question := None;
     updateRiddle.answer := None;
     updateRiddle.hint := Some h;
     updateRiddle.difficulty := None;
     updateRiddle.category := None;
     updateRiddle.language := None;
     updateRiddle.collectionId := None;
     updateRiddle.isFavorite := None;
     updateRiddle.isPublic := None |}.

Definition move_to (c : option string) : updateRiddle.input :=
  {| updateRiddle.id := uuid2;
     updateRiddle.question := None;
     updateRiddle.answer := None;
     updateRiddle.hint := None;
     updateRiddle.difficulty := None;
     updateRiddle.category := None;
     updateRiddle.language := None;
     updateRiddle.collectionId := Some c;
     updateRiddle.isFavorite := None;
     updateRiddle.isPublic := None |}.

Definition list_input (category : option string) (pageSize : Z)
  : listMyRiddles.input :=
  {| listMyRiddles.collectionId := None;
     listMyRiddles.favoritesOnly := None;
     listMyRiddles.difficulty := None;
     listMyRiddles.category := category;
     listMyRiddles.page := 1;
     listMyRiddles.pageSize := pageSize |}.

(** ** Rows across a call *)

(** The rows that are not [u]'s. *)
Definition collections_of_others (u : string) (d : Database)
  : list RiddleCollections.row :=
  filter (fun c => negb (RiddleCollections.userId c =? u)) (collections d).

Definition riddles_of_others (u : string) (d : Database) : list Riddles.row :=
  filter (fun r => negb (Riddles.userId r =? u)) (riddles d).

(** Row [r'] is row [r] after some updates: the columns no handler assigns
    are equal. *)
Definition same_collection (r r' : RiddleCollections.row) : Prop :=
  RiddleCollections.id r' = RiddleCollections.id r /\
  RiddleCollections.userId r' = RiddleCollections.userId r /\
  RiddleCollections.createdAt r' = RiddleCollections.createdAt r.

Definition same_riddle (r r' : Riddles.row) : Prop :=
  Riddles.id r' = Riddles.id r /\
  Riddles.userId r' = Riddles.userId r /\
  Riddles.createdAt r' = Riddles.createdAt r.

(** A row written by this call: it carries the identifier drawn and the
    caller as owner. *)
Definition drawn_by (context : ActionAPIContext) (env : Ambient)
    (key owner : string) : Prop :=
  key = randomUUID env /\
  exists u, caller context = Some u /\ owner = User.id u.

(** [id] is the primary key of [Riddles]. *)
Definition riddle_keys (d : Database) : Prop :=
  NoDup (map Riddles.id (riddles d)).

Definition uuid_riddle_keys (d : Database) : Prop :=
  forall r, In r (riddles d) -> uuid_shaped (Riddles.id r).

(** What one call does to the [Riddles] table: nothing, one update or one
    deletion of rows of the caller, or one insertion of a row of the caller
    under a fresh key. *)
Inductive riddles_change (context : ActionAPIContext) (env : Ambient)
    (l l' : list Riddles.row) : Prop :=
| riddles_kept : l' = l -> riddles_change context env l l'
| riddles_updated p c u :
    l' = update_where (Riddles.assign p) c l ->
    caller context = Some u ->
    (forall r, c r = true -> Riddles.userId r = User.id u) ->
    riddles_change context env l l'
| riddles_deleted c u :
    l' = delete_where c l ->
    caller context = Some u ->
    (forall r, c r = true -> Riddles.userId r = User.id u) ->
    riddles_change context env l l'
| riddles_inserted r :
    l' = l ++ [r] ->
    drawn_by context env (Riddles.id r) (Riddles.userId r) ->
    existsb (fun x => Riddles.id x =? Riddles.id r) l = false ->
    riddles_change context env l l'.

(** ** What a call has issued *)

(** The statements [d'] has in its journal beyond those of [d]. *)
Definition issued_between (d d' : Database) (js : list Statement) : Prop :=
  journal d' = journal d ++ js.

(** From [d] to [d'] only [SELECT] statements were issued and the tables
    are the same. *)
Definition only_reads (d d' : Database) : Prop :=
  same_tables d d' /\
  exists js, issued_between d d' js /\ Forall (fun st => fst st = SELECT) js.

(** The riddles of [u] that reference collection [x]. *)
Definition in_collection_of (x u : string) (r : Riddles.row) : bool :=
  references x r && (Riddles.userId r =? u).

(** A database, not a reachable one, in which a riddle of user B references
    the collection of user A. *)
Definition with_alien (fk : bool) : Database :=
  {| foreign_keys := fk;
     collections := [logic_row];
     riddles :=
       [piano_row;
        new_riddle (piano_input (Some uuid1)) {| User.id := "B" |}
          (at_ 25%Z uuid3)];
     journal := [] |}.

(** ** Rows as the handlers write them *)

(** Riddle [r] holds what input [i] supplies, [false] for a flag left out,
    the identifier drawn, the caller as owner and the time of the call as
    both timestamps. *)
Definition riddle_written (i : createRiddle.input) (u : string)
    (env : Ambient) (r : Riddles.row) : Prop :=
  Riddles.id r = randomUUID env /\
  Riddles.userId r = u /\
  Riddles.collectionId r = createRiddle.collectionId i /\
  Riddles.question r = createRiddle.question i /\
  Riddles.answer r = createRiddle.answer i /\
  Riddles.hint r = createRiddle.hint i /\
  Riddles.difficulty r
  = match createRiddle.difficulty i with
    | Some l => Some (Difficulty_text l)
    | None => None
    end /\
  Riddles.category r = createRiddle.category i /\
  Riddles.language r = createRiddle.language i /\
  Riddles.isFavorite r
  = match createRiddle.isFavorite i with Some b => b | None => false end /\
  Riddles.isPublic r
  = match createRiddle.isPublic i with Some b => b | None => false end /\
  Riddles.createdAt r = now env /\
  Riddles.updatedAt r = now env.

Definition collection_written (i : createRiddleCollection.input) (u : string)
    (env : Ambient) (r : RiddleCollections.row) : Prop :=
  RiddleCollections.id r = randomUUID env /\
  RiddleCollections.userId r = u /\
  RiddleCollections.name r = createRiddleCollection.name i /\
  RiddleCollections.description r = createRiddleCollection.description i /\
  RiddleCollections.icon r = createRiddleCollection.icon i /\
  RiddleCollections.isDefault r
  = match createRiddleCollection.isDefault i with
    | Some b => b
    | None => false
    end /\
  RiddleCollections.createdAt r = now env /\
  RiddleCollections.updatedAt r = now env.

(** Collection [q] with [isDefault] false and [updatedAt] set to [t], every
    other column as it was. *)
Definition no_longer_default (t : Date) (q : RiddleCollections.row)
  : RiddleCollections.row :=
  {| RiddleCollections.id := RiddleCollections.id q;
     RiddleCollections.userId := RiddleCollections.userId q;
     RiddleCollections.name := RiddleCollections.name q;
     RiddleCollections.description := RiddleCollections.description q;
     RiddleCollections.icon := RiddleCollections.icon q;
     RiddleCollections.isDefault := false;
     RiddleCollections.createdAt := RiddleCollections.createdAt q;
     RiddleCollections.updatedAt := t |}.

(** What a call with [isDefault: true] (when [asked]) does to a collection it
    does not name: the collections of the caller lose the default. *)
Definition sibling_after (asked : option bool) (u : string) (t : Date)
    (q : RiddleCollections.row) : RiddleCollections.row :=
  match asked with
  | Some true =>
      if RiddleCollections.userId q =? u then no_longer_default t q else q
  | _ => q
  end.

(** ** Pages one after the other *)

(** Input [i] asking for page [p]. *)
Definition on_page (p : Z) (i : listMyRiddles.input) : listMyRiddles.input :=
  {| listMyRiddles.collectionId := listMyRiddles.collectionId i;
     listMyRiddles.favoritesOnly := listMyRiddles.favoritesOnly i;
     listMyRiddles.difficulty := listMyRiddles.difficulty i;
     listMyRiddles.category := listMyRiddles.category i;
     listMyRiddles.page := p;
     listMyRiddles.pageSize := listMyRiddles.pageSize i |}.

(** The [items] that [listMyRiddles] returns, none if it throws. *)
Definition listed_riddles (i : listMyRiddles.input)
    (context : ActionAPIContext) (env : Ambient) (d : Database)
  : list Riddles.row :=
  match fst (listMyRiddles.handler i context env d) with
  | Returns pg => items pg
  | Throws _ => []
  end.

(** ** Parsed inputs *)

(** What the schemas guarantee of an input that parses. *)
Definition well_formed (c : Call) : Prop :=
  match c with
  | call_createRiddleCollection i => createRiddleCollection.name i <> ""
  | call_updateRiddleCollection i =>
      updateRiddleCollection.id i <> "" /\
      updateRiddleCollection.name i <> Some ""
  | call_deleteRiddleCollection i => deleteRiddleCollection.id i <> ""
  | call_createRiddle i =>
      createRiddle.question i <> "" /\ createRiddle.answer i <> ""
  | call_updateRiddle i =>
      updateRiddle.id i <> "" /\
      updateRiddle.question i <> Some "" /\
      updateRiddle.answer i <> Some ""
  | call_deleteRiddle i => deleteRiddle.id i <> ""
  | call_listMyCollections i =>
      (1 <= listMyCollections.page i)%Z /\
      (1 <= listMyCollections.pageSize i <= 100)%Z
  | call_listMyRiddles i =>
      (1 <= listMyRiddles.page i)%Z /\
      (1 <= listMyRiddles.pageSize i <= 100)%Z
  end.

(** How a [collectionId] field reads: absent, [null] or a string. *)
Definition reads_as (v : option Json) (c : option (option string)) : Prop :=
  match v with
  | None => c = None
  | Some JNull => c = Some None
  | Some (JString s) => c = Some (Some s)
  | Some _ => False
  end.

(** A collection of user A that is not her default. *)
Definition maths_input : createRiddleCollection.input :=
  {| createRiddleCollection.name := "Maths";
     createRiddleCollection.description := None;
     createRiddleCollection.icon := None;
     createRiddleCollection.isDefault := None |}.

Definition maths_row : RiddleCollections.row :=
  new_collection maths_input {| User.id := "A" |} (at_ 20%Z uuid2).

Definition with_maths (fk : bool) : Database :=
  snd (createRiddleCollection.handler maths_input (signed_in "A")
         (at_ 20%Z uuid2) (with_logic fk)).

(** ** Raw inputs *)

(** The object without its field [k]. *)
Definition without (k : string) (raw : Fields) : Fields :=
  filter (fun kv => negb (fst kv =? k)) raw.

(** [{ ...raw, k: v }] *)
Definition with_field (k : string) (v : Json) (raw : Fields) : Fields :=
  (k, v) :: without k raw.

Definition text_or_absent (v : option Json) : Prop :=
  match v with None | Some (JString _) => True | _ => False end.

Definition flag_or_absent (v : option Json) : Prop :=
  match v with None | Some (JBool _) => True | _ => False end.

Definition difficulty_or_absent (v : option Json) : Prop :=
  v = None \/ v = Some (JString "easy") \/ v = Some (JString "medium")
  \/ v = Some (JString "hard").

(** The four filters of [listMyRiddles], each left out or of its type. *)
Definition valid_filters (raw : Fields) : Prop :=
  text_or_absent (field "collectionId" raw) /\
  flag_or_absent (field "favoritesOnly" raw) /\
  difficulty_or_absent (field "difficulty" raw) /\
  text_or_absent (field "category" raw).

(** A value that is neither a string nor [null]. *)
Definition other_value (v : Json) : Prop :=
  match v with JString _ | JNull => False | _ => True end.

(** * Proofs *)

(** ** The caller *)

Lemma requireUser_run context d :
  requireUser context d =
  match caller context with
  | Some u => (Returns u, d)
  | None => (Throws (ActionError UNAUTHORIZED), d)
  end.
Proof.
  unfold requireUser, caller.
  destruct (locals context) as [l|]; [destruct (user l)|]; reflexivity.
Qed.

Lemma bind_requireUser A (k : User.t -> Action A) context d :
  bind (requireUser context) k d =
  match caller context with
  | Some u => k u d
  | None => (Throws (ActionError UNAUTHORIZED), d)
  end.
Proof.
  unfold bind. rewrite requireUser_run.
  destruct (caller context); reflexivity.
Qed.

Lemma same_tables_refl d : same_tables d d.
Proof. repeat split. Qed.

Lemma same_tables_issued st d : same_tables d (issued st d).
Proof. repeat split. Qed.

Lemma same_tables_trans d1 d2 d3 :
  same_tables d1 d2 -> same_tables d2 d3 -> same_tables d1 d3.
Proof.
  unfold same_tables. intros (A1 & A2 & A3) (B1 & B2 & B3).
  repeat split; congruence.
Qed.

Create HintDb riddle.
#[global] Hint Resolve same_tables_refl same_tables_issued : riddle.

(** ** Conditions on one row *)

Lemma eqb_text_iff (a b : string) : sql_eqb a b = true <-> a = b.
Proof. apply String.eqb_eq. Qed.

Lemma eqb_nullable_iff (a : option string) (b : string) :
  sql_eqb a b = true <-> a = Some b.
Proof.
  destruct a as [x|]; cbn.
  - rewrite String.eqb_eq. split; congruence.
  - split; discriminate.
Qed.

(** The condition every single-row handler filters by:
    [and(eq(T.id, id), eq(T.userId, user.id))]. *)
Lemma owned_collection_iff x u (r : RiddleCollections.row) :
  and_ [eq RiddleCollections.id x; eq RiddleCollections.userId u] r = true <->
  RiddleCollections.id r = x /\ RiddleCollections.userId r = u.
Proof.
  unfold and_, eq. cbn. rewrite andb_true_r, andb_true_iff.
  now rewrite !eqb_text_iff.
Qed.

Lemma owned_riddle_iff x u (r : Riddles.row) :
  and_ [eq Riddles.id x; eq Riddles.userId u] r = true <->
  Riddles.id r = x /\ Riddles.userId r = u.
Proof.
  unfold and_, eq. cbn. rewrite andb_true_r, andb_true_iff.
  now rewrite !eqb_text_iff.
Qed.

Lemma attached_riddle_iff x u (r : Riddles.row) :
  and_ [eq Riddles.collectionId x; eq Riddles.userId u] r = true <->
  Riddles.collectionId r = Some x /\ Riddles.userId r = u.
Proof.
  unfold and_, eq. cbn -[sql_eqb]. rewrite andb_true_r, andb_true_iff.
  now rewrite eqb_nullable_iff, eqb_text_iff.
Qed.

Lemma hd_error_filter_none A (c : A -> bool) l :
  hd_error (filter c l) = None <-> (forall r, In r l -> c r = false).
Proof.
  induction l as [|a l IH]; cbn.
  - split; [intros _ r []|reflexivity].
  - destruct (c a) eqn:E; cbn.
    + split; [discriminate|]. intros H. specialize (H a (or_introl eq_refl)).
      congruence.
    + rewrite IH. split.
      * intros H r [<-|Hr]; auto.
      * intros H r Hr. apply H. now right.
Qed.

Lemma hd_error_filter_some A (c : A -> bool) l r :
  hd_error (filter c l) = Some r -> In r l /\ c r = true.
Proof.
  intros H. assert (In r (filter c l)) as Hin.
  { destruct (filter c l); [discriminate|]. injection H as ->. now left. }
  now apply filter_In in Hin.
Qed.

(** ** Every handler starts with [requireUser] *)

Lemma fmap_run A B (f : A -> B) (m : Action A) d :
  fmap f m d =
  match m d with
  | (Returns a, d') => (Returns (f a), d')
  | (Throws e, d') => (Throws e, d')
  end.
Proof. reflexivity. Qed.

Ltac start_handler :=
  try (unfold handler; rewrite fmap_run);
  cbv beta delta [
    createRiddleCollection.handler updateRiddleCollection.handler
    deleteRiddleCollection.handler createRiddle.handler updateRiddle.handler
    deleteRiddle.handler listMyCollections.handler listMyRiddles.handler];
  rewrite bind_requireUser.

Lemma handler_unauthorized c context env d :
  caller context = None ->
  handler c context env d = (Throws (ActionError UNAUTHORIZED), d).
Proof.
  intros H. destruct c; start_handler; rewrite H; reflexivity.
Qed.

(** ** What each handler computes for a signed-in caller *)

Lemma createRiddleCollection_run i context env d u :
  caller context = Some u ->
  createRiddleCollection.handler i context env d =
  first_row
    (db.insert_RiddleCollections (new_collection i u env)
       (if truthy_flag (createRiddleCollection.isDefault i)
        then snd (db.update_RiddleCollections (clear_default (now env))
                    (eq RiddleCollections.userId (User.id u)) d)
        else d)).
Proof.
  intros H. start_handler. rewrite H.
  unfold bind, when, ret, first_row, new_collection,
    db.update_RiddleCollections, clear_default.
  destruct (truthy_flag _); cbn [fst snd];
    destruct (db.insert_RiddleCollections _ _) as [[l|e] d2]; reflexivity.
Qed.

Lemma updateRiddleCollection_run i context env d u :
  caller context = Some u ->
  let own := owns_collection (updateRiddleCollection.id i) (User.id u) in
  updateRiddleCollection.handler i context env d =
  match hd_error (filter own (collections d)) with
  | None => (Throws (ActionError NOT_FOUND), issued (SELECT, tRiddleCollections) d)
  | Some _ =>
      first_row
        (db.update_RiddleCollections
           (updateRiddleCollection.updateData i (now env)) own
           (if truthy_flag (updateRiddleCollection.isDefault i)
            then snd (db.update_RiddleCollections (clear_default (now env))
                        (eq RiddleCollections.userId (User.id u))
                        (issued (SELECT, tRiddleCollections) d))
            else issued (SELECT, tRiddleCollections) d))
  end.
Proof.
  intros H own. start_handler. rewrite H.
  unfold bind at 1. unfold db.select_RiddleCollections at 1.
  subst own. unfold owns_collection.
  destruct (hd_error (filter _ (collections d))); [|reflexivity].
  unfold bind, when, ret, first_row.
  destruct (truthy_flag _); reflexivity.
Qed.

Lemma detach_never_refused now c d :
  existsb (dangling d) (map (Riddles.assign (detach now)) (filter c (riddles d)))
  = false.
Proof.
  induction (filter c (riddles d)) as [|r l IH]; [reflexivity|].
  cbn [map existsb]. rewrite IH. reflexivity.
Qed.

Lemma update_Riddles_detach now c d :
  db.update_Riddles (detach now) c d =
  (Returns (map (Riddles.assign (detach now)) (filter c (riddles d))),
   with_riddles (update_where (Riddles.assign (detach now)) c (riddles d))
     (issued (UPDATE, tRiddles) d)).
Proof.
  unfold db.update_Riddles. cbv zeta.
  rewrite (detach_never_refused now c (issued (UPDATE, tRiddles) d)).
  rewrite andb_false_r. reflexivity.
Qed.

Lemma deleteRiddleCollection_run i context env d u :
  caller context = Some u ->
  let own := owns_collection (deleteRiddleCollection.id i) (User.id u) in
  deleteRiddleCollection.handler i context env d =
  match hd_error (filter own (collections d)) with
  | None => (Throws (ActionError NOT_FOUND), issued (SELECT, tRiddleCollections) d)
  | Some _ =>
      db.delete_RiddleCollections own
        (snd (db.update_Riddles (detach (now env))
                (attached_to (deleteRiddleCollection.id i) (User.id u))
                (issued (SELECT, tRiddleCollections) d)))
  end.
Proof.
  intros H own. start_handler. rewrite H.
  unfold bind at 1. unfold db.select_RiddleCollections at 1.
  subst own. unfold owns_collection.
  destruct (hd_error (filter _ (collections d))); [|reflexivity].
  unfold bind.
  change (db.update_Riddles _ _ ?x)
    with (db.update_Riddles (detach (now env))
            (attached_to (deleteRiddleCollection.id i) (User.id u)) x).
  rewrite update_Riddles_detach. reflexivity.
Qed.

Lemma createRiddle_run i context env d u :
  caller context = Some u ->
  createRiddle.handler i context env d =
  if truthy_text (createRiddle.collectionId i) then
    match hd_error
            (filter (owns_collection
                       (nullish (createRiddle.collectionId i) "") (User.id u))
               (collections d)) with
    | None => (Throws (ActionError FORBIDDEN),
               issued (SELECT, tRiddleCollections) d)
    | Some _ =>
        first_row (db.insert_Riddles (new_riddle i u env)
                     (issued (SELECT, tRiddleCollections) d))
    end
  else first_row (db.insert_Riddles (new_riddle i u env) d).
Proof.
  intros H. start_handler. rewrite H.
  unfold bind, when, ret, throw, first_row, new_riddle, owns_collection,
    db.select_RiddleCollections.
  destruct (truthy_text _).
  - destruct (hd_error (filter _ (collections d))); [|reflexivity].
    destruct (db.insert_Riddles _ _) as [[l|e] d2]; reflexivity.
  - destruct (db.insert_Riddles _ _) as [[l|e] d2]; reflexivity.
Qed.

Lemma updateRiddle_run i context env d u :
  caller context = Some u ->
  let d1 := issued (SELECT, tRiddles) d in
  let write d2 :=
    first_row
      (db.update_Riddles (updateRiddle.updateData i (now env))
         (owns_riddle (updateRiddle.id i) (User.id u)) d2) in
  updateRiddle.handler i context env d =
  match hd_error
          (filter (owns_riddle (updateRiddle.id i) (User.id u)) (riddles d))
  with
  | None => (Throws (ActionError NOT_FOUND), d1)
  | Some _ =>
      if updateRiddle.checks_collection i then
        match hd_error
                (filter (owns_collection
                           (nullish (nullish (updateRiddle.collectionId i) None) "")
                           (User.id u))
                   (collections d)) with
        | None => (Throws (ActionError FORBIDDEN),
                   issued (SELECT, tRiddleCollections) d1)
        | Some _ => write (issued (SELECT, tRiddleCollections) d1)
        end
      else write d1
  end.
Proof.
  intros H d1 write. start_handler. rewrite H.
  subst d1 write.
  unfold bind, when, ret, throw, first_row, owns_collection, owns_riddle,
    db.select_RiddleCollections, db.select_Riddles.
  destruct (hd_error (filter _ (riddles d))); [|reflexivity].
  destruct (updateRiddle.checks_collection i).
  - cbn [collections issued].
    destruct (hd_error (filter _ (collections d))); [|reflexivity].
    destruct (db.update_Riddles _ _ _) as [[l|e] d2]; reflexivity.
  - destruct (db.update_Riddles _ _ _) as [[l|e] d2]; reflexivity.
Qed.

Lemma deleteRiddle_run i context env d u :
  caller context = Some u ->
  deleteRiddle.handler i context env d =
  match hd_error
          (filter (owns_riddle (deleteRiddle.id i) (User.id u)) (riddles d))
  with
  | None => (Throws (ActionError NOT_FOUND), issued (SELECT, tRiddles) d)
  | Some _ =>
      db.delete_Riddles (owns_riddle (deleteRiddle.id i) (User.id u))
        (issued (SELECT, tRiddles) d)
  end.
Proof.
  intros H. start_handler. rewrite H.
  unfold bind, throw, owns_riddle, db.select_Riddles.
  destruct (hd_error (filter _ (riddles d))); reflexivity.
Qed.

Lemma listMyCollections_run i context env d u :
  caller context = Some u ->
  listMyCollections.handler i context env d =
  page_of
    (db.paged (SELECT, tRiddleCollections)
       (filter (eq RiddleCollections.userId (User.id u)) (collections d))
       (listMyCollections.pageSize i)
       (js_mul (js_sub (listMyCollections.page i) 1)
          (listMyCollections.pageSize i)) d).
Proof.
  intros H. start_handler. rewrite H.
  unfold bind, db.page_RiddleCollections, page_of, ret.
  now destruct (db.paged _ _ _ _ d) as [[l|e] d'].
Qed.

Lemma listMyRiddles_run i context env d u :
  caller context = Some u ->
  listMyRiddles.handler i context env d =
  page_of
    (db.paged (SELECT, tRiddles)
       (match listMyRiddles.whereClause i u with
        | Some c => filter c (riddles d)
        | None => riddles d
        end)
       (listMyRiddles.pageSize i)
       (js_mul (js_sub (listMyRiddles.page i) 1) (listMyRiddles.pageSize i))
       d).
Proof.
  intros H. start_handler. rewrite H.
  unfold bind, db.page_Riddles, page_of, ret. cbv zeta.
  now destruct (db.paged _ _ _ _ d) as [[l|e] d'].
Qed.

(** ** Numbers as JavaScript computes them *)

Lemma js_round_safe z : (Z.abs z <= MAX_SAFE_INTEGER)%Z -> js_round z = z.
Proof.
  unfold MAX_SAFE_INTEGER, js_round. intros H.
  destruct (Z.ltb_spec (Z.abs z) (2 ^ 53)); [reflexivity|lia].
Qed.

(** A whole number of 54 bits or more, cut after its 53 leading bits. *)
Lemma js_round_parts z :
  (2 ^ 53 <= z)%Z ->
  let e := (Z.log2 z - 52)%Z in
  (1 <= e /\ 0 < 2 ^ e /\ 2 ^ (Z.log2 z) = 2 ^ 52 * 2 ^ e /\
   2 ^ e = 2 * 2 ^ (e - 1) /\
   z = z / 2 ^ e * 2 ^ e + z mod 2 ^ e /\
   0 <= z mod 2 ^ e < 2 ^ e /\
   2 ^ 52 <= z / 2 ^ e < 2 ^ 53)%Z /\
  exists up : bool,
    js_round z = ((if up then z / 2 ^ e + 1 else z / 2 ^ e) * 2 ^ e)%Z /\
    (up = false -> (z mod 2 ^ e <= 2 ^ (e - 1))%Z).
Proof.
  intros Hz e.
  assert (0 < z)%Z as Hpos by lia.
  assert (53 <= Z.log2 z)%Z as Hl by (apply Z.log2_le_pow2; lia).
  pose proof (Z.log2_spec z Hpos) as [L1 L2].
  assert (1 <= e)%Z as He by (unfold e; lia).
  assert (0 < 2 ^ e)%Z as Hpe by (apply Z.pow_pos_nonneg; lia).
  assert (2 ^ (Z.log2 z) = 2 ^ 52 * 2 ^ e)%Z as E1.
  { rewrite <- Z.pow_add_r by lia. f_equal. unfold e. lia. }
  assert (2 ^ Z.succ (Z.log2 z) = 2 ^ 53 * 2 ^ e)%Z as E2.
  { rewrite <- Z.pow_add_r by lia. f_equal. unfold e. lia. }
  assert (2 ^ e = 2 * 2 ^ (e - 1))%Z as E3.
  { replace e with (1 + (e - 1))%Z at 1 by lia.
    rewrite Z.pow_add_r by lia. reflexivity. }
  pose proof (Z.div_mod z (2 ^ e) ltac:(lia)) as D.
  pose proof (Z.mod_pos_bound z (2 ^ e) Hpe) as M.
  assert (2 ^ 52 <= z / 2 ^ e < 2 ^ 53)%Z as Q.
  { split.
    - apply Z.div_le_lower_bound; lia.
    - apply Z.div_lt_upper_bound; lia. }
  split; [repeat (split; [first [assumption|lia]|]); first [assumption|lia]|].
  unfold js_round. rewrite Z.abs_eq by lia.
  destruct (Z.ltb_spec z (2 ^ 53)); [lia|]. cbv zeta. fold e.
  rewrite Z.sgn_pos by lia. rewrite Z.mul_1_l.
  exists ((2 ^ (e - 1) <? z mod 2 ^ e)%Z
          || (2 ^ (e - 1) =? z mod 2 ^ e)%Z && Z.odd (z / 2 ^ e)).
  split; [reflexivity|].
  intros U. apply orb_false_iff in U as [U _].
  apply Z.ltb_ge in U. exact U.
Qed.

(** Rounding does not go below the power of two under the number. *)
Lemma js_round_ge k z :
  (53 <= k)%Z -> (2 ^ k <= z)%Z -> (2 ^ k <= js_round z)%Z.
Proof.
  intros Hk Hz.
  assert (2 ^ 53 <= 2 ^ k)%Z by (apply Z.pow_le_mono_r; lia).
  assert (k <= Z.log2 z)%Z by (apply Z.log2_le_pow2; lia).
  assert (2 ^ k <= 2 ^ Z.log2 z)%Z by (apply Z.pow_le_mono_r; lia).
  destruct (@js_round_parts z ltac:(lia))
    as ((He & Hpe & E1 & E3 & D & M & Q) & up & -> & _).
  rewrite E1 in *. destruct up; nia.
Qed.


(** The offset of a page is exact as long as it is a safe integer. *)
Lemma js_offset_safe p s :
  (1 <= p)%Z -> (1 <= s)%Z -> ((p - 1) * s <= MAX_SAFE_INTEGER)%Z ->
  js_mul (js_sub p 1) s = ((p - 1) * s)%Z.
Proof.
  intros Hp Hs H. unfold js_mul, js_sub.
  rewrite (@js_round_safe (p - 1)) by nia.
  apply js_round_safe. nia.
Qed.

(** Past the safe integers the offset stays past them. *)
Lemma js_offset_large p s :
  (1 <= p)%Z -> (1 <= s)%Z -> (MAX_SAFE_INTEGER < (p - 1) * s)%Z ->
  (MAX_SAFE_INTEGER < js_mul (js_sub p 1) s)%Z.
Proof.
  unfold MAX_SAFE_INTEGER. intros Hp Hs H. unfold js_mul, js_sub.
  assert (2 ^ 53 <= js_round (p - 1) * s)%Z as H1.
  { destruct (Z.le_gt_cases (2 ^ 53) (p - 1)) as [L|L].
    - pose proof (@js_round_ge 53 (p - 1) ltac:(lia) L). nia.
    - rewrite (@js_round_safe (p - 1)) by (unfold MAX_SAFE_INTEGER; lia).
      lia. }
  pose proof (@js_round_ge 53 _ ltac:(lia) H1). lia.
Qed.


(** ** What a paged [SELECT] gives *)

Lemma paged_cases A st (matching : list A) n k d :
  db.paged st matching n k d = (Throws RangeError, d) \/
  db.paged st matching n k d = (Throws SQLITE_MISMATCH, issued st d) \/
  (int64 n = true /\ int64 k = true /\
   db.paged st matching n k d
   = (Returns (limit_offset n k matching), issued st d)).
Proof.
  unfold db.paged.
  destruct (js_finite n && js_finite k); [|now left].
  destruct (int64 n) eqn:En, (int64 k) eqn:Ek; cbn [andb]; auto.
Qed.

Lemma paged_same_tables A st (matching : list A) n k d :
  same_tables d (snd (page_of (db.paged st matching n k d))).
Proof.
  destruct (paged_cases st matching n k d) as [->|[->|(_ & _ & ->)]];
    cbn [page_of snd]; auto with riddle.
Qed.

Lemma paged_journal A st (matching : list A) n k d :
  let d' := snd (page_of (db.paged st matching n k d)) in
  journal d' = journal d \/ journal d' = journal d ++ [st].
Proof.
  destruct (paged_cases st matching n k d) as [->|[->|(_ & _ & ->)]];
    cbn [page_of snd]; auto.
Qed.

Lemma paged_returns A st (matching : list A) n k d pg d' :
  page_of (db.paged st matching n k d) = (Returns pg, d') ->
  pg = {| items := limit_offset n k matching;
          total := length (limit_offset n k matching) |} /\
  d' = issued st d.
Proof.
  destruct (paged_cases st matching n k d) as [->|[->|(_ & _ & ->)]];
    cbn [page_of]; [discriminate|discriminate|].
  now intros [= <- <-].
Qed.

Lemma paged_never_action_error A st (matching : list A) n k d code d' :
  page_of (db.paged st matching n k d) <> (Throws (ActionError code), d').
Proof.
  destruct (paged_cases st matching n k d) as [->|[->|(_ & _ & ->)]];
    cbn [page_of]; discriminate.
Qed.

Lemma int64_safe z :
  (0 <= z <= MAX_SAFE_INTEGER)%Z -> js_finite z = true /\ int64 z = true.
Proof.
  unfold MAX_SAFE_INTEGER, js_finite, int64. intros H.
  assert (2 ^ 53 <= 2 ^ 63)%Z by (apply Z.pow_le_mono_r; lia).
  assert (2 ^ 63 <= 2 ^ 1024)%Z by (apply Z.pow_le_mono_r; lia).
  assert (0 < 2 ^ 53)%Z by (apply Z.pow_pos_nonneg; lia).
  split.
  - apply Z.ltb_lt. lia.
  - apply andb_true_iff. split; apply Z.ltb_lt; lia.
Qed.

(** A window of safe integers is accepted, and it is the window asked for. *)
Lemma paged_safe A st (matching : list A) p s d :
  (1 <= p)%Z -> (1 <= s <= MAX_SAFE_INTEGER)%Z ->
  ((p - 1) * s <= MAX_SAFE_INTEGER)%Z ->
  db.paged st matching s (js_mul (js_sub p 1) s) d
  = (Returns (limit_offset s ((p - 1) * s) matching), issued st d).
Proof.
  intros Hp Hs H. rewrite js_offset_safe by lia. unfold db.paged.
  destruct (@int64_safe s ltac:(lia)) as [-> ->].
  destruct (@int64_safe ((p - 1) * s) ltac:(nia)) as [-> ->].
  reflexivity.
Qed.


(** ** Rows owned by a caller *)

Lemma no_collection_of_filter u x d :
  no_collection_of u x d ->
  hd_error (filter (owns_collection x u) (collections d)) = None.
Proof.
  intros H. apply hd_error_filter_none. intros r Hr.
  destruct (owns_collection x u r) eqn:E; [|reflexivity].
  apply owned_collection_iff in E. now apply H in Hr.
Qed.

Lemma no_riddle_of_filter u x d :
  no_riddle_of u x d ->
  hd_error (filter (owns_riddle x u) (riddles d)) = None.
Proof.
  intros H. apply hd_error_filter_none. intros r Hr.
  destruct (owns_riddle x u r) eqn:E; [|reflexivity].
  apply owned_riddle_iff in E. now apply H in Hr.
Qed.

(** ** C9: no caller, no data access *)

(** C9.  Whatever the action and its input, a call from a context without a
    signed-in user throws [UNAUTHORIZED] and leaves the database as it was,
    journal included: no statement is issued.  Through [server], where the
    input is parsed first, the database is untouched as well. *)
Theorem unauthenticated_call_touches_nothing context :
  caller context = None ->
  (forall c env d,
     handler c context env d = (Throws (ActionError UNAUTHORIZED), d)) /\
  (forall n raw env d c,
     schema n raw = Some c ->
     server n raw context env d = (Throws (ActionError UNAUTHORIZED), d)) /\
  (forall n raw env d, snd (server n raw context env d) = d).
Proof.
  intros H. split; [|split].
  - intros. now apply handler_unauthorized.
  - intros n raw env d c Hc. unfold server, defineAction. rewrite Hc.
    now apply handler_unauthorized.
  - intros n raw env d. unfold server, defineAction.
    destruct (schema n raw) as [c|]; [|reflexivity].
    now rewrite handler_unauthorized.
Qed.

Lemma unauthenticated_call_touches_nothing_witness :
  caller anonymous = None /\
  server DeleteRiddle [("id", JString uuid1)] anonymous (at_ 5%Z uuid2)
    (empty true)
  = (Throws (ActionError UNAUTHORIZED), empty true).
Proof.
  split; [reflexivity|].
  apply (proj1 (proj2 (unauthenticated_call_touches_nothing anonymous eq_refl))
           DeleteRiddle [("id", JString uuid1)] (at_ 5%Z uuid2) (empty true)
           (call_deleteRiddle {| deleteRiddle.id := uuid1 |})).
  reflexivity.
Defined.

(** ** C10: the listings only read *)

(** C10.  [listMyCollections] and [listMyRiddles] leave both tables as they
    were, for every input and every context, and the only statement they can
    add to the journal is one [SELECT]. *)
Theorem listing_is_read_only context env d :
  (forall i,
     let d' := snd (listMyCollections.handler i context env d) in
     same_tables d d' /\
     (journal d' = journal d \/
      journal d' = journal d ++ [(SELECT, tRiddleCollections)])) /\
  (forall i,
     let d' := snd (listMyRiddles.handler i context env d) in
     same_tables d d' /\
     (journal d' = journal d \/
      journal d' = journal d ++ [(SELECT, tRiddles)])).
Proof.
  split; intros i d'; subst d'.
  - destruct (caller context) as [u|] eqn:E.
    + rewrite listMyCollections_run with (u := u) by exact E.
      split; [apply paged_same_tables|apply paged_journal].
    + start_handler. rewrite E. cbn. auto with riddle.
  - destruct (caller context) as [u|] eqn:E.
    + rewrite listMyRiddles_run with (u := u) by exact E.
      split; [apply paged_same_tables|apply paged_journal].
    + start_handler. rewrite E. cbn. auto with riddle.
Qed.

(** ** C5: a row that is not the caller's is not found *)

(** C5.  For a signed-in caller and an [id] that names no collection of the
    caller (whether the row is absent or owned by someone else),
    [updateRiddleCollection] and [deleteRiddleCollection] throw
    [NOT_FOUND]; likewise [updateRiddle] and [deleteRiddle] for an [id] that
    names no riddle of the caller.  Both tables are left as they were. *)
Theorem not_owned_is_not_found context u env d :
  caller context = Some u ->
  (forall i,
     no_collection_of (User.id u) (updateRiddleCollection.id i) d ->
     exists d',
       updateRiddleCollection.handler i context env d
       = (Throws (ActionError NOT_FOUND), d') /\ same_tables d d') /\
  (forall i,
     no_collection_of (User.id u) (deleteRiddleCollection.id i) d ->
     exists d',
       deleteRiddleCollection.handler i context env d
       = (Throws (ActionError NOT_FOUND), d') /\ same_tables d d') /\
  (forall i,
     no_riddle_of (User.id u) (updateRiddle.id i) d ->
     exists d',
       updateRiddle.handler i context env d
       = (Throws (ActionError NOT_FOUND), d') /\ same_tables d d') /\
  (forall i,
     no_riddle_of (User.id u) (deleteRiddle.id i) d ->
     exists d',
       deleteRiddle.handler i context env d
       = (Throws (ActionError NOT_FOUND), d') /\ same_tables d d').
Proof.
  intros H. repeat split; intros i Hno; eexists.
  - rewrite updateRiddleCollection_run with (u := u) by exact H. cbv zeta.
    rewrite no_collection_of_filter by exact Hno. auto with riddle.
  - rewrite deleteRiddleCollection_run with (u := u) by exact H. cbv zeta.
    rewrite no_collection_of_filter by exact Hno. auto with riddle.
  - rewrite updateRiddle_run with (u := u) by exact H. cbv zeta.
    rewrite no_riddle_of_filter by exact Hno. auto with riddle.
  - rewrite deleteRiddle_run with (u := u) by exact H.
    rewrite no_riddle_of_filter by exact Hno. auto with riddle.
Qed.

Lemma not_owned_is_not_found_witness :
  caller (signed_in "B") = Some {| User.id := "B" |} /\
  no_collection_of "B" uuid1 (with_logic true) /\
  exists d',
    deleteRiddleCollection.handler {| deleteRiddleCollection.id := uuid1 |}
      (signed_in "B") (at_ 20%Z uuid2) (with_logic true)
    = (Throws (ActionError NOT_FOUND), d') /\
    same_tables (with_logic true) d'.
Proof.
  assert (no_collection_of "B" uuid1 (with_logic true)) as Hno.
  { intros r [<-|[]] [_ H]. discriminate H. }
  split; [reflexivity|]. split; [exact Hno|].
  exact (proj1 (proj2 (not_owned_is_not_found (signed_in "B")
                         (at_ 20%Z uuid2) (with_logic true) eq_refl))
           {| deleteRiddleCollection.id := uuid1 |} Hno).
Defined.

(** ** C8: the input is parsed before the handler runs *)

Ltac fails_to_parse :=
  repeat match goal with
         | |- context [match ?x with _ => _ end] => destruct x
         end; reflexivity.

Lemma malformed_does_not_parse n raw :
  malformed n raw -> schema n raw = None.
Proof.
  unfold empty_text.
  destruct 1 as [raw H|raw H|raw H|n raw Hn H|n raw s Hn H H1 H2 H3
                |n raw p Hn H Hp|n raw p Hn H Hp].
  - cbn. unfold createRiddleCollection.schema. rewrite H. reflexivity.
  - cbn. unfold createRiddle.schema. rewrite H. reflexivity.
  - cbn. unfold createRiddle.schema. rewrite H. cbn. fails_to_parse.
  - destruct n; try discriminate Hn; cbn;
      unfold updateRiddleCollection.schema, deleteRiddleCollection.schema,
        updateRiddle.schema, deleteRiddle.schema; rewrite H; reflexivity.
  - assert (z.optional z.enum (Some (JString s)) = None) as E.
    { cbn. apply String.eqb_neq in H1, H2, H3. now rewrite H1, H2, H3. }
    destruct n; try discriminate Hn; cbn;
      unfold createRiddle.schema, updateRiddle.schema, listMyRiddles.schema;
      rewrite H, E; fails_to_parse.
  - assert (z.default 1%Z (z.positive z.int) (Some (JNumber p)) = None) as E.
    { cbv [z.default z.positive z.int].
      destruct (Z.ltb_spec 0 p); [lia|reflexivity]. }
    destruct n; try discriminate Hn; cbn;
      unfold listMyCollections.schema, listMyRiddles.schema;
      rewrite H, E; fails_to_parse.
  - assert (z.default 20%Z (z.max 100 (z.positive z.int)) (Some (JNumber p))
            = None) as E.
    { cbv [z.default z.max z.positive z.int].
      destruct (Z.ltb_spec 0 p); [|reflexivity].
      destruct (Z.leb_spec p 100); [lia|reflexivity]. }
    destruct n; try discriminate Hn; cbn;
      unfold listMyCollections.schema, listMyRiddles.schema;
      rewrite H, E; fails_to_parse.
Qed.

Lemma page_field v p :
  z.default 1%Z (z.positive z.int) v = Some p ->
  (1 <= p)%Z /\ (v = None -> p = 1%Z).
Proof.
  cbv [z.default z.positive z.int].
  destruct v as [[| |n| |]|]; try discriminate.
  - destruct (Z.ltb_spec 0 n); [|discriminate].
    intros [= <-]. split; [lia|discriminate].
  - intros [= <-]. split; [lia|reflexivity].
Qed.

Lemma pageSize_field v s :
  z.default 20%Z (z.max 100 (z.positive z.int)) v = Some s ->
  (1 <= s <= 100)%Z /\ (v = None -> s = 20%Z).
Proof.
  cbv [z.default z.max z.positive z.int].
  destruct v as [[| |n| |]|]; try discriminate.
  - destruct (Z.ltb_spec 0 n); [|discriminate].
    destruct (Z.leb_spec n 100); [|discriminate].
    intros [= <-]. split; [lia|discriminate].
  - intros [= <-]. split; [lia|reflexivity].
Qed.

Lemma parsed_paging n raw c p s :
  schema n raw = Some c -> paging c = Some (p, s) ->
  (1 <= p)%Z /\ (1 <= s <= 100)%Z /\
  (field "page" raw = None -> p = 1%Z) /\
  (field "pageSize" raw = None -> s = 20%Z).
Proof.
  destruct n; cbn;
    match goal with
    | |- option_map _ ?x = _ -> _ =>
        destruct x as [i|] eqn:E; [|discriminate]
    end; intros [= <-]; try discriminate; cbn; intros [= <- <-].
  - unfold listMyCollections.schema in E.
    destruct (z.default 1%Z _ _) as [p|] eqn:Ep; [|discriminate].
    destruct (z.default 20%Z _ _) as [s|] eqn:Es; [|discriminate].
    injection E as <-. cbn.
    apply page_field in Ep. apply pageSize_field in Es. tauto.
  - unfold listMyRiddles.schema in E.
    destruct (z.optional z.string (field "collectionId" raw)); [|discriminate].
    destruct (z.optional z.boolean _); [|discriminate].
    destruct (z.optional z.enum _); [|discriminate].
    destruct (z.optional z.string (field "category" raw)); [|discriminate].
    destruct (z.default 1%Z _ _) as [p|] eqn:Ep; [|discriminate].
    destruct (z.default 20%Z _ _) as [s|] eqn:Es; [|discriminate].
    injection E as <-. cbn.
    apply page_field in Ep. apply pageSize_field in Es. tauto.
Qed.

(** C8.  A malformed input (an empty string for a required field, a
    difficulty that is not [easy], [medium] or [hard], a page below 1, a
    page size outside 1..100) is rejected with the database untouched, journal
    included, whoever calls: no handler logic and no statement runs.  A
    listing input that parses has its page at least 1 and its page size in
    1..100, and an omitted page or page size reads as 1 or 20.  An input
    that leaves out both is accepted, with page 1 and page size 20: by
    [listMyCollections] always, by [listMyRiddles] whenever each of its four
    filters is left out or of its type. *)
Theorem input_is_parsed_first :
  (forall n raw, malformed n raw ->
     forall context env d,
       server n raw context env d = (Throws ActionInputError, d)) /\
  (forall n raw c p s,
     schema n raw = Some c -> paging c = Some (p, s) ->
     (1 <= p)%Z /\ (1 <= s <= 100)%Z /\
     (field "page" raw = None -> p = 1%Z) /\
     (field "pageSize" raw = None -> s = 20%Z)) /\
  (forall raw,
     field "page" raw = None -> field "pageSize" raw = None ->
     listMyCollections.schema raw
     = Some {| listMyCollections.page := 1; listMyCollections.pageSize := 20 |}) /\
  (forall raw,
     valid_filters raw ->
     field "page" raw = None -> field "pageSize" raw = None ->
     exists i,
       listMyRiddles.schema raw = Some i /\
       listMyRiddles.page i = 1%Z /\ listMyRiddles.pageSize i = 20%Z).
Proof.
  split; [|split; [|split]].
  - intros n raw H context env d. unfold server, defineAction.
    now rewrite (malformed_does_not_parse H).
  - apply parsed_paging.
  - intros raw H1 H2. unfold listMyCollections.schema.
    now rewrite H1, H2.
  - intros raw (Hc & Hf & Hd & Hg) H1 H2. unfold listMyRiddles.schema.
    rewrite H1, H2.
    destruct (field "collectionId" raw) as [[| | |c|]|]; try contradiction;
      destruct (field "favoritesOnly" raw) as [[|f| | |]|]; try contradiction;
      destruct (field "category" raw) as [[| | |g|]|]; try contradiction;
      destruct Hd as [-> | [-> | [-> | ->]]];
      (eexists; split; [reflexivity|split; reflexivity]).
Qed.

Lemma input_is_parsed_first_witness :
  malformed ListMyRiddles [("pageSize", JNumber 101)] /\
  server ListMyRiddles [("pageSize", JNumber 101)] anonymous
    (at_ 20%Z uuid2) (with_logic true)
  = (Throws ActionInputError, with_logic true) /\
  valid_filters [("category", JString "wordplay")] /\
  exists i,
    listMyRiddles.schema [("category", JString "wordplay")] = Some i /\
    listMyRiddles.page i = 1%Z /\ listMyRiddles.pageSize i = 20%Z.
Proof.
  assert (malformed ListMyRiddles [("pageSize", JNumber 101)]) as H.
  { apply pageSize_out_of_range with (p := 101%Z);
      [reflexivity|reflexivity|right; reflexivity]. }
  assert (valid_filters [("category", JString "wordplay")]) as V.
  { repeat split. now left. }
  split; [exact H|]. split; [|split; [exact V|]].
  - exact (proj1 input_is_parsed_first ListMyRiddles
             [("pageSize", JNumber 101)] H anonymous (at_ 20%Z uuid2)
             (with_logic true)).
  - exact (proj2 (proj2 (proj2 input_is_parsed_first))
             [("category", JString "wordplay")] V eq_refl eq_refl).
Defined.

(** ** What a statement leaves behind *)

Lemma first_row_returns A (r : Outcome (list A) * Database) res d' :
  first_row r = (Returns res, d') ->
  exists l, r = (Returns l, d') /\ res = hd_error l.
Proof.
  destruct r as [[l|e] d2]; cbn; intros [= <- <-]; eauto.
Qed.

Lemma update_Riddles_returns p c d l d' :
  db.update_Riddles p c d = (Returns l, d') ->
  l = map (Riddles.assign p) (filter c (riddles d)) /\
  riddles d' = update_where (Riddles.assign p) c (riddles d) /\
  collections d' = collections d /\
  foreign_keys d' = foreign_keys d.
Proof.
  unfold db.update_Riddles. cbv zeta.
  destruct (_ && _ && _); [discriminate|].
  intros [= <- <-]. repeat split.
Qed.

Lemma update_Riddles_throws p c d e d' :
  db.update_Riddles p c d = (Throws e, d') -> same_tables d d'.
Proof.
  unfold db.update_Riddles. cbv zeta.
  destruct (_ && _ && _); [|discriminate].
  intros [= <- <-]. auto with riddle.
Qed.

Lemma filter_map_commute A (q : A -> bool) (g : A -> A) l :
  (forall r, q (g r) = q r) ->
  filter q (map g l) = map g (filter q l).
Proof.
  intros H. induction l as [|a l IH]; [reflexivity|].
  cbn. rewrite H. destruct (q a); cbn; now rewrite IH.
Qed.

Lemma In_update_where A (f : A -> A) (c : A -> bool) l r :
  In r l -> c r = true -> In (f r) (update_where f c l).
Proof.
  intros Hin Hc. unfold update_where.
  apply in_map_iff. exists r. now rewrite Hc.
Qed.

Lemma hd_error_map A B (f : A -> B) l :
  hd_error (map f l) = option_map f (hd_error l).
Proof. destruct l; reflexivity. Qed.

(** ** C6: a partial update changes the supplied fields only *)

Lemma assign_riddle_updated i t old :
  riddle_updated i t old (Riddles.assign (updateRiddle.updateData i t) old).
Proof.
  unfold riddle_updated, takes, Riddles.keep, nullish, option_map.
  destruct i; cbn.
  repeat split;
    repeat match goal with
           | |- context [match ?x with _ => _ end] => is_var x; destruct x
           end; reflexivity.
Qed.

Lemma updateRiddle_returns i context u env d res d' :
  caller context = Some u ->
  updateRiddle.handler i context env d = (Returns res, d') ->
  exists old,
    hd_error (filter (owns_riddle (updateRiddle.id i) (User.id u)) (riddles d))
    = Some old /\
    res = Some (Riddles.assign (updateRiddle.updateData i (now env)) old) /\
    riddles d' =
      update_where (Riddles.assign (updateRiddle.updateData i (now env)))
        (owns_riddle (updateRiddle.id i) (User.id u)) (riddles d) /\
    collections d' = collections d /\
    foreign_keys d' = foreign_keys d.
Proof.
  intros H. rewrite updateRiddle_run with (u := u) by exact H. cbv zeta.
  destruct (hd_error (filter _ (riddles d))) as [old|] eqn:Eold;
    [|discriminate].
  assert (forall d2, riddles d2 = riddles d -> collections d2 = collections d ->
            foreign_keys d2 = foreign_keys d ->
            first_row
              (db.update_Riddles (updateRiddle.updateData i (now env))
                 (owns_riddle (updateRiddle.id i) (User.id u)) d2)
            = (Returns res, d') ->
            exists old0, Some old = Some old0 /\
              res = Some (Riddles.assign (updateRiddle.updateData i (now env)) old0) /\
              riddles d' =
                update_where (Riddles.assign (updateRiddle.updateData i (now env)))
                  (owns_riddle (updateRiddle.id i) (User.id u)) (riddles d) /\
              collections d' = collections d /\
              foreign_keys d' = foreign_keys d) as Hwrite.
  { intros d2 E1 E2 E3 Hr.
    apply first_row_returns in Hr as (l & Hl & ->).
    apply update_Riddles_returns in Hl as (-> & Hr1 & Hr2 & Hr3).
    exists old. rewrite hd_error_map, E1, Eold.
    repeat split; congruence. }
  destruct (updateRiddle.checks_collection i).
  - destruct (hd_error (filter _ (collections d))); [|discriminate].
    now apply Hwrite.
  - now apply Hwrite.
Qed.

Lemma owns_collection_update_where p c x u l :
  filter (owns_collection x u) (update_where (RiddleCollections.assign p) c l)
  = map (fun r => if c r then RiddleCollections.assign p r else r)
      (filter (owns_collection x u) l).
Proof.
  unfold update_where. apply filter_map_commute.
  intros r. destruct (c r); reflexivity.
Qed.

Lemma updateRiddleCollection_returns i context u env d res d' :
  caller context = Some u ->
  updateRiddleCollection.handler i context env d = (Returns res, d') ->
  let own := owns_collection (updateRiddleCollection.id i) (User.id u) in
  let upd :=
    RiddleCollections.assign (updateRiddleCollection.updateData i (now env)) in
  exists old,
    hd_error (filter own (collections d)) = Some old /\
    res = hd_error
            (map upd (filter own (before_write i u (now env) (collections d)))) /\
    res = Some (upd (if truthy_flag (updateRiddleCollection.isDefault i)
                     then RiddleCollections.assign (clear_default (now env)) old
                     else old)) /\
    collections d' =
      update_where upd own (before_write i u (now env) (collections d)) /\
    riddles d' = riddles d /\
    foreign_keys d' = foreign_keys d.
Proof.
  intros H. rewrite updateRiddleCollection_run with (u := u) by exact H.
  cbv zeta.
  destruct (hd_error (filter _ (collections d))) as [old|] eqn:Eold;
    [|discriminate].
  intros Hr. apply first_row_returns in Hr as (l & Hl & ->).
  unfold db.update_RiddleCollections at 1 in Hl. injection Hl as <- <-.
  exists old. split; [reflexivity|].
  unfold before_write.
  destruct (truthy_flag (updateRiddleCollection.isDefault i)); cbn.
  - repeat split.
    rewrite owns_collection_update_where, !hd_error_map, Eold. cbn.
    apply hd_error_filter_some in Eold as [_ Eown].
    apply owned_collection_iff in Eown as [_ Eu].
    unfold eq at 1. rewrite (proj2 (eqb_text_iff _ _) Eu). reflexivity.
  - repeat split. now rewrite hd_error_map, Eold.
Qed.

Lemma assign_collection_updated i t old :
  collection_updated i t old
    (RiddleCollections.assign (updateRiddleCollection.updateData i t)
       (if truthy_flag (updateRiddleCollection.isDefault i)
        then RiddleCollections.assign (clear_default t) old
        else old)).
Proof.
  unfold collection_updated, takes, nullish, option_map, truthy_flag.
  destruct i as [x n ds ic df]; cbn.
  destruct df as [[|]|]; cbn;
    repeat split;
    repeat match goal with
           | |- context [match ?x with _ => _ end] => is_var x; destruct x
           end; reflexivity.
Qed.

(** C6.  When [updateRiddle] returns, the row it returns is the caller's
    riddle with that [id] after the update, and it is in the table; each
    field for which the input supplies a value holds that value, each other
    field holds what it held before, [id], [userId] and [createdAt] are
    unchanged and [updatedAt] is the time of the call.  The same holds of
    [updateRiddleCollection] and the caller's collection. *)
Theorem partial_update_frame context u env d :
  caller context = Some u ->
  (forall i res d',
     updateRiddle.handler i context env d = (Returns res, d') ->
     exists old new,
       In old (riddles d) /\
       Riddles.id old = updateRiddle.id i /\
       Riddles.userId old = User.id u /\
       res = Some new /\ In new (riddles d') /\
       riddle_updated i (now env) old new) /\
  (forall i res d',
     updateRiddleCollection.handler i context env d = (Returns res, d') ->
     exists old new,
       In old (collections d) /\
       RiddleCollections.id old = updateRiddleCollection.id i /\
       RiddleCollections.userId old = User.id u /\
       res = Some new /\ In new (collections d') /\
       collection_updated i (now env) old new).
Proof.
  intros H. split; intros i res d' Hr.
  - apply updateRiddle_returns with (u := u) in Hr as (old & Eold & -> & Er & _);
      [|exact H].
    apply hd_error_filter_some in Eold as [Hin Hown].
    exists old, (Riddles.assign (updateRiddle.updateData i (now env)) old).
    apply owned_riddle_iff in Hown as Hown'. destruct Hown' as [E1 E2].
    split; [exact Hin|]. split; [exact E1|]. split; [exact E2|].
    split; [reflexivity|]. split.
    + rewrite Er. now apply In_update_where.
    + apply assign_riddle_updated.
  - apply updateRiddleCollection_returns with (u := u) in Hr; [|exact H].
    cbv zeta in Hr. destruct Hr as (old & Eold & Eres & -> & Ec & _).
    apply hd_error_filter_some in Eold as [Hin Hown].
    apply owned_collection_iff in Hown as Hown'. destruct Hown' as [E1 E2].
    eexists old, _.
    split; [exact Hin|]. split; [exact E1|]. split; [exact E2|].
    split; [reflexivity|]. split.
    + rewrite Ec.
      assert (In (A := RiddleCollections.row)
                (if truthy_flag (updateRiddleCollection.isDefault i)
                 then RiddleCollections.assign (clear_default (now env)) old
                 else old)
                (before_write i u (now env) (collections d))) as Hmid.
      { unfold before_write. destruct (truthy_flag _); [|exact Hin].
        apply In_update_where; [exact Hin|].
        unfold eq. now apply eqb_text_iff. }
      apply In_update_where; [exact Hmid|].
      destruct (truthy_flag _); exact Hown.
    + apply assign_collection_updated.
Qed.

Lemma partial_update_frame_witness :
  caller (signed_in "A") = Some {| User.id := "A" |} /\
  exists res d',
    updateRiddle.handler (hint_only "88 of them") (signed_in "A")
      (at_ 30%Z uuid3) (with_piano true) = (Returns res, d') /\
    exists old new,
      In old (riddles (with_piano true)) /\
      Riddles.id old = uuid2 /\
      Riddles.userId old = "A" /\
      res = Some new /\ In new (riddles d') /\
      riddle_updated (hint_only "88 of them") 30%Z old new.
Proof.
  split; [reflexivity|].
  eexists. eexists. split; [vm_compute; reflexivity|].
  exact (proj1 (partial_update_frame (signed_in "A") (at_ 30%Z uuid3)
                  (with_piano true) eq_refl)
           (hint_only "88 of them") _ _ eq_refl).
Defined.

(** ** The statements a call issues *)

Lemma statements_one u env d d' : statement u env d d' -> statements u env d d'.
Proof. intros H. eapply statements_then; [exact H|apply statements_none]. Qed.

Lemma statements_read u env d d' : same_tables d d' -> statements u env d d'.
Proof. intros H. apply statements_one. now apply st_read. Qed.

Lemma let_through_same u d d' c :
  same_tables d d' -> let_through u d c -> let_through u d' c.
Proof.
  intros (E1 & E2 & E3) [[-> H]|(p & Hp)]; [left|right].
  - split; [reflexivity|]. unfold has_collection in *. now rewrite E1, E2.
  - rewrite E2. eauto.
Qed.

(** *** The defaults of a user after [isDefault] has been cleared *)

Lemma cleared_defaults u t l :
  filter (default_of u)
    (update_where (RiddleCollections.assign (clear_default t))
       (eq RiddleCollections.userId u) l) = [].
Proof.
  induction l as [|r l IH]; [reflexivity|].
  cbn [update_where map filter]. fold (update_where
    (RiddleCollections.assign (clear_default t))
    (eq RiddleCollections.userId u) l). rewrite IH.
  unfold eq, sql_eqb, SqlEq_text, default_of.
  destruct (RiddleCollections.userId r =? u) eqn:E; cbn;
    now rewrite ?E, ?andb_false_r.
Qed.

Lemma truthy_flag_false_nullish b :
  truthy_flag b = false -> nullish b false = false.
Proof. destruct b as [[|]|]; [discriminate|reflexivity|reflexivity]. Qed.

Lemma truthy_flag_false_not_true b :
  truthy_flag b = false -> b <> Some true.
Proof. destruct b as [[|]|]; [discriminate|discriminate|discriminate]. Qed.

(** *** What the store does with one statement *)

Lemma snd_first_row A (r : Outcome (list A) * Database) :
  snd (first_row r) = snd r.
Proof. destruct r as [[l|e] d]; reflexivity. Qed.

Lemma insert_RiddleCollections_cases r d :
  (exists e, db.insert_RiddleCollections r d
             = (Throws e, issued (INSERT, tRiddleCollections) d)) \/
  (has_collection d (RiddleCollections.id r) = false /\
   exists d', db.insert_RiddleCollections r d = (Returns [r], d') /\
              only_collections d d' (collections d ++ [r])).
Proof.
  unfold db.insert_RiddleCollections. cbv zeta.
  change (has_collection (issued (INSERT, tRiddleCollections) d))
    with (has_collection d).
  destruct (has_collection d (RiddleCollections.id r)); [left|right]; eauto.
  split; [reflexivity|]. eexists. split; [reflexivity|]. repeat split.
Qed.

Lemma delete_RiddleCollections_cases c d :
  (exists e, db.delete_RiddleCollections c d
             = (Throws e, issued (DELETE, tRiddleCollections) d)) \/
  (exists d', db.delete_RiddleCollections c d = (Returns tt, d') /\
              only_collections d d' (delete_where c (collections d))).
Proof.
  unfold db.delete_RiddleCollections. cbv zeta.
  destruct (_ && _); [left|right]; eauto.
  eexists. split; [reflexivity|]. repeat split.
Qed.

Lemma insert_Riddles_cases r d :
  (exists e, db.insert_Riddles r d = (Throws e, issued (INSERT, tRiddles) d)) \/
  (exists d', db.insert_Riddles r d = (Returns [r], d') /\
              only_riddles d d' (riddles d ++ [r]) /\
              existsb (fun x => Riddles.id x =? Riddles.id r) (riddles d) = false /\
              (foreign_keys d = true -> dangling d r = false)).
Proof.
  unfold db.insert_Riddles. cbv zeta.
  change (riddles (issued (INSERT, tRiddles) d)) with (riddles d).
  change (foreign_keys (issued (INSERT, tRiddles) d)) with (foreign_keys d).
  change (dangling (issued (INSERT, tRiddles) d)) with (dangling d).
  destruct (existsb _ (riddles d)); [left; eauto|].
  destruct (foreign_keys d); cbn [andb].
  - destruct (dangling d r); [left; eauto|right].
    eexists. split; [reflexivity|]. repeat split.
  - right. eexists. split; [reflexivity|]. repeat split. discriminate.
Qed.

Lemma update_Riddles_cases p c d :
  (exists e, db.update_Riddles p c d = (Throws e, issued (UPDATE, tRiddles) d)) \/
  (exists d', db.update_Riddles p c d
              = (Returns (map (Riddles.assign p) (filter c (riddles d))), d') /\
              only_riddles d d' (update_where (Riddles.assign p) c (riddles d)) /\
              (foreign_keys d = true -> mentions_reference p = true ->
               existsb (dangling d)
                 (map (Riddles.assign p) (filter c (riddles d))) = false)).
Proof.
  unfold db.update_Riddles. cbv zeta.
  change (riddles (issued (UPDATE, tRiddles) d)) with (riddles d).
  change (foreign_keys (issued (UPDATE, tRiddles) d)) with (foreign_keys d).
  change (dangling (issued (UPDATE, tRiddles) d)) with (dangling d).
  destruct (foreign_keys d && mentions_reference p && existsb _ _) eqn:E;
    [left; eauto|right].
  eexists. split; [reflexivity|]. split; [repeat split|].
  intros E1 E2. now rewrite E1, E2 in E.
Qed.

Lemma detached_none t x u l r :
  In r (update_where (Riddles.assign (detach t)) (attached_to x u) l) ->
  attached_to x u r = false.
Proof.
  unfold update_where. rewrite in_map_iff. intros (r0 & <- & _).
  destruct (attached_to x u r0) eqn:E; [reflexivity|exact E].
Qed.

Lemma falsy_text c : truthy_text (Some c) = false -> c = "".
Proof.
  cbn. intros H. apply negb_false_iff in H. now apply String.eqb_eq.
Qed.

Lemma not_dangling_has d r c :
  Riddles.collectionId r = Some c -> dangling d r = false ->
  has_collection d c = true.
Proof.
  unfold dangling. intros ->. apply negb_false_iff.
Qed.

(** *** Each handler as a sequence of statements *)

Lemma createRiddleCollection_statements i context env d u :
  caller context = Some u ->
  statements (User.id u) env d
    (snd (createRiddleCollection.handler i context env d)).
Proof.
  intros H. rewrite createRiddleCollection_run with (u := u) by exact H.
  rewrite snd_first_row.
  destruct (truthy_flag (createRiddleCollection.isDefault i)) eqn:T.
  - set (d1 := snd (db.update_RiddleCollections _ _ d)).
    apply statements_then with (d2 := d1).
    { apply st_clear_defaults with (t := now env). repeat split. }
    destruct (insert_RiddleCollections_cases (new_collection i u env) d1)
      as [[e ->]|(Hfresh & d2 & -> & Hd2)].
    + apply statements_read; cbn [snd]; auto with riddle.
    + apply statements_one.
      apply st_insert_collection with (r := new_collection i u env);
        try reflexivity; try assumption.
      intros _. apply cleared_defaults.
  - destruct (insert_RiddleCollections_cases (new_collection i u env) d)
      as [[e ->]|(Hfresh & d2 & -> & Hd2)].
    + apply statements_read; cbn [snd]; auto with riddle.
    + apply statements_one.
      apply st_insert_collection with (r := new_collection i u env);
        try reflexivity; try assumption.
      cbn. rewrite (truthy_flag_false_nullish _ T). discriminate.
Qed.

Lemma updateRiddleCollection_statements i context env d u :
  caller context = Some u ->
  statements (User.id u) env d
    (snd (updateRiddleCollection.handler i context env d)).
Proof.
  intros H. rewrite updateRiddleCollection_run with (u := u) by exact H.
  cbv zeta.
  destruct (hd_error (filter _ (collections d)));
    [|apply statements_read; cbn [snd]; auto with riddle].
  rewrite snd_first_row.
  destruct (truthy_flag (updateRiddleCollection.isDefault i)) eqn:T.
  - set (d1 := snd (db.update_RiddleCollections (clear_default _) _ _)).
    apply statements_then with (d2 := d1).
    { apply st_clear_defaults with (t := now env). repeat split. }
    apply statements_one.
    apply st_update_collection
      with (p := updateRiddleCollection.updateData i (now env))
           (x := updateRiddleCollection.id i).
    + repeat split.
    + intros _. apply cleared_defaults.
  - apply statements_one.
    apply st_update_collection
      with (p := updateRiddleCollection.updateData i (now env))
           (x := updateRiddleCollection.id i).
    + repeat split.
    + intros E. now apply truthy_flag_false_not_true in T.
Qed.

Lemma deleteRiddleCollection_statements i context env d u :
  caller context = Some u ->
  statements (User.id u) env d
    (snd (deleteRiddleCollection.handler i context env d)).
Proof.
  intros H. rewrite deleteRiddleCollection_run with (u := u) by exact H.
  cbv zeta.
  destruct (hd_error (filter _ (collections d)));
    [|apply statements_read; cbn [snd]; auto with riddle].
  rewrite update_Riddles_detach. cbn [snd].
  set (d1 := with_riddles _ _).
  eapply statements_then with (d2 := d1).
  { apply st_detach with (t := now env) (x := deleteRiddleCollection.id i).
    repeat split. }
  destruct (delete_RiddleCollections_cases
              (owns_collection (deleteRiddleCollection.id i) (User.id u)) d1)
    as [[e ->]|(d2 & -> & Hd2)].
  - apply statements_read; cbn [snd]; auto with riddle.
  - apply statements_one.
    apply st_delete_collection with (x := deleteRiddleCollection.id i);
      [exact Hd2|].
    intros row Hrow. eapply detached_none. exact Hrow.
Qed.

Lemma createRiddle_statements i context env d u :
  caller context = Some u ->
  statements (User.id u) env d (snd (createRiddle.handler i context env d)).
Proof.
  intros H. rewrite createRiddle_run with (u := u) by exact H.
  assert (forall d0, same_tables d d0 ->
            (forall c, createRiddle.collectionId i = Some c ->
                       c <> "" -> let_through (User.id u) d c) ->
            statements (User.id u) env d
              (snd (first_row (db.insert_Riddles (new_riddle i u env) d0))))
    as Hwrite.
  { intros d0 Hd0 Hc. rewrite snd_first_row.
    eapply statements_then; [apply st_read; exact Hd0|].
    destruct (insert_Riddles_cases (new_riddle i u env) d0)
      as [[e ->]|(d2 & -> & Hd2 & _ & Hfk)].
    - apply statements_read; cbn [snd]; auto with riddle.
    - apply statements_one.
      apply st_insert_riddle with (r := new_riddle i u env);
        [exact Hd2|reflexivity|].
      intros c Ec. cbn in Ec.
      destruct (String.eqb_spec c "") as [->|Hne].
      + left. split; [reflexivity|]. intros Efk.
        eapply not_dangling_has; [|now apply Hfk]. exact Ec.
      + apply let_through_same with (d := d); [exact Hd0|]. now apply Hc. }
  destruct (truthy_text (createRiddle.collectionId i)) eqn:T.
  - destruct (hd_error (filter _ (collections d))) as [p|] eqn:Ep;
      [|apply statements_read; cbn [snd]; auto with riddle].
    apply Hwrite; [auto with riddle|].
    intros c Ec _. rewrite Ec in Ep. cbn in Ep.
    apply hd_error_filter_some in Ep as [Hin Hown].
    apply owned_collection_iff in Hown as [E1 E2].
    right. eauto.
  - apply Hwrite; [auto with riddle|].
    intros c Ec Hne. rewrite Ec in T. now apply falsy_text in T.
Qed.

Lemma updateRiddle_statements i context env d u :
  caller context = Some u ->
  statements (User.id u) env d (snd (updateRiddle.handler i context env d)).
Proof.
  intros H. rewrite updateRiddle_run with (u := u) by exact H. cbv zeta.
  destruct (filter (owns_riddle (updateRiddle.id i) (User.id u)) (riddles d))
    as [|old rest] eqn:Eold; cbn [hd_error];
    [apply statements_read; cbn [snd]; auto with riddle|].
  assert (forall d0, same_tables d d0 ->
            (forall c, updateRiddle.collectionId i = Some (Some c) ->
                       c <> "" -> let_through (User.id u) d c) ->
            statements (User.id u) env d
              (snd (first_row
                      (db.update_Riddles (updateRiddle.updateData i (now env))
                         (owns_riddle (updateRiddle.id i) (User.id u)) d0))))
    as Hwrite.
  { intros d0 Hd0 Hc. rewrite snd_first_row.
    eapply statements_then; [apply st_read; exact Hd0|].
    destruct (update_Riddles_cases (updateRiddle.updateData i (now env))
                (owns_riddle (updateRiddle.id i) (User.id u)) d0)
      as [[e ->]|(d2 & -> & Hd2 & Hfk)].
    - apply statements_read; cbn [snd]; auto with riddle.
    - apply statements_one.
      apply st_update_riddle
        with (p := updateRiddle.updateData i (now env))
             (x := updateRiddle.id i); [exact Hd2|].
      intros c Ec. cbn in Ec.
      destruct (String.eqb_spec c "") as [->|Hne].
      + left. split; [reflexivity|]. intros Efk.
        specialize (Hfk Efk). unfold mentions_reference in Hfk. cbn in Hfk.
        rewrite Ec in Hfk. specialize (Hfk eq_refl).
        destruct Hd0 as (_ & _ & Er). rewrite Er, Eold in Hfk.
        cbn in Hfk. apply orb_false_iff in Hfk as [Hfk _].
        eapply not_dangling_has; [|exact Hfk]. cbn. now rewrite Ec.
      + apply let_through_same with (d := d); [exact Hd0|]. now apply Hc. }
  destruct (updateRiddle.checks_collection i) eqn:T.
  - destruct (hd_error (filter _ (collections d))) as [p|] eqn:Ep;
      [|apply statements_read; cbn [snd]; repeat split].
    apply Hwrite; [repeat split|].
    intros c Ec _. rewrite Ec in Ep. cbn in Ep.
    apply hd_error_filter_some in Ep as [Hin Hown].
    apply owned_collection_iff in Hown as [E1 E2].
    right. eauto.
  - apply Hwrite; [auto with riddle|].
    intros c Ec Hne. unfold updateRiddle.checks_collection in T.
    rewrite Ec in T. now apply falsy_text in T.
Qed.

Lemma deleteRiddle_statements i context env d u :
  caller context = Some u ->
  statements (User.id u) env d (snd (deleteRiddle.handler i context env d)).
Proof.
  intros H. rewrite deleteRiddle_run with (u := u) by exact H.
  destruct (hd_error (filter _ (riddles d)));
    [|apply statements_read; cbn [snd]; auto with riddle].
  apply statements_one.
  apply st_delete_riddle with (x := deleteRiddle.id i). repeat split.
Qed.

Lemma snd_fmap A B (f : A -> B) (m : Action A) d :
  snd (fmap f m d) = snd (m d).
Proof. rewrite fmap_run. destruct (m d) as [[a|e] d']; reflexivity. Qed.

(** Every call is a sequence of statements of its caller; a call without a
    caller issues none. *)
Lemma handler_statements c context env d :
  match caller context with
  | Some u => statements (User.id u) env d (snd (handler c context env d))
  | None => snd (handler c context env d) = d
  end.
Proof.
  destruct (caller context) as [u|] eqn:H;
    [|now rewrite handler_unauthorized].
  destruct c; unfold handler; rewrite snd_fmap.
  - now apply createRiddleCollection_statements.
  - now apply updateRiddleCollection_statements.
  - now apply deleteRiddleCollection_statements.
  - now apply createRiddle_statements.
  - now apply updateRiddle_statements.
  - now apply deleteRiddle_statements.
  - rewrite listMyCollections_run with (u := u) by exact H.
    apply statements_read, paged_same_tables.
  - rewrite listMyRiddles_run with (u := u) by exact H.
    apply statements_read, paged_same_tables.
Qed.

(** ** Invariants of the tables *)

(** *** Lists *)

Lemma map_id_update_where p c l :
  map RiddleCollections.id (update_where (RiddleCollections.assign p) c l)
  = map RiddleCollections.id l.
Proof.
  unfold update_where. rewrite map_map. apply map_ext.
  intros r. destruct (c r); reflexivity.
Qed.

Lemma In_update_where_inv A (f : A -> A) (c : A -> bool) l r' :
  In r' (update_where f c l) ->
  exists r, In r l /\ r' = (if c r then f r else r).
Proof.
  unfold update_where. rewrite in_map_iff. intros (r & <- & Hr). eauto.
Qed.

Lemma In_update_where_collections p c l r :
  In r l ->
  exists r', In r' (update_where (RiddleCollections.assign p) c l) /\
             RiddleCollections.id r' = RiddleCollections.id r /\
             RiddleCollections.userId r' = RiddleCollections.userId r.
Proof.
  intros H. exists (if c r then RiddleCollections.assign p r else r). split.
  - unfold update_where. apply in_map_iff. eauto.
  - destruct (c r); split; reflexivity.
Qed.

Lemma has_collection_iff d c :
  has_collection d c = true <->
  exists p, In p (collections d) /\ RiddleCollections.id p = c.
Proof.
  unfold has_collection. rewrite existsb_exists.
  split; intros (p & Hp & E); exists p; split; trivial;
    now apply String.eqb_eq.
Qed.

Lemma has_collection_false d c :
  has_collection d c = false ->
  ~ In c (map RiddleCollections.id (collections d)).
Proof.
  intros H Hin. apply in_map_iff in Hin as (p & E & Hp).
  assert (has_collection d c = true) by (apply has_collection_iff; eauto).
  congruence.
Qed.

Lemma NoDup_map_filter A B (f : A -> B) (c : A -> bool) l :
  NoDup (map f l) -> NoDup (map f (filter c l)).
Proof.
  induction l as [|a l IH]; cbn; [trivial|].
  intros H. inversion H as [|? ? Hnotin Hnd]; subst.
  destruct (c a); cbn; [constructor|]; auto.
  intros Hin. apply Hnotin. apply in_map_iff in Hin as (x & E & Hx).
  apply filter_In in Hx as [Hx _]. apply in_map_iff. eauto.
Qed.

Lemma filter_length_map_le A (q : A -> bool) (g : A -> A) l :
  (forall r, In r l -> q (g r) = true -> q r = true) ->
  length (filter q (map g l)) <= length (filter q l).
Proof.
  induction l as [|a l IH]; cbn; [lia|].
  intros H. assert (length (filter q (map g l)) <= length (filter q l)) as IH'.
  { apply IH. intros r Hr. apply H. now right. }
  destruct (q (g a)) eqn:E.
  - rewrite (H a (or_introl eq_refl) E). cbn. lia.
  - destruct (q a); cbn; lia.
Qed.

Lemma filter_length_filter_le A (q c : A -> bool) l :
  length (filter q (filter c l)) <= length (filter q l).
Proof.
  induction l as [|a l IH]; cbn; [lia|].
  destruct (c a); cbn; destruct (q a); cbn; lia.
Qed.

(** Under the primary key at most one row has a given [id]. *)
Lemma owned_at_most_one x u l :
  NoDup (map RiddleCollections.id l) ->
  length (filter (owns_collection x u) l) <= 1.
Proof.
  induction l as [|a l IH]; cbn [filter map length]; [lia|].
  intros H. inversion H as [|? ? Hnotin Hnd]; subst.
  specialize (IH Hnd).
  destruct (owns_collection x u a) eqn:E; [|exact IH].
  apply owned_collection_iff in E as [E1 E2].
  destruct (filter (owns_collection x u) l) as [|b rest] eqn:Ef; [cbn; lia|].
  exfalso. apply Hnotin.
  assert (In b (filter (owns_collection x u) l)) as Hb by (rewrite Ef; now left).
  apply filter_In in Hb as [Hb Eb].
  apply owned_collection_iff in Eb as [Eb _].
  apply in_map_iff. exists b. split; [congruence|exact Hb].
Qed.

(** *** One statement keeps each invariant *)

Lemma statement_foreign_keys u env d d' :
  statement u env d d' -> foreign_keys d' = foreign_keys d.
Proof.
  destruct 1 as [(F & _)|t (F & _)|r (F & _)|p x (F & _)|x (F & _)
                |t x (F & _)|r (F & _)|p x (F & _)|x (F & _)]; exact F.
Qed.

Lemma statement_primary_keys u env d d' :
  statement u env d d' -> primary_keys d -> primary_keys d'.
Proof.
  unfold primary_keys.
  destruct 1 as [(_ & C & _)|t (_ & _ & C)|r (_ & _ & C) Hfresh _ _ _
                |p x (_ & _ & C) _|x (_ & _ & C) _
                |t x (_ & C & _)|r (_ & C & _) _ _|p x (_ & C & _) _
                |x (_ & C & _)];
    rewrite C; intros H; trivial.
  - now rewrite map_id_update_where.
  - rewrite map_app. cbn.
    apply NoDup_app; [exact H|repeat constructor; intros []|].
    intros k Hk [<-|[]]. now apply has_collection_false in Hfresh.
  - now rewrite map_id_update_where.
  - now apply NoDup_map_filter.
Qed.

Lemma statement_uuid_keys u env d d' :
  uuid_shaped (randomUUID env) ->
  statement u env d d' -> uuid_keys d -> uuid_keys d'.
Proof.
  unfold uuid_keys. intros Huuid.
  destruct 1 as [(_ & C & _)|t (_ & _ & C)|r (_ & _ & C) _ Eid _ _
                |p x (_ & _ & C) _|x (_ & _ & C) _
                |t x (_ & C & _)|r (_ & C & _) _ _|p x (_ & C & _) _
                |x (_ & C & _)];
    rewrite C; intros H q Hq; auto.
  - apply In_update_where_inv in Hq as (q0 & Hq0 & ->).
    specialize (H q0 Hq0). now destruct (eq _ _ q0).
  - apply in_app_iff in Hq as [Hq|[<-|[]]]; [auto|]. now rewrite Eid.
  - apply In_update_where_inv in Hq as (q0 & Hq0 & ->).
    specialize (H q0 Hq0). now destruct (owns_collection _ _ q0).
  - apply filter_In in Hq as [Hq _]. auto.
Qed.

Lemma no_empty_key d : uuid_keys d -> has_collection d "" = false.
Proof.
  intros H. destruct (has_collection d "") eqn:E; [|reflexivity].
  apply has_collection_iff in E as (p & Hp & Ep).
  specialize (H p Hp). rewrite Ep in H. discriminate H.
Qed.

(** A reference the handler let through is fine in the table. *)
Lemma let_through_ok u d c r :
  uuid_keys d -> let_through u d c ->
  Riddles.collectionId r = Some c -> Riddles.userId r = u ->
  resolves d r \/ (Riddles.collectionId r = Some "" /\ foreign_keys d = false).
Proof.
  intros Hk [[-> Hfk]|(p & Hp & E1 & E2)] Ec Eu.
  - right. split; [exact Ec|].
    destruct (foreign_keys d); [|reflexivity].
    rewrite no_empty_key in Hfk by exact Hk. now specialize (Hfk eq_refl).
  - left. intros c' Ec'. exists p. repeat split; congruence.
Qed.

Lemma resolves_collections d d' r r' :
  (forall p, In p (collections d) ->
     exists p', In p' (collections d') /\
                RiddleCollections.id p' = RiddleCollections.id p /\
                RiddleCollections.userId p' = RiddleCollections.userId p) ->
  Riddles.collectionId r' = Riddles.collectionId r ->
  Riddles.userId r' = Riddles.userId r ->
  resolves d r -> resolves d' r'.
Proof.
  intros Hc E1 E2 H c Ec. rewrite E1 in Ec.
  destruct (H c Ec) as (p & Hp & Ep1 & Ep2).
  destruct (Hc p Hp) as (p' & Hp' & Ep1' & Ep2').
  exists p'. repeat split; congruence.
Qed.

Lemma statement_references_ok u env d d' :
  statement u env d d' ->
  uuid_keys d -> references_ok d -> references_ok d'.
Proof.
  unfold references_ok. intros Hst Hk H.
  pose proof (statement_foreign_keys Hst) as F.
  destruct Hst as [(_ & C & R)|t (_ & R & C)|r (_ & R & C) _ _ _ _
                |p x (_ & R & C) _|x (_ & R & C) Hnone
                |t x (_ & C & R)|r (_ & C & R) Eu Hc|p x (_ & C & R) Hc
                |x (_ & C & R)];
    rewrite R, F; intros q Hq.
  - destruct (H q Hq) as [Hres|Hemp]; [left|now right].
    eapply resolves_collections; [|reflexivity|reflexivity|exact Hres].
    intros p0 Hp0. rewrite C. eauto.
  - destruct (H q Hq) as [Hres|Hemp]; [left|now right].
    eapply resolves_collections; [|reflexivity|reflexivity|exact Hres].
    intros p0 Hp0. rewrite C. now apply In_update_where_collections.
  - destruct (H q Hq) as [Hres|Hemp]; [left|now right].
    eapply resolves_collections; [|reflexivity|reflexivity|exact Hres].
    intros p0 Hp0. rewrite C. exists p0. rewrite in_app_iff. auto.
  - destruct (H q Hq) as [Hres|Hemp]; [left|now right].
    eapply resolves_collections; [|reflexivity|reflexivity|exact Hres].
    intros p0 Hp0. rewrite C. now apply In_update_where_collections.
  - destruct (H q Hq) as [Hres|Hemp]; [left|now right].
    intros c Ec. destruct (Hres c Ec) as (p0 & Hp0 & E1 & E2).
    exists p0. repeat split; trivial. rewrite C.
    apply filter_In. split; [exact Hp0|].
    destruct (owns_collection x u p0) eqn:Eown; [|reflexivity].
    apply owned_collection_iff in Eown as [Ex Eu].
    assert (attached_to x u q = true) as Hatt
      by (apply attached_riddle_iff; split; congruence).
    rewrite (Hnone q Hq) in Hatt. discriminate.
  - apply In_update_where_inv in Hq as (q0 & Hq0 & ->).
    destruct (attached_to x u q0).
    + left. intros c Ec. discriminate Ec.
    + destruct (H q0 Hq0) as [Hres|Hemp]; [left|now right].
      eapply resolves_collections; [|reflexivity|reflexivity|exact Hres].
      intros p0 Hp0. rewrite C. eauto.
  - apply in_app_iff in Hq as [Hq|[<-|[]]].
    + destruct (H q Hq) as [Hres|Hemp]; [left|now right].
      eapply resolves_collections; [|reflexivity|reflexivity|exact Hres].
      intros p0 Hp0. rewrite C. eauto.
    + destruct (Riddles.collectionId r) as [c|] eqn:Ec.
      * destruct (let_through_ok r Hk (Hc c eq_refl) Ec Eu) as [Hres|Hemp];
          [left|right; now rewrite <- Ec].
        eapply resolves_collections; [|reflexivity|reflexivity|exact Hres].
        intros p0 Hp0. rewrite C. eauto.
      * left. intros c Ec'. congruence.
  - apply In_update_where_inv in Hq as (q0 & Hq0 & ->).
    destruct (owns_riddle x u q0) eqn:Eown.
    + apply owned_riddle_iff in Eown as [_ Eu].
      destruct (Riddles.set_collectionId p) as [[c|]|] eqn:Ep.
      * assert (Riddles.collectionId (Riddles.assign p q0) = Some c) as Ec
          by (cbn; now rewrite Ep).
        destruct (let_through_ok (Riddles.assign p q0) Hk (Hc c eq_refl) Ec Eu)
          as [Hres|Hemp]; [left|now right].
        eapply resolves_collections; [|reflexivity|reflexivity|exact Hres].
        intros p0 Hp0. rewrite C. eauto.
      * left. intros c Ec. cbn in Ec. rewrite Ep in Ec. discriminate Ec.
      * destruct (H q0 Hq0) as [Hres|Hemp].
        -- left.
           eapply resolves_collections with (r := q0);
             [| |reflexivity|exact Hres].
           ++ intros p0 Hp0. rewrite C. eauto.
           ++ cbn. now rewrite Ep.
        -- right. cbn. now rewrite Ep.
    + destruct (H q0 Hq0) as [Hres|Hemp]; [left|now right].
      eapply resolves_collections; [|reflexivity|reflexivity|exact Hres].
      intros p0 Hp0. rewrite C. eauto.
  - apply filter_In in Hq as [Hq _].
    destruct (H q Hq) as [Hres|Hemp]; [left|now right].
    eapply resolves_collections; [|reflexivity|reflexivity|exact Hres].
    intros p0 Hp0. rewrite C. eauto.
Qed.

Lemma default_of_iff v r :
  default_of v r = true <->
  RiddleCollections.userId r = v /\ RiddleCollections.isDefault r = true.
Proof.
  unfold default_of. rewrite andb_true_iff, String.eqb_eq. reflexivity.
Qed.

Lemma no_default_in v l r :
  filter (default_of v) l = [] -> In r l -> default_of v r = false.
Proof.
  intros E Hr. destruct (default_of v r) eqn:D; [|reflexivity].
  assert (In r (filter (default_of v) l)) as H by (apply filter_In; auto).
  rewrite E in H. destruct H.
Qed.

(** After an update of the rows named [x] of [u], when [u] had no default
    before, the defaults of [u] are among the updated rows. *)
Lemma defaults_after_update u p x l :
  filter (default_of u) l = [] ->
  filter (default_of u)
    (update_where (RiddleCollections.assign p) (owns_collection x u) l)
  = filter (default_of u)
      (map (RiddleCollections.assign p) (filter (owns_collection x u) l)).
Proof.
  induction l as [|a l IH]; [reflexivity|].
  intros E. cbn [filter] in E.
  destruct (default_of u a) eqn:Da; [discriminate|].
  specialize (IH E). unfold update_where in *. cbn [map filter].
  destruct (owns_collection x u a); cbn [map filter].
  - now rewrite IH.
  - now rewrite Da.
Qed.

Lemma statement_at_most_one_default v u env d d' :
  statement u env d d' ->
  primary_keys d -> at_most_one_default v d -> at_most_one_default v d'.
Proof.
  unfold at_most_one_default, defaults_of, primary_keys.
  destruct 1 as [(_ & C & _)|t (_ & _ & C)|r (_ & _ & C) _ _ Eu Hnone
                |p x (_ & _ & C) Hnone|x (_ & _ & C) _
                |t x (_ & C & _)|r (_ & C & _) _ _|p x (_ & C & _) _
                |x (_ & C & _)];
    rewrite C; intros Hpk H; trivial.
  - etransitivity; [|exact H]. apply filter_length_map_le.
    intros q _. destruct (eq _ _ q); [|trivial].
    rewrite !default_of_iff. cbn. intros [_ E]. discriminate E.
  - rewrite filter_app, length_app. cbn [filter].
    destruct (default_of v r) eqn:D; cbn [length]; [|lia].
    apply default_of_iff in D as [Ev Ed].
    assert (v = u) as -> by congruence.
    unfold defaults_of in Hnone. rewrite (Hnone Ed). cbn. lia.
  - destruct (String.eqb_spec v u) as [->|Hne].
    + destruct (RiddleCollections.set_isDefault p) as [[|]|] eqn:Ep.
      * rewrite defaults_after_update by (apply Hnone; reflexivity).
        etransitivity; [apply filter_length_le|].
        rewrite length_map. now apply owned_at_most_one.
      * etransitivity; [|exact H]. apply filter_length_map_le.
        intros q _. destruct (owns_collection x u q); [|trivial].
        rewrite !default_of_iff. cbn. rewrite Ep. cbn.
        intros [_ E]. discriminate E.
      * etransitivity; [|exact H]. apply filter_length_map_le.
        intros q _. destruct (owns_collection x u q); [|trivial].
        rewrite !default_of_iff. cbn. now rewrite Ep.
    + etransitivity; [|exact H]. apply filter_length_map_le.
      intros q _. destruct (owns_collection x u q) eqn:Eown; [|trivial].
      apply owned_collection_iff in Eown as [_ Eu].
      rewrite !default_of_iff. cbn. intros [E _]. congruence.
  - etransitivity; [|exact H]. apply filter_length_filter_le.
Qed.

(** *** Databases the handlers keep consistent *)

Lemma statements_consistent u env d d' :
  uuid_shaped (randomUUID env) ->
  statements u env d d' -> consistent d -> consistent d'.
Proof.
  intros Huuid. induction 1 as [d|d1 d2 d3 Hst _ IH]; [trivial|].
  intros [H1 H2 H3]. apply IH. split.
  - eapply statement_primary_keys; eassumption.
  - eapply statement_uuid_keys; eassumption.
  - eapply statement_references_ok; eassumption.
Qed.

Lemma statements_foreign_keys u env d d' :
  statements u env d d' -> foreign_keys d' = foreign_keys d.
Proof.
  induction 1 as [d|d1 d2 d3 Hst _ IH]; [reflexivity|].
  rewrite IH. eapply statement_foreign_keys; eassumption.
Qed.

Lemma statements_at_most_one_default v u env d d' :
  statements u env d d' ->
  primary_keys d -> at_most_one_default v d ->
  primary_keys d' /\ at_most_one_default v d'.
Proof.
  induction 1 as [d|d1 d2 d3 Hst _ IH]; [auto|].
  intros H1 H2. apply IH.
  - eapply statement_primary_keys; eassumption.
  - eapply statement_at_most_one_default; eassumption.
Qed.

Lemma handler_consistent c context env d :
  uuid_shaped (randomUUID env) ->
  consistent d -> consistent (snd (handler c context env d)).
Proof.
  intros Huuid H. pose proof (handler_statements c context env d) as Hs.
  destruct (caller context) as [u|].
  - eapply statements_consistent; eassumption.
  - now rewrite Hs.
Qed.

Lemma handler_foreign_keys c context env d :
  foreign_keys (snd (handler c context env d)) = foreign_keys d.
Proof.
  pose proof (handler_statements c context env d) as Hs.
  destruct (caller context) as [u|].
  - eapply statements_foreign_keys; eassumption.
  - now rewrite Hs.
Qed.

Lemma reachable_consistent fk d :
  reachable fk d -> consistent d /\ foreign_keys d = fk.
Proof.
  induction 1 as [|d c context env _ [IH1 IH2] Huuid].
  - split; [|reflexivity]. split.
    + constructor.
    + intros p [].
    + intros r [].
  - split; [now apply handler_consistent|].
    now rewrite handler_foreign_keys.
Qed.

(** The calls that come through [server] stay within the reachable
    databases. *)
Lemma server_reachable fk d n raw context env :
  reachable fk d -> uuid_shaped (randomUUID env) ->
  reachable fk (snd (server n raw context env d)).
Proof.
  intros H Huuid. unfold server, defineAction.
  destruct (schema n raw) as [c|]; [|exact H].
  now apply reachable_call.
Qed.

(** ** C1: one default collection per user *)

Lemma createRiddleCollection_default i context u env d res d' :
  caller context = Some u ->
  createRiddleCollection.isDefault i = Some true ->
  createRiddleCollection.handler i context env d = (Returns res, d') ->
  res = Some (new_collection i u env) /\
  defaults_of (User.id u) d' = [new_collection i u env].
Proof.
  intros H Ed. rewrite createRiddleCollection_run with (u := u) by exact H.
  rewrite Ed. cbn [truthy_flag]. intros Hr.
  apply first_row_returns in Hr as (l & Hl & ->).
  set (d1 := snd (db.update_RiddleCollections _ _ d)) in Hl.
  destruct (insert_RiddleCollections_cases (new_collection i u env) d1)
    as [[e He]|(_ & d2 & Hd2 & _ & _ & C)]; [congruence|].
  rewrite Hd2 in Hl. injection Hl as <- <-. split; [reflexivity|].
  unfold defaults_of. rewrite C, filter_app.
  change (collections d1)
    with (update_where (RiddleCollections.assign (clear_default (now env)))
            (eq RiddleCollections.userId (User.id u)) (collections d)).
  rewrite cleared_defaults. cbn. unfold default_of. cbn.
  now rewrite String.eqb_refl, Ed.
Qed.

Lemma updateRiddleCollection_default i context u env d res d' :
  primary_keys d ->
  caller context = Some u ->
  updateRiddleCollection.isDefault i = Some true ->
  updateRiddleCollection.handler i context env d = (Returns res, d') ->
  exists row,
    res = Some row /\
    RiddleCollections.id row = updateRiddleCollection.id i /\
    defaults_of (User.id u) d' = [row].
Proof.
  intros Hpk H Ed Hr.
  apply updateRiddleCollection_returns with (u := u) in Hr; [|exact H].
  cbv zeta in Hr. destruct Hr as (old & Eold & Eres & Eres' & C & _).
  unfold before_write in *. rewrite Ed in *. cbn [truthy_flag] in *.
  set (own := owns_collection (updateRiddleCollection.id i) (User.id u)) in *.
  set (upd := RiddleCollections.assign
                (updateRiddleCollection.updateData i (now env))) in *.
  set (l1 := update_where (RiddleCollections.assign (clear_default (now env)))
               (eq RiddleCollections.userId (User.id u)) (collections d)) in *.
  assert (length (filter own l1) <= 1) as Hlen.
  { apply owned_at_most_one. unfold l1. now rewrite map_id_update_where. }
  destruct (filter own l1) as [|q [|q' rest]] eqn:Ef;
    [subst res; discriminate Eres'| |cbn in Hlen; lia].
  assert (In q (filter own l1)) as Hq by (rewrite Ef; now left).
  apply filter_In in Hq as [_ Hown].
  apply owned_collection_iff in Hown as [E1 E2].
  exists (upd q). split; [exact Eres|]. split; [exact E1|].
  unfold defaults_of. rewrite C. unfold upd, own.
  rewrite defaults_after_update by apply cleared_defaults.
  fold own. fold l1. rewrite Ef. cbn. unfold default_of. cbn.
  now rewrite E2, String.eqb_refl, Ed.
Qed.

(** C1.  From a database where [id] is a key and user [v] has at most one
    default collection, every call (by [v] or by anyone else, returning or
    throwing) leaves [v] with at most one default collection.  When
    [createRiddleCollection] or [updateRiddleCollection] is called with
    [isDefault: true] and returns, the caller's defaults are exactly the row
    returned: the collection created, or the collection named by the
    input. *)
Theorem single_default v d :
  primary_keys d -> at_most_one_default v d ->
  (forall c context env,
     at_most_one_default v (snd (handler c context env d))) /\
  (forall i context u env res d',
     caller context = Some u ->
     createRiddleCollection.isDefault i = Some true ->
     createRiddleCollection.handler i context env d = (Returns res, d') ->
     exists row,
       res = Some row /\
       RiddleCollections.id row = randomUUID env /\
       defaults_of (User.id u) d' = [row]) /\
  (forall i context u env res d',
     caller context = Some u ->
     updateRiddleCollection.isDefault i = Some true ->
     updateRiddleCollection.handler i context env d = (Returns res, d') ->
     exists row,
       res = Some row /\
       RiddleCollections.id row = updateRiddleCollection.id i /\
       defaults_of (User.id u) d' = [row]).
Proof.
  intros Hpk H. split; [|split].
  - intros c context env.
    pose proof (handler_statements c context env d) as Hs.
    destruct (caller context) as [u|]; [|now rewrite Hs].
    eapply statements_at_most_one_default; eassumption.
  - intros i context u env res d' Hu Ed Hr.
    destruct (@createRiddleCollection_default i context u env d res d' Hu Ed Hr)
      as [-> E].
    eexists. split; [reflexivity|]. split; [reflexivity|exact E].
  - intros i context u env res d' Hu Ed Hr.
    exact (@updateRiddleCollection_default i context u env d res d'
             Hpk Hu Ed Hr).
Qed.

Lemma single_default_witness :
  primary_keys (with_logic true) /\
  at_most_one_default "A" (with_logic true) /\
  exists res d',
    createRiddleCollection.handler wordplay_input (signed_in "A")
      (at_ 20%Z uuid2) (with_logic true) = (Returns res, d') /\
    exists row,
      res = Some row /\
      RiddleCollections.id row = uuid2 /\
      defaults_of "A" d' = [row].
Proof.
  assert (primary_keys (with_logic true)) as Hpk.
  { unfold primary_keys. cbn. repeat constructor. intros []. }
  assert (at_most_one_default "A" (with_logic true)) as Hone.
  { unfold at_most_one_default. cbn. lia. }
  split; [exact Hpk|]. split; [exact Hone|].
  eexists. eexists. split; [vm_compute; reflexivity|].
  exact (proj1 (proj2 (single_default Hpk Hone))
           wordplay_input (signed_in "A") {| User.id := "A" |}
           (at_ 20%Z uuid2) _ _ eq_refl eq_refl eq_refl).
Defined.

(** ** C2: deleting a collection detaches its riddles *)

Lemma references_iff x r :
  references x r = true <-> Riddles.collectionId r = Some x.
Proof.
  unfold references. destruct (Riddles.collectionId r) as [c|].
  - rewrite String.eqb_eq. split; congruence.
  - split; discriminate.
Qed.

Lemma key_injective d p q :
  primary_keys d -> In p (collections d) -> In q (collections d) ->
  RiddleCollections.id p = RiddleCollections.id q -> p = q.
Proof.
  unfold primary_keys. induction (collections d) as [|a l IH]; [intros _ []|].
  cbn. intros H. inversion H as [|? ? Hnotin Hnd]; subst.
  intros [->|Hp] [->|Hq] E; trivial.
  - exfalso. apply Hnotin. rewrite E. now apply in_map.
  - exfalso. apply Hnotin. rewrite <- E. now apply in_map.
  - now apply IH.
Qed.

(** In a consistent database the riddles in a collection are its owner's. *)
Lemma riddles_of_collection_owner d p r :
  consistent d -> In p (collections d) -> In r (riddles d) ->
  Riddles.collectionId r = Some (RiddleCollections.id p) ->
  Riddles.userId r = RiddleCollections.userId p.
Proof.
  intros [Hpk Hk Href] Hp Hr Ec.
  destruct (Href r Hr) as [Hres|[Hemp _]].
  - destruct (Hres _ Ec) as (q & Hq & E1 & E2).
    now rewrite (@key_injective d p q Hpk Hp Hq (eq_sym E1)).
  - specialize (Hk p Hp). rewrite Ec in Hemp. injection Hemp as Hemp.
    rewrite Hemp in Hk. discriminate Hk.
Qed.

Lemma attached_is_references d p r :
  consistent d -> In p (collections d) -> In r (riddles d) ->
  attached_to (RiddleCollections.id p) (RiddleCollections.userId p) r
  = references (RiddleCollections.id p) r.
Proof.
  intros Hd Hp Hr.
  destruct (references (RiddleCollections.id p) r) eqn:E.
  - apply references_iff in E. apply attached_riddle_iff.
    split; [exact E|]. now apply riddles_of_collection_owner with (d := d).
  - destruct (attached_to _ _ r) eqn:A; [|reflexivity].
    apply attached_riddle_iff in A as [A _].
    apply references_iff in A. congruence.
Qed.

Lemma hd_error_filter_In A (c : A -> bool) l r :
  In r l -> c r = true -> exists q, hd_error (filter c l) = Some q.
Proof.
  intros Hr Hc.
  assert (In r (filter c l)) as H by (apply filter_In; auto).
  destruct (filter c l) as [|q rest]; [destruct H|]. exists q. reflexivity.
Qed.

Lemma detach_as_specified d p t :
  consistent d -> In p (collections d) ->
  update_where (Riddles.assign (detach t))
    (attached_to (RiddleCollections.id p) (RiddleCollections.userId p))
    (riddles d)
  = map (fun r => if references (RiddleCollections.id p) r
                  then detached_row t r else r) (riddles d).
Proof.
  intros Hd Hp. unfold update_where. apply map_ext_in. intros r Hr.
  now rewrite (@attached_is_references d p r Hd Hp Hr).
Qed.

Lemma detached_rows_do_not_reference x t l r :
  In r (map (fun r => if references x r then detached_row t r else r) l) ->
  Riddles.collectionId r <> Some x.
Proof.
  rewrite in_map_iff. intros (r0 & <- & _).
  destruct (references x r0) eqn:E; [discriminate|].
  intros Ec. apply references_iff in Ec. congruence.
Qed.

Lemma owns_is_named d p q :
  primary_keys d -> In p (collections d) -> In q (collections d) ->
  owns_collection (RiddleCollections.id p) (RiddleCollections.userId p) q
  = (RiddleCollections.id q =? RiddleCollections.id p).
Proof.
  intros Hpk Hp Hq.
  destruct (String.eqb_spec (RiddleCollections.id q) (RiddleCollections.id p))
    as [E|E].
  - rewrite (@key_injective d q p Hpk Hq Hp E).
    now apply owned_collection_iff.
  - destruct (owns_collection _ _ q) eqn:O; [|reflexivity].
    apply owned_collection_iff in O as [O _]. contradiction.
Qed.

(** C2.  In a reachable database, when user [u] deletes a collection [p] of
    hers, [deleteRiddleCollection] returns, and afterwards: [p] is gone and
    the other collections are as they were; the riddles are the same rows in
    the same order, where each riddle that referenced [p] now has
    [collectionId] null and [updatedAt] set to the time of the call, and
    every other riddle is unchanged; so no riddle references [p], and no
    riddle row is deleted. *)
Theorem delete_collection_detaches fk d context u env i p :
  reachable fk d ->
  caller context = Some u ->
  In p (collections d) ->
  RiddleCollections.userId p = User.id u ->
  deleteRiddleCollection.id i = RiddleCollections.id p ->
  exists d',
    deleteRiddleCollection.handler i context env d = (Returns tt, d') /\
    collections d' =
      filter (fun q => negb (RiddleCollections.id q =? RiddleCollections.id p))
        (collections d) /\
    (forall q, In q (collections d') ->
       RiddleCollections.id q <> RiddleCollections.id p) /\
    riddles d' =
      map (fun r => if references (RiddleCollections.id p) r
                    then detached_row (now env) r else r) (riddles d) /\
    (forall r, In r (riddles d') ->
       Riddles.collectionId r <> Some (RiddleCollections.id p)) /\
    map Riddles.id (riddles d') = map Riddles.id (riddles d).
Proof.
  intros Hreach Hu Hp Eu Ei.
  apply reachable_consistent in Hreach as [Hd _].
  rewrite deleteRiddleCollection_run with (u := u) by exact Hu. cbv zeta.
  rewrite Ei, <- Eu.
  set (own := owns_collection (RiddleCollections.id p)
                (RiddleCollections.userId p)).
  assert (own p = true) as Hown by (apply owned_collection_iff; auto).
  destruct (hd_error_filter_In own (collections d) p Hp Hown) as (q & ->).
  rewrite update_Riddles_detach. cbn [snd].
  unfold db.delete_RiddleCollections. cbv zeta. cbn [collections riddles
    foreign_keys issued with_riddles with_collections].
  rewrite (@detach_as_specified d p (now env) Hd Hp).
  set (after := map _ (riddles d)).
  assert (forall r, In r after ->
            Riddles.collectionId r <> Some (RiddleCollections.id p)) as Hafter.
  { intros r Hr. eapply detached_rows_do_not_reference. exact Hr. }
  assert (existsb (referenced
                     (issued (DELETE, tRiddleCollections)
                        (with_riddles after
                           (issued (UPDATE, tRiddles)
                              (issued (SELECT, tRiddleCollections) d)))))
            (filter own (collections d)) = false) as Hfree.
  { destruct (existsb _ (filter own (collections d))) eqn:E; [|reflexivity].
    apply existsb_exists in E as (c & Hc & Hrefd).
    apply filter_In in Hc as [_ Hc].
    apply owned_collection_iff in Hc as [Hc _].
    unfold referenced in Hrefd. cbn [riddles issued with_riddles] in Hrefd.
    apply existsb_exists in Hrefd as (r & Hr & Er).
    unfold eq in Er. apply eqb_nullable_iff in Er.
    rewrite Hc in Er. now apply Hafter in Hr. }
  rewrite Hfree, andb_false_r.
  eexists. split; [reflexivity|].
  cbn [collections riddles issued with_riddles with_collections].
  assert (delete_where own (collections d) =
          filter (fun q => negb (RiddleCollections.id q =? RiddleCollections.id p))
            (collections d)) as Hc.
  { unfold delete_where. apply filter_ext_in. intros c Hc. unfold own.
    now rewrite (@owns_is_named d p c (consistent_keys Hd) Hp Hc). }
  rewrite Hc. split; [reflexivity|]. split.
  { intros c Hin. apply filter_In in Hin as [_ Hin].
    apply negb_true_iff in Hin. now apply String.eqb_neq. }
  split; [reflexivity|]. split; [exact Hafter|].
  unfold after. rewrite map_map. apply map_ext.
  intros r. destruct (references _ r); reflexivity.
Qed.

Lemma with_piano_reachable fk : reachable fk (with_piano fk).
Proof.
  unfold with_piano, with_logic.
  apply reachable_call; [|reflexivity].
  apply reachable_call; [|reflexivity].
  apply reachable_empty.
Qed.

Lemma delete_collection_detaches_witness :
  reachable true (with_piano true) /\
  exists d',
    deleteRiddleCollection.handler {| deleteRiddleCollection.id := uuid1 |}
      (signed_in "A") (at_ 30%Z uuid3) (with_piano true) = (Returns tt, d') /\
    collections d' =
      filter (fun q => negb (RiddleCollections.id q =? RiddleCollections.id logic_row))
        (collections (with_piano true)) /\
    (forall q, In q (collections d') ->
       RiddleCollections.id q <> RiddleCollections.id logic_row) /\
    riddles d' =
      map (fun r => if references (RiddleCollections.id logic_row) r
                    then detached_row 30%Z r else r)
        (riddles (with_piano true)) /\
    (forall r, In r (riddles d') ->
       Riddles.collectionId r <> Some (RiddleCollections.id logic_row)) /\
    map Riddles.id (riddles d') = map Riddles.id (riddles (with_piano true)).
Proof.
  split; [apply with_piano_reachable|].
  exact (@delete_collection_detaches true (with_piano true) (signed_in "A")
           {| User.id := "A" |} (at_ 30%Z uuid3)
           {| deleteRiddleCollection.id := uuid1 |} logic_row
           (with_piano_reachable true) eq_refl (or_introl eq_refl)
           eq_refl eq_refl).
Defined.

(** ** C3: a reference names a collection of the same owner *)

Lemma references_ok_enforced d :
  foreign_keys d = true -> references_ok d -> all_resolve d.
Proof.
  intros F H r Hr. destruct (H r Hr) as [Hres|[_ E]]; [exact Hres|congruence].
Qed.

(** C3.  With the reference that [tables.ts] declares enforced by the
    store, every riddle of every reachable database that has a
    [collectionId] references an existing collection with the riddle's
    owner.  Every call keeps it so, whatever its input: from a database where
    [id] is a key drawn by [randomUUID] and all references resolve, all
    references resolve after the call. *)
Theorem reference_has_same_owner :
  (forall d, reachable true d -> all_resolve d) /\
  (forall d c context env,
     foreign_keys d = true -> primary_keys d -> uuid_keys d ->
     uuid_shaped (randomUUID env) ->
     all_resolve d ->
     all_resolve (snd (handler c context env d))).
Proof.
  split.
  - intros d H. apply reachable_consistent in H as [[_ _ H] F].
    now apply references_ok_enforced.
  - intros d c context env F Hpk Hk Huuid H.
    assert (consistent d) as Hd.
    { split; trivial. intros r Hr. left. now apply H. }
    apply (@handler_consistent c context env d Huuid) in Hd as [_ _ Hd].
    apply references_ok_enforced; [|exact Hd].
    now rewrite handler_foreign_keys.
Qed.

Lemma reference_has_same_owner_witness :
  reachable true (with_piano true) /\
  In piano_row (riddles (with_piano true)) /\
  resolves (with_piano true) piano_row.
Proof.
  split; [apply with_piano_reachable|]. split; [left; reflexivity|].
  exact (proj1 reference_has_same_owner (with_piano true)
           (with_piano_reachable true) piano_row (or_introl eq_refl)).
Defined.

(** Without enforcement by the store the same calls reach a riddle whose
    reference names no collection: the empty string passes the handler's
    check. *)
Lemma empty_reference_without_enforcement :
  exists d r,
    reachable false d /\ In r (riddles d) /\
    Riddles.collectionId r = Some "" /\ ~ resolves d r.
Proof.
  exists (snd (handler (call_createRiddle (piano_input (Some "")))
                 (signed_in "A") (at_ 20%Z uuid2) (empty false))).
  exists (new_riddle (piano_input (Some "")) {| User.id := "A" |}
            (at_ 20%Z uuid2)).
  split; [apply reachable_call; [apply reachable_empty|reflexivity]|].
  split; [left; reflexivity|]. split; [reflexivity|].
  intros H. destruct (H "" eq_refl) as (p & [] & _).
Qed.

(** ** C4: a collection that is not the caller's *)

(** X21.  For a reference that is not the empty string the check is as
    claimed: a [collectionId] naming no collection of the caller makes
    [createRiddle] and [updateRiddle] throw [FORBIDDEN], both tables as they
    were. *)
Lemma foreign_collection_is_forbidden context u env d c :
  caller context = Some u ->
  c <> "" ->
  no_collection_of (User.id u) c d ->
  (forall i,
     createRiddle.collectionId i = Some c ->
     exists d',
       createRiddle.handler i context env d
       = (Throws (ActionError FORBIDDEN), d') /\ same_tables d d') /\
  (forall i r,
     updateRiddle.collectionId i = Some (Some c) ->
     In r (riddles d) -> Riddles.id r = updateRiddle.id i ->
     Riddles.userId r = User.id u ->
     exists d',
       updateRiddle.handler i context env d
       = (Throws (ActionError FORBIDDEN), d') /\ same_tables d d').
Proof.
  intros H Hne Hno.
  assert (truthy_text (Some c) = true) as T.
  { cbn. apply negb_true_iff. now apply String.eqb_neq. }
  split.
  - intros i Ec. rewrite createRiddle_run with (u := u) by exact H.
    rewrite Ec, T. cbn [nullish].
    rewrite no_collection_of_filter by exact Hno.
    eexists. split; [reflexivity|auto with riddle].
  - intros i r Ec Hr E1 E2.
    rewrite updateRiddle_run with (u := u) by exact H. cbv zeta.
    assert (owns_riddle (updateRiddle.id i) (User.id u) r = true) as Hown
      by (apply owned_riddle_iff; auto).
    destruct (hd_error_filter_In _ (riddles d) r Hr Hown) as (q & ->).
    unfold updateRiddle.checks_collection. rewrite Ec, T. cbn [nullish].
    rewrite no_collection_of_filter by exact Hno.
    eexists. split; [reflexivity|repeat split].
Qed.

(** C4.  The empty string names no collection of user A, yet neither
    [createRiddle] nor [updateRiddle] throws [FORBIDDEN] for it: the check is
    skipped.  Where the store enforces the reference the statement is
    refused by the store; where it does not, the riddle is written with the
    empty string as its [collectionId]. *)
Theorem empty_collectionId_is_not_checked :
  no_collection_of "A" "" (with_piano true) /\
  no_collection_of "A" "" (with_piano false) /\
  fst (createRiddle.handler (piano_input (Some "")) (signed_in "A")
         (at_ 30%Z uuid3) (with_piano true))
  = Throws SQLITE_CONSTRAINT /\
  fst (updateRiddle.handler (move_to (Some "")) (signed_in "A")
         (at_ 30%Z uuid3) (with_piano true))
  = Throws SQLITE_CONSTRAINT /\
  (exists r d',
     createRiddle.handler (piano_input (Some "")) (signed_in "A")
       (at_ 30%Z uuid3) (with_piano false) = (Returns (Some r), d') /\
     Riddles.collectionId r = Some "" /\ In r (riddles d')) /\
  (exists r d',
     updateRiddle.handler (move_to (Some "")) (signed_in "A")
       (at_ 30%Z uuid3) (with_piano false) = (Returns (Some r), d') /\
     Riddles.collectionId r = Some "" /\ In r (riddles d')).
Proof.
  split.
  { intros r [<-|[]] [E _]. discriminate E. }
  split.
  { intros r [<-|[]] [E _]. discriminate E. }
  split; [reflexivity|]. split; [reflexivity|]. split.
  - eexists. eexists. split; [vm_compute; reflexivity|].
    split; [reflexivity|]. right. left. reflexivity.
  - eexists. eexists. split; [vm_compute; reflexivity|].
    split; [reflexivity|]. left. reflexivity.
Qed.

(** ** C7: what the listings return *)

Lemma and_app A (l1 l2 : list (A -> bool)) r :
  and_ (l1 ++ l2) r = and_ l1 r && and_ l2 r.
Proof. unfold and_. apply forallb_app. Qed.

Lemma and_push_if A (t : bool) (c : A -> bool) l r :
  and_ (listMyRiddles.push_if t c l) r = and_ l r && (negb t || c r).
Proof.
  unfold listMyRiddles.push_if. destruct t; cbn [negb orb].
  - rewrite and_app. unfold and_ at 2. cbn. now rewrite andb_true_r.
  - now rewrite andb_true_r.
Qed.

Lemma filters_match i u r :
  and_ (listMyRiddles.filters i u) r = matches_nonempty i (User.id u) r.
Proof.
  unfold listMyRiddles.filters, matches_nonempty. cbv zeta.
  rewrite and_push_if.
  destruct (listMyRiddles.difficulty i) as [l|];
    rewrite ?and_app, !and_push_if.
  all: unfold and_, eq, truthy_text, truthy_flag, nullish; cbn [forallb].
  all: rewrite ?andb_true_r.
  all: destruct (listMyRiddles.collectionId i) as [c|],
         (listMyRiddles.favoritesOnly i) as [[|]|],
         (listMyRiddles.category i) as [c'|];
       cbn [negb orb andb]; rewrite ?negb_involutive, ?andb_true_r;
       try reflexivity.
  all: match goal with
       | |- context [Riddles.isFavorite ?x] => destruct (Riddles.isFavorite x)
       end; reflexivity.
Qed.

Lemma whereClause_filters i u :
  listMyRiddles.whereClause i u = Some (and_ (listMyRiddles.filters i u)).
Proof.
  unfold listMyRiddles.whereClause.
  assert (listMyRiddles.filters i u <> []) as H.
  { unfold listMyRiddles.filters, listMyRiddles.push_if. cbv zeta.
    destruct (truthy_text (listMyRiddles.collectionId i)),
      (truthy_flag _), (listMyRiddles.difficulty i),
      (truthy_text (listMyRiddles.category i)); discriminate. }
  destruct (listMyRiddles.filters i u); [contradiction|reflexivity].
Qed.

Lemma limit_offset_row A (page pageSize : Z) (l : list A) k :
  (1 <= page)%Z -> (0 <= pageSize)%Z ->
  nth_error (limit_offset pageSize ((page - 1) * pageSize) l) k
  = page_row page pageSize l k.
Proof.
  intros Hp Hs. unfold limit_offset, page_row.
  destruct (Z.ltb_spec pageSize 0); [lia|].
  rewrite nth_error_firstn, nth_error_skipn.
  destruct (Nat.ltb_spec k (Z.to_nat pageSize));
    destruct (Z.ltb_spec (Z.of_nat k) pageSize); trivial; lia.
Qed.

Lemma limit_offset_length A (n k : Z) (l : list A) :
  (0 <= n)%Z -> (Z.of_nat (length (limit_offset n k l)) <= n)%Z.
Proof.
  intros Hn. unfold limit_offset.
  destruct (Z.ltb_spec n 0); [lia|].
  pose proof (firstn_le_length (Z.to_nat n) (skipn (Z.to_nat k) l)). lia.
Qed.

(** C7 (as amended).  For a signed-in caller, a page of at least 1 and a
    page size of at least 1, where the page size and the offset
    [(page - 1) * pageSize] are safe integers (at most 2^53 - 1, so that the
    offset is computed exactly and the store takes it), [listMyRiddles]
    returns the page of the caller's riddles that match every filter
    provided and not empty ([collectionId] and [category] when not the empty
    string, [favoritesOnly] when true, [difficulty]): row [k] of the page is
    row [(page - 1) * pageSize + k] of the matching rows in table order, for
    [k] below [pageSize].  [total] is the number of rows in the page, at
    most [pageSize].  [listMyCollections] returns the caller's collections
    in the same way. *)
Theorem listing_returns_the_page context u env d :
  caller context = Some u ->
  (forall i,
     (1 <= listMyRiddles.page i)%Z ->
     (1 <= listMyRiddles.pageSize i <= MAX_SAFE_INTEGER)%Z ->
     ((listMyRiddles.page i - 1) * listMyRiddles.pageSize i
      <= MAX_SAFE_INTEGER)%Z ->
     exists pg d',
       listMyRiddles.handler i context env d = (Returns pg, d') /\
       (forall k,
          nth_error (items pg) k
          = page_row (listMyRiddles.page i) (listMyRiddles.pageSize i)
              (filter (matches_nonempty i (User.id u)) (riddles d)) k) /\
       total pg = length (items pg) /\
       (Z.of_nat (total pg) <= listMyRiddles.pageSize i)%Z) /\
  (forall i,
     (1 <= listMyCollections.page i)%Z ->
     (1 <= listMyCollections.pageSize i <= MAX_SAFE_INTEGER)%Z ->
     ((listMyCollections.page i - 1) * listMyCollections.pageSize i
      <= MAX_SAFE_INTEGER)%Z ->
     exists pg d',
       listMyCollections.handler i context env d = (Returns pg, d') /\
       (forall k,
          nth_error (items pg) k
          = page_row (listMyCollections.page i) (listMyCollections.pageSize i)
              (filter (fun c => RiddleCollections.userId c =? User.id u)
                 (collections d)) k) /\
       total pg = length (items pg) /\
       (Z.of_nat (total pg) <= listMyCollections.pageSize i)%Z).
Proof.
  intros H. split; intros i Hp Hs Ho.
  - rewrite listMyRiddles_run with (u := u) by exact H.
    rewrite whereClause_filters.
    rewrite (filter_ext _ _ (filters_match i u)).
    rewrite paged_safe by assumption. cbn [page_of].
    eexists. eexists. split; [reflexivity|]. cbn [items total].
    split; [|split; [reflexivity|]].
    + intros k. apply limit_offset_row; lia.
    + apply limit_offset_length. lia.
  - rewrite listMyCollections_run with (u := u) by exact H.
    rewrite paged_safe by assumption. cbn [page_of].
    eexists. eexists. split; [reflexivity|]. cbn [items total].
    split; [|split; [reflexivity|]].
    + intros k. apply limit_offset_row; lia.
    + apply limit_offset_length. lia.
Qed.

Lemma listing_returns_the_page_witness :
  caller (signed_in "A") = Some {| User.id := "A" |} /\
  (1 <= listMyRiddles.page (list_input (Some "wordplay") 20))%Z /\
  (1 <= listMyRiddles.pageSize (list_input (Some "wordplay") 20)
   <= MAX_SAFE_INTEGER)%Z /\
  ((listMyRiddles.page (list_input (Some "wordplay") 20) - 1)
   * listMyRiddles.pageSize (list_input (Some "wordplay") 20)
   <= MAX_SAFE_INTEGER)%Z /\
  exists pg d',
    listMyRiddles.handler (list_input (Some "wordplay") 20) (signed_in "A")
      (at_ 30%Z uuid3) (with_piano true) = (Returns pg, d') /\
    (forall k,
       nth_error (items pg) k
       = page_row 1 20
           (filter (matches_nonempty (list_input (Some "wordplay") 20) "A")
              (riddles (with_piano true))) k) /\
    total pg = length (items pg) /\
    (Z.of_nat (total pg) <= 20)%Z.
Proof.
  assert (1 <= 20 <= MAX_SAFE_INTEGER)%Z as Hs by (vm_compute; intuition discriminate).
  assert ((1 - 1) * 20 <= MAX_SAFE_INTEGER)%Z as Ho by (vm_compute; discriminate).
  split; [reflexivity|]. split; [cbn; lia|]. split; [exact Hs|].
  split; [exact Ho|].
  exact (proj1 (@listing_returns_the_page (signed_in "A")
                  {| User.id := "A" |} (at_ 30%Z uuid3)
                  (with_piano true) eq_refl)
           (list_input (Some "wordplay") 20) ltac:(cbn; lia) Hs Ho).
Defined.

(** The claim as worded fails where a filter is provided as the empty
    string: asked for the category [""], [listMyRiddles] returns the riddle
    of category "wordplay", which does not match the filter provided. *)
Lemma empty_filter_is_not_applied :
  exists pg d',
    listMyRiddles.handler (list_input (Some "") 20) (signed_in "A")
      (at_ 30%Z uuid3) (with_piano true) = (Returns pg, d') /\
    In piano_row (items pg) /\
    matches_provided (list_input (Some "") 20) "A" piano_row = false.
Proof.
  eexists. eexists. split; [vm_compute; reflexivity|].
  split; [left; reflexivity|reflexivity].
Qed.

(** [total] counts the page, not the matching rows: two riddles match, the
    page of size 1 reports a total of 1. *)
Lemma total_is_the_page_length :
  length (filter (matches_nonempty (list_input None 1) "A")
            (riddles (with_two true))) = 2 /\
  exists pg d',
    listMyRiddles.handler (list_input None 1) (signed_in "A")
      (at_ 40%Z uuid1) (with_two true) = (Returns pg, d') /\
    total pg = 1.
Proof.
  split; [reflexivity|].
  eexists. eexists. split; [vm_compute; reflexivity|reflexivity].
Qed.

(** ** The scenarios of the specification, run *)

Example scenario_second_default :
  map (fun c => (RiddleCollections.name c, RiddleCollections.isDefault c))
    (collections
       (snd (handler (call_createRiddleCollection wordplay_input)
               (signed_in "A") (at_ 20%Z uuid2) (with_logic true))))
  = [("Logic", false); ("Wordplay", true)].
Proof. reflexivity. Qed.

Example scenario_list_by_collection :
  fst (listMyRiddles.handler
         {| listMyRiddles.collectionId := Some uuid1;
            listMyRiddles.favoritesOnly := None;
            listMyRiddles.difficulty := None;
            listMyRiddles.category := None;
            listMyRiddles.page := 1;
            listMyRiddles.pageSize := 20 |}
         (signed_in "A") (at_ 30%Z uuid3) (with_piano true))
  = Returns {| items := [piano_row]; total := 1 |}.
Proof. reflexivity. Qed.

Example scenario_delete_logic :
  let d' :=
    snd (handler
           (call_deleteRiddleCollection {| deleteRiddleCollection.id := uuid1 |})
           (signed_in "A") (at_ 30%Z uuid3) (with_piano true)) in
  collections d' = [] /\
  map (fun r => (Riddles.answer r, Riddles.collectionId r, Riddles.updatedAt r))
    (riddles d')
  = [("A piano", None, 30%Z)].
Proof. split; reflexivity. Qed.

Example scenario_other_user :
  fst (updateRiddle.handler (hint_only "88 of them") (signed_in "B")
         (at_ 30%Z uuid3) (with_piano true))
  = Throws (ActionError NOT_FOUND).
Proof. reflexivity. Qed.

(** * Further properties of the handlers *)

(** ** What one call does to the riddles *)

Lemma only_collections_riddles d d' l :
  only_collections d d' l -> riddles d' = riddles d.
Proof. now intros (_ & H & _). Qed.

Lemma insert_RiddleCollections_riddles r d :
  riddles (snd (db.insert_RiddleCollections r d)) = riddles d.
Proof.
  destruct (insert_RiddleCollections_cases r d) as [[e ->]|(_ & d' & -> & H)];
    [reflexivity|]. exact (only_collections_riddles H).
Qed.

Lemma delete_RiddleCollections_riddles c d :
  riddles (snd (db.delete_RiddleCollections c d)) = riddles d.
Proof.
  destruct (delete_RiddleCollections_cases c d) as [[e ->]|(d' & -> & H)];
    [reflexivity|]. exact (only_collections_riddles H).
Qed.

Lemma handler_riddles_change c context env d :
  riddles_change context env (riddles d)
    (riddles (snd (handler c context env d))).
Proof.
  destruct (caller context) as [u|] eqn:H;
    [|rewrite handler_unauthorized by exact H; now apply riddles_kept].
  destruct c; unfold handler; rewrite snd_fmap.
  - rewrite createRiddleCollection_run with (u := u) by exact H.
    rewrite snd_first_row, insert_RiddleCollections_riddles.
    apply riddles_kept. now destruct (truthy_flag _).
  - rewrite updateRiddleCollection_run with (u := u) by exact H. cbv zeta.
    apply riddles_kept.
    destruct (hd_error _); [|reflexivity].
    rewrite snd_first_row. now destruct (truthy_flag _).
  - rewrite deleteRiddleCollection_run with (u := u) by exact H. cbv zeta.
    destruct (hd_error _); [|now apply riddles_kept].
    rewrite delete_RiddleCollections_riddles, update_Riddles_detach.
    eapply riddles_updated; [reflexivity|exact H|].
    intros q Hq. now apply attached_riddle_iff in Hq.
  - rewrite createRiddle_run with (u := u) by exact H.
    assert (forall d0, riddles d0 = riddles d ->
              riddles_change context env (riddles d)
                (riddles (snd (first_row
                                 (db.insert_Riddles (new_riddle i u env) d0)))))
      as Hwrite.
    { intros d0 E. rewrite snd_first_row.
      destruct (insert_Riddles_cases (new_riddle i u env) d0)
        as [[e ->]|(d2 & -> & (_ & _ & R) & Hfresh & _)].
      - apply riddles_kept. exact E.
      - apply riddles_inserted with (r := new_riddle i u env).
        + cbn [snd]. now rewrite R, E.
        + split; [reflexivity|]. exists u. now split.
        + now rewrite <- E. }
    destruct (truthy_text _); [|now apply Hwrite].
    destruct (hd_error _); [now apply Hwrite|now apply riddles_kept].
  - rewrite updateRiddle_run with (u := u) by exact H. cbv zeta.
    destruct (hd_error (filter _ (riddles d))); [|now apply riddles_kept].
    assert (forall d0, riddles d0 = riddles d ->
              riddles_change context env (riddles d)
                (riddles (snd (first_row
                   (db.update_Riddles (updateRiddle.updateData i (now env))
                      (owns_riddle (updateRiddle.id i) (User.id u)) d0)))))
      as Hwrite.
    { intros d0 E. rewrite snd_first_row.
      destruct (update_Riddles_cases (updateRiddle.updateData i (now env))
                  (owns_riddle (updateRiddle.id i) (User.id u)) d0)
        as [[e ->]|(d2 & -> & (_ & _ & R) & _)].
      - apply riddles_kept. exact E.
      - eapply riddles_updated; [cbn [snd]; now rewrite R, E|exact H|].
        intros q Hq. now apply owned_riddle_iff in Hq. }
    destruct (updateRiddle.checks_collection i); [|now apply Hwrite].
    destruct (hd_error _); [now apply Hwrite|now apply riddles_kept].
  - rewrite deleteRiddle_run with (u := u) by exact H.
    destruct (hd_error _); [|now apply riddles_kept].
    eapply riddles_deleted; [reflexivity|exact H|].
    intros q Hq. now apply owned_riddle_iff in Hq.
  - rewrite listMyCollections_run with (u := u) by exact H.
    apply riddles_kept. apply paged_same_tables.
  - rewrite listMyRiddles_run with (u := u) by exact H.
    apply riddles_kept. apply paged_same_tables.
Qed.

(** ** A call leaves the rows of the other users alone *)

Lemma filter_update_where_others A (q c : A -> bool) (f : A -> A) l :
  (forall r, c r = true -> q r = false /\ q (f r) = false) ->
  filter q (update_where f c l) = filter q l.
Proof.
  intros H. unfold update_where. induction l as [|a l IH]; [reflexivity|].
  cbn [map filter]. rewrite IH. destruct (c a) eqn:E; [|reflexivity].
  destruct (H a E) as [-> ->]. reflexivity.
Qed.

Lemma filter_delete_where_others A (q c : A -> bool) l :
  (forall r, c r = true -> q r = false) ->
  filter q (delete_where c l) = filter q l.
Proof.
  intros H. unfold delete_where. induction l as [|a l IH]; [reflexivity|].
  cbn [filter]. destruct (c a) eqn:E; cbn [negb filter]; rewrite IH.
  - now rewrite (H a E).
  - reflexivity.
Qed.

Lemma not_other u v : u = v -> negb (u =? v) = false.
Proof. intros ->. now rewrite String.eqb_refl. Qed.

Lemma statement_others u env d d' :
  statement u env d d' ->
  collections_of_others u d' = collections_of_others u d /\
  riddles_of_others u d' = riddles_of_others u d.
Proof.
  unfold collections_of_others, riddles_of_others.
  destruct 1 as [(_ & C & R)|t (_ & R & C)|r (_ & R & C) _ _ Eu _
                |p x (_ & R & C) _|x (_ & R & C) _
                |t x (_ & C & R)|r (_ & C & R) Eu _|p x (_ & C & R) _
                |x (_ & C & R)];
    rewrite C, R; split; trivial.
  - apply filter_update_where_others. intros q Hq.
    unfold eq in Hq. apply eqb_text_iff in Hq.
    split; apply not_other; exact Hq.
  - rewrite filter_app. cbn. rewrite (not_other Eu). apply app_nil_r.
  - apply filter_update_where_others. intros q Hq.
    apply owned_collection_iff in Hq as [_ Hq].
    split; apply not_other; exact Hq.
  - apply filter_delete_where_others. intros q Hq.
    apply owned_collection_iff in Hq as [_ Hq]. now apply not_other.
  - apply filter_update_where_others. intros q Hq.
    apply attached_riddle_iff in Hq as [_ Hq].
    split; apply not_other; exact Hq.
  - rewrite filter_app. cbn. rewrite (not_other Eu). apply app_nil_r.
  - apply filter_update_where_others. intros q Hq.
    apply owned_riddle_iff in Hq as [_ Hq].
    split; apply not_other; exact Hq.
  - apply filter_delete_where_others. intros q Hq.
    apply owned_riddle_iff in Hq as [_ Hq]. now apply not_other.
Qed.

Lemma statements_others u env d d' :
  statements u env d d' ->
  collections_of_others u d' = collections_of_others u d /\
  riddles_of_others u d' = riddles_of_others u d.
Proof.
  induction 1 as [d|d1 d2 d3 Hst _ [IH1 IH2]]; [now split|].
  destruct (statement_others Hst) as [E1 E2]. split; congruence.
Qed.

(** X1.  Whatever a signed-in caller calls, with whatever input, and whether
    the call returns or throws, the collections and the riddles of every
    other user are afterwards exactly what they were, in the same order. *)
Theorem other_users_rows_are_untouched c context u env d :
  caller context = Some u ->
  collections_of_others (User.id u) (snd (handler c context env d))
  = collections_of_others (User.id u) d /\
  riddles_of_others (User.id u) (snd (handler c context env d))
  = riddles_of_others (User.id u) d.
Proof.
  intros H. pose proof (handler_statements c context env d) as Hs.
  rewrite H in Hs. exact (statements_others Hs).
Qed.

Lemma other_users_rows_are_untouched_witness :
  caller (signed_in "B") = Some {| User.id := "B" |} /\
  collections_of_others "B"
    (snd (handler (call_createRiddleCollection wordplay_input) (signed_in "B")
            (at_ 30%Z uuid3) (with_piano true)))
  = collections_of_others "B" (with_piano true) /\
  riddles_of_others "B"
    (snd (handler (call_createRiddleCollection wordplay_input) (signed_in "B")
            (at_ 30%Z uuid3) (with_piano true)))
  = riddles_of_others "B" (with_piano true).
Proof.
  split; [reflexivity|].
  exact (@other_users_rows_are_untouched
           (call_createRiddleCollection wordplay_input) (signed_in "B")
           {| User.id := "B" |} (at_ 30%Z uuid3) (with_piano true) eq_refl).
Defined.

(** ** Identifier, owner and creation time never change *)

Lemma same_collection_refl r : same_collection r r.
Proof. repeat split. Qed.

Lemma same_collection_assign p r :
  same_collection r (RiddleCollections.assign p r).
Proof. repeat split. Qed.

Lemma same_collection_trans r1 r2 r3 :
  same_collection r1 r2 -> same_collection r2 r3 -> same_collection r1 r3.
Proof.
  unfold same_collection. intros (A1 & A2 & A3) (B1 & B2 & B3).
  repeat split; congruence.
Qed.

Lemma statement_collection_identity u env d d' r' :
  statement u env d d' -> In r' (collections d') ->
  (exists r, In r (collections d) /\ same_collection r r') \/
  (RiddleCollections.id r' = randomUUID env /\
   RiddleCollections.userId r' = u).
Proof.
  destruct 1 as [(_ & C & _)|t (_ & _ & C)|r (_ & _ & C) _ Eid Eu _
                |p x (_ & _ & C) _|x (_ & _ & C) _
                |t x (_ & C & _)|r (_ & C & _) _ _|p x (_ & C & _) _
                |x (_ & C & _)];
    rewrite C; intros Hin;
    try (left; exists r'; split; [exact Hin|apply same_collection_refl]).
  - apply In_update_where_inv in Hin as (q & Hq & ->). left. exists q.
    split; [exact Hq|]. destruct (eq _ _ q);
      [apply same_collection_assign|apply same_collection_refl].
  - apply in_app_iff in Hin as [Hin|[<-|[]]]; [|now right].
    left. exists r'. split; [exact Hin|apply same_collection_refl].
  - apply In_update_where_inv in Hin as (q & Hq & ->). left. exists q.
    split; [exact Hq|]. destruct (owns_collection _ _ q);
      [apply same_collection_assign|apply same_collection_refl].
  - apply filter_In in Hin as [Hin _]. left. exists r'.
    split; [exact Hin|apply same_collection_refl].
Qed.

Lemma statements_collection_identity u env d d' :
  statements u env d d' ->
  forall r', In r' (collections d') ->
    (exists r, In r (collections d) /\ same_collection r r') \/
    (RiddleCollections.id r' = randomUUID env /\
     RiddleCollections.userId r' = u).
Proof.
  induction 1 as [d|d1 d2 d3 Hst _ IH]; intros r' Hin.
  - left. exists r'. split; [exact Hin|apply same_collection_refl].
  - destruct (IH r' Hin) as [(r2 & H2 & S2)|Hnew]; [|now right].
    destruct (@statement_collection_identity u env d1 d2 r2 Hst H2)
      as [(r1 & H1 & S1)|[E1 E2]].
    + left. exists r1. split; [exact H1|].
      now apply same_collection_trans with (r2 := r2).
    + right. destruct S2 as (A1 & A2 & _). split; congruence.
Qed.

Lemma riddles_change_identity context env l l' r' :
  riddles_change context env l l' -> In r' l' ->
  (exists r, In r l /\ same_riddle r r') \/
  drawn_by context env (Riddles.id r') (Riddles.userId r').
Proof.
  destruct 1 as [->|p c u -> _ _|c u -> _ _|r -> Hnew _]; intros Hin.
  - left. exists r'. repeat split. exact Hin.
  - apply In_update_where_inv in Hin as (q & Hq & ->). left. exists q.
    split; [exact Hq|]. destruct (c q); repeat split.
  - apply filter_In in Hin as [Hin _]. left. exists r'. repeat split.
    exact Hin.
  - apply in_app_iff in Hin as [Hin|[<-|[]]]; [|now right].
    left. exists r'. repeat split. exact Hin.
Qed.

(** X2.  After any call, every row of either table is a row that was there
    before, with the same [id], [userId] and [createdAt], or a row written by
    this call under the identifier it drew and owned by its caller: no call
    changes the identifier, the owner or the creation time of a row. *)
Theorem rows_keep_id_owner_and_creation c context env d :
  (forall r', In r' (collections (snd (handler c context env d))) ->
     (exists r, In r (collections d) /\ same_collection r r') \/
     drawn_by context env (RiddleCollections.id r')
       (RiddleCollections.userId r')) /\
  (forall r', In r' (riddles (snd (handler c context env d))) ->
     (exists r, In r (riddles d) /\ same_riddle r r') \/
     drawn_by context env (Riddles.id r') (Riddles.userId r')).
Proof.
  split; intros r' Hin.
  - pose proof (handler_statements c context env d) as Hs.
    destruct (caller context) as [u|] eqn:H.
    + destruct (statements_collection_identity Hs r' Hin)
        as [Hold|[E1 E2]]; [now left|right].
      split; [exact E1|]. exists u. now split.
    + rewrite Hs in Hin. left. exists r'.
      split; [exact Hin|apply same_collection_refl].
  - eapply riddles_change_identity; [apply handler_riddles_change|exact Hin].
Qed.

(** ** Invariants of every reachable database *)

Lemma riddles_change_keys context env l l' :
  riddles_change context env l l' ->
  NoDup (map Riddles.id l) -> NoDup (map Riddles.id l').
Proof.
  destruct 1 as [->|p c u -> _ _|c u -> _ _|r -> _ Hfresh]; intros H; trivial.
  - unfold update_where. rewrite map_map.
    erewrite map_ext; [exact H|]. intros q. now destruct (c q).
  - now apply NoDup_map_filter.
  - rewrite map_app. cbn.
    apply NoDup_app; [exact H|repeat constructor; intros []|].
    intros k Hk [<-|[]]. apply in_map_iff in Hk as (q & Eq & Hq).
    assert (existsb (fun x => Riddles.id x =? Riddles.id r) l = true) as E.
    { apply existsb_exists. exists q. split; [exact Hq|].
      now apply String.eqb_eq. }
    congruence.
Qed.

Lemma riddles_change_uuids context env l l' :
  uuid_shaped (randomUUID env) ->
  riddles_change context env l l' ->
  (forall r, In r l -> uuid_shaped (Riddles.id r)) ->
  forall r, In r l' -> uuid_shaped (Riddles.id r).
Proof.
  intros Huuid Hc H r' Hin.
  destruct (@riddles_change_identity context env l l' r' Hc Hin)
    as [(r & Hr & E & _)|[E _]].
  - rewrite E. now apply H.
  - now rewrite E.
Qed.

(** X3.  In every reachable database no two collections share an [id], no
    two riddles share an [id], and every [id] in either table has the shape
    of a UUID (36 characters, so never the empty string). *)
Theorem reachable_keys fk d :
  reachable fk d ->
  primary_keys d /\ riddle_keys d /\ uuid_keys d /\ uuid_riddle_keys d.
Proof.
  intros H. pose proof (reachable_consistent H) as [[H1 H2 _] _].
  split; [exact H1|]. split; [|split; [exact H2|]].
  - clear H1 H2. induction H as [|d c context env _ IH Huuid].
    + constructor.
    + eapply riddles_change_keys; [apply handler_riddles_change|exact IH].
  - clear H1 H2. induction H as [|d c context env _ IH Huuid].
    + intros r [].
    + intros r Hr.
      eapply riddles_change_uuids;
        [exact Huuid|apply handler_riddles_change|exact IH|exact Hr].
Qed.

Lemma reachable_keys_witness :
  reachable true (with_two true) /\
  primary_keys (with_two true) /\ riddle_keys (with_two true) /\
  uuid_keys (with_two true) /\ uuid_riddle_keys (with_two true).
Proof.
  assert (reachable true (with_two true)) as H.
  { unfold with_two. apply reachable_call; [|reflexivity].
    apply with_piano_reachable. }
  split; [exact H|]. exact (reachable_keys H).
Defined.

(** X4.  In every reachable database every user has at most one default
    collection. *)
Theorem reachable_single_default fk d v :
  reachable fk d -> at_most_one_default v d.
Proof.
  induction 1 as [|d c context env Hr IH Huuid].
  - unfold at_most_one_default. cbn. lia.
  - pose proof (handler_statements c context env d) as Hs.
    destruct (caller context) as [u|]; [|now rewrite Hs].
    apply reachable_consistent in Hr as [[Hpk _ _] _].
    eapply statements_at_most_one_default; eassumption.
Qed.

Lemma reachable_single_default_witness :
  reachable true (with_two true) /\ at_most_one_default "A" (with_two true).
Proof.
  assert (reachable true (with_two true)) as H.
  { unfold with_two. apply reachable_call; [|reflexivity].
    apply with_piano_reachable. }
  split; [exact H|]. exact (reachable_single_default "A" H).
Defined.

(** ** A call that throws an [ActionError] has written nothing *)

Lemma fmap_throws A B (f : A -> B) (m : Action A) d e d' :
  fmap f m d = (Throws e, d') -> m d = (Throws e, d').
Proof.
  rewrite fmap_run. destruct (m d) as [[a|e0] d0]; [discriminate|].
  now intros [= -> ->].
Qed.

Lemma fmap_returns A B (f : A -> B) (m : Action A) d b d' :
  fmap f m d = (Returns b, d') -> exists a, m d = (Returns a, d') /\ b = f a.
Proof.
  rewrite fmap_run. destruct (m d) as [[a|e0] d0]; [|discriminate].
  intros [= <- <-]. eauto.
Qed.

Lemma first_row_throws A (r : Outcome (list A) * Database) e d' :
  first_row r = (Throws e, d') -> r = (Throws e, d').
Proof.
  destruct r as [[l|e0] d0]; cbn; [discriminate|now intros [= -> ->]].
Qed.

Lemma insert_RiddleCollections_throws r d e d' :
  db.insert_RiddleCollections r d = (Throws e, d') ->
  e = SQLITE_CONSTRAINT /\ d' = issued (INSERT, tRiddleCollections) d /\
  has_collection d (RiddleCollections.id r) = true.
Proof.
  unfold db.insert_RiddleCollections. cbv zeta.
  change (has_collection (issued (INSERT, tRiddleCollections) d))
    with (has_collection d).
  destruct (has_collection d _); [|discriminate].
  now intros [= <- <-].
Qed.

Lemma delete_RiddleCollections_throws c d e d' :
  db.delete_RiddleCollections c d = (Throws e, d') ->
  e = SQLITE_CONSTRAINT /\ d' = issued (DELETE, tRiddleCollections) d.
Proof.
  unfold db.delete_RiddleCollections. cbv zeta.
  destruct (_ && _); [|discriminate]. now intros [= <- <-].
Qed.

Lemma insert_Riddles_throws r d e d' :
  db.insert_Riddles r d = (Throws e, d') ->
  e = SQLITE_CONSTRAINT /\ d' = issued (INSERT, tRiddles) d.
Proof.
  unfold db.insert_Riddles. cbv zeta.
  destruct (existsb _ _); [now intros [= <- <-]|].
  destruct (_ && _); [|discriminate]. now intros [= <- <-].
Qed.

Lemma update_Riddles_throws_constraint p c d e d' :
  db.update_Riddles p c d = (Throws e, d') ->
  e = SQLITE_CONSTRAINT /\ d' = issued (UPDATE, tRiddles) d.
Proof.
  unfold db.update_Riddles. cbv zeta.
  destruct (_ && _ && _); [|discriminate]. now intros [= <- <-].
Qed.

Lemma only_reads_none d : only_reads d d.
Proof.
  split; [apply same_tables_refl|]. exists []. split; [|constructor].
  unfold issued_between. now rewrite app_nil_r.
Qed.

Lemma only_reads_one d t : only_reads d (issued (SELECT, t) d).
Proof.
  split; [apply same_tables_issued|]. exists [(SELECT, t)].
  split; [reflexivity|]. repeat constructor.
Qed.

Lemma only_reads_two d t1 t2 :
  only_reads d (issued (SELECT, t2) (issued (SELECT, t1) d)).
Proof.
  split; [repeat split|]. exists [(SELECT, t1); (SELECT, t2)].
  split; [|repeat constructor].
  unfold issued_between. cbn. now rewrite <- app_assoc.
Qed.

(** X5.  A call that throws an [ActionError], whatever its code
    ([UNAUTHORIZED], [NOT_FOUND] or [FORBIDDEN]), has issued nothing but
    [SELECT] statements and leaves both tables as they were: every handler
    throws before its first write. *)
Theorem action_error_writes_nothing c context env d code d' :
  handler c context env d = (Throws (ActionError code), d') ->
  only_reads d d'.
Proof.
  destruct (caller context) as [u|] eqn:H.
  2:{ rewrite handler_unauthorized by exact H. intros [= _ <-].
      apply only_reads_none. }
  destruct c; unfold handler; intros Hr; apply fmap_throws in Hr; revert Hr.
  - rewrite createRiddleCollection_run with (u := u) by exact H.
    intros Hr. apply first_row_throws in Hr.
    apply insert_RiddleCollections_throws in Hr as [Hr _]. discriminate Hr.
  - rewrite updateRiddleCollection_run with (u := u) by exact H. cbv zeta.
    destruct (hd_error _).
    + intros Hr. apply first_row_throws in Hr. discriminate Hr.
    + intros [= _ <-]. apply only_reads_one.
  - rewrite deleteRiddleCollection_run with (u := u) by exact H. cbv zeta.
    destruct (hd_error _).
    + intros Hr. apply delete_RiddleCollections_throws in Hr as [Hr _].
      discriminate Hr.
    + intros [= _ <-]. apply only_reads_one.
  - rewrite createRiddle_run with (u := u) by exact H.
    destruct (truthy_text _); [destruct (hd_error _)|].
    + intros Hr. apply first_row_throws in Hr.
      apply insert_Riddles_throws in Hr as [Hr _]. discriminate Hr.
    + intros [= _ <-]. apply only_reads_one.
    + intros Hr. apply first_row_throws in Hr.
      apply insert_Riddles_throws in Hr as [Hr _]. discriminate Hr.
  - rewrite updateRiddle_run with (u := u) by exact H. cbv zeta.
    destruct (hd_error (filter _ (riddles d)));
      [|intros [= _ <-]; apply only_reads_one].
    destruct (updateRiddle.checks_collection i); [destruct (hd_error _)|].
    + intros Hr. apply first_row_throws in Hr.
      apply update_Riddles_throws_constraint in Hr as [Hr _]. discriminate Hr.
    + intros [= _ <-]. apply only_reads_two.
    + intros Hr. apply first_row_throws in Hr.
      apply update_Riddles_throws_constraint in Hr as [Hr _]. discriminate Hr.
  - rewrite deleteRiddle_run with (u := u) by exact H.
    destruct (hd_error _); [discriminate|].
    intros [= _ <-]. apply only_reads_one.
  - rewrite listMyCollections_run with (u := u) by exact H.
    intros Hr. now apply paged_never_action_error in Hr.
  - rewrite listMyRiddles_run with (u := u) by exact H.
    intros Hr. now apply paged_never_action_error in Hr.
Qed.

Lemma action_error_writes_nothing_witness :
  exists d',
    handler (call_updateRiddle (move_to (Some uuid3))) (signed_in "A")
      (at_ 30%Z uuid3) (with_piano true)
    = (Throws (ActionError FORBIDDEN), d') /\
    only_reads (with_piano true) d'.
Proof.
  eexists. split; [vm_compute; reflexivity|].
  eapply (@action_error_writes_nothing
            (call_updateRiddle (move_to (Some uuid3))) (signed_in "A")
            (at_ 30%Z uuid3) (with_piano true) FORBIDDEN).
  vm_compute. reflexivity.
Defined.

(** ** Statements are not rolled back *)

Lemma attached_is_in_collection_of x u r :
  attached_to x u r = in_collection_of x u r.
Proof.
  unfold attached_to, and_, eq, in_collection_of, references. cbn.
  rewrite andb_true_r. reflexivity.
Qed.

(** X6.  [deleteRiddleCollection] issues its three statements in the order
    SELECT, UPDATE (detach), DELETE.  When the store refuses the DELETE, the
    call throws with the collection still there and the caller's riddles
    already detached from it: the UPDATE is not undone.  Likewise, when
    [createRiddleCollection] is called with [isDefault: true] and the store
    refuses the INSERT, the caller is left without any default collection. *)
Theorem refused_statement_keeps_earlier_writes context u env d :
  caller context = Some u ->
  (forall i d',
     deleteRiddleCollection.handler i context env d = (Returns tt, d') ->
     issued_between d d'
       [(SELECT, tRiddleCollections); (UPDATE, tRiddles);
        (DELETE, tRiddleCollections)]) /\
  (forall i e d',
     deleteRiddleCollection.handler i context env d = (Throws e, d') ->
     e <> ActionError NOT_FOUND ->
     e = SQLITE_CONSTRAINT /\
     collections d' = collections d /\
     riddles d' =
       map (fun r =>
              if in_collection_of (deleteRiddleCollection.id i) (User.id u) r
              then detached_row (now env) r else r) (riddles d) /\
     issued_between d d'
       [(SELECT, tRiddleCollections); (UPDATE, tRiddles);
        (DELETE, tRiddleCollections)]) /\
  (forall i e d',
     createRiddleCollection.isDefault i = Some true ->
     createRiddleCollection.handler i context env d = (Throws e, d') ->
     e = SQLITE_CONSTRAINT /\
     has_collection d (randomUUID env) = true /\
     defaults_of (User.id u) d' = [] /\
     length (collections d') = length (collections d)).
Proof.
  intros H. split; [|split].
  - intros i d'.
    rewrite deleteRiddleCollection_run with (u := u) by exact H. cbv zeta.
    destruct (hd_error _); [|discriminate].
    rewrite update_Riddles_detach. cbn [snd].
    unfold db.delete_RiddleCollections. cbv zeta.
    destruct (_ && _); [discriminate|].
    intros [= <-]. unfold issued_between. cbn.
    now rewrite <- !app_assoc.
  - intros i e d'.
    rewrite deleteRiddleCollection_run with (u := u) by exact H. cbv zeta.
    destruct (hd_error _); [|intros [= <- _] Hne; now contradiction Hne].
    rewrite update_Riddles_detach. cbn [snd].
    intros Hr _. apply delete_RiddleCollections_throws in Hr as [-> ->].
    split; [reflexivity|]. split; [reflexivity|]. split.
    + cbn [riddles issued with_riddles]. unfold update_where.
      apply map_ext. intros q. now rewrite attached_is_in_collection_of.
    + unfold issued_between. cbn. now rewrite <- !app_assoc.
  - intros i e d' Ed.
    rewrite createRiddleCollection_run with (u := u) by exact H.
    rewrite Ed. cbn [truthy_flag]. intros Hr.
    apply first_row_throws in Hr.
    apply insert_RiddleCollections_throws in Hr as (-> & -> & Hc).
    split; [reflexivity|]. split; [|split].
    + apply has_collection_iff in Hc as (p & Hp & Ep).
      cbn [collections snd db.update_RiddleCollections issued
             with_collections] in Hp.
      apply In_update_where_inv in Hp as (q & Hq & ->).
      apply has_collection_iff. exists q. split; [exact Hq|].
      destruct (eq _ _ q); exact Ep.
    + unfold defaults_of. cbn. apply cleared_defaults.
    + cbn. unfold update_where. apply length_map.
Qed.

Lemma refused_statement_keeps_earlier_writes_witness :
  caller (signed_in "A") = Some {| User.id := "A" |} /\
  exists d',
    deleteRiddleCollection.handler {| deleteRiddleCollection.id := uuid1 |}
      (signed_in "A") (at_ 30%Z uuid2) (with_alien true)
    = (Throws SQLITE_CONSTRAINT, d') /\
    collections d' = collections (with_alien true) /\
    riddles d' =
      map (fun r => if in_collection_of uuid1 "A" r
                    then detached_row 30%Z r else r)
        (riddles (with_alien true)).
Proof.
  split; [reflexivity|].
  eexists. split; [vm_compute; reflexivity|].
  destruct (proj1 (proj2 (@refused_statement_keeps_earlier_writes
                            (signed_in "A") {| User.id := "A" |}
                            (at_ 30%Z uuid2) (with_alien true) eq_refl))
              {| deleteRiddleCollection.id := uuid1 |} SQLITE_CONSTRAINT _
              eq_refl) as (_ & Hc & Hr & _); [discriminate|].
  split; [exact Hc|exact Hr].
Defined.

(** ** [createRiddle] and [deleteRiddle] *)

Lemma fresh_riddle_key l k :
  (forall r, In r l -> Riddles.id r <> k) ->
  existsb (fun x => Riddles.id x =? k) l = false.
Proof.
  intros H. destruct (existsb _ l) eqn:E; [|reflexivity].
  apply existsb_exists in E as (r & Hr & E).
  apply String.eqb_eq in E. now apply H in Hr.
Qed.

Lemma fresh_riddle_key_inv l k r :
  existsb (fun x => Riddles.id x =? k) l = false ->
  In r l -> Riddles.id r <> k.
Proof.
  intros E Hr Ek.
  assert (existsb (fun x => Riddles.id x =? k) l = true) as E'.
  { apply existsb_exists. exists r. split; [exact Hr|].
    now apply String.eqb_eq. }
  congruence.
Qed.

Lemma insert_Riddles_succeeds r d :
  existsb (fun x => Riddles.id x =? Riddles.id r) (riddles d) = false ->
  (foreign_keys d = true -> dangling d r = false) ->
  db.insert_Riddles r d
  = (Returns [r], with_riddles (riddles d ++ [r]) (issued (INSERT, tRiddles) d)).
Proof.
  intros Hk Hfk. unfold db.insert_Riddles. cbv zeta.
  change (riddles (issued (INSERT, tRiddles) d)) with (riddles d).
  change (foreign_keys (issued (INSERT, tRiddles) d)) with (foreign_keys d).
  change (dangling (issued (INSERT, tRiddles) d)) with (dangling d).
  rewrite Hk. destruct (foreign_keys d); [|reflexivity].
  now rewrite Hfk.
Qed.

Lemma new_riddle_written i u env :
  riddle_written i (User.id u) env (new_riddle i u env).
Proof.
  unfold riddle_written. cbn.
  repeat split;
    match goal with
    | |- context [match ?x with _ => _ end] => destruct x; reflexivity
    end.
Qed.

Lemma createRiddle_returns i context u env d res d' :
  caller context = Some u ->
  createRiddle.handler i context env d = (Returns res, d') ->
  res = Some (new_riddle i u env) /\
  riddles d' = riddles d ++ [new_riddle i u env] /\
  collections d' = collections d /\
  foreign_keys d' = foreign_keys d /\
  existsb (fun x => Riddles.id x =? randomUUID env) (riddles d) = false.
Proof.
  intros H. rewrite createRiddle_run with (u := u) by exact H.
  assert (forall d0, same_tables d d0 ->
            first_row (db.insert_Riddles (new_riddle i u env) d0)
            = (Returns res, d') ->
            res = Some (new_riddle i u env) /\
            riddles d' = riddles d ++ [new_riddle i u env] /\
            collections d' = collections d /\
            foreign_keys d' = foreign_keys d /\
            existsb (fun x => Riddles.id x =? randomUUID env) (riddles d)
            = false) as Hwrite.
  { intros d0 (F & C & R) Hr.
    apply first_row_returns in Hr as (l & Hl & ->).
    destruct (insert_Riddles_cases (new_riddle i u env) d0)
      as [[e He]|(d2 & Hd2 & (F2 & C2 & R2) & Hfresh & _)]; [congruence|].
    rewrite Hd2 in Hl. injection Hl as <- <-.
    rewrite R in Hfresh, R2. repeat split; try congruence. exact Hfresh. }
  destruct (truthy_text _); [|apply Hwrite; auto with riddle].
  destruct (hd_error _); [|discriminate].
  apply Hwrite; auto with riddle.
Qed.

(** X7.  [createRiddle] returns whenever the caller is signed in, the
    identifier drawn is not yet a riddle's, and the [collectionId], if one is
    supplied, names a collection of the caller.  The riddle returned is
    appended to the table, the other rows and the collections are as they
    were, and it holds the supplied values, [false] for [isFavorite] and
    [isPublic] when left out, and the time of the call as [createdAt] and
    [updatedAt]. *)
Theorem createRiddle_succeeds context u env d i :
  caller context = Some u ->
  (forall r, In r (riddles d) -> Riddles.id r <> randomUUID env) ->
  (forall c, createRiddle.collectionId i = Some c ->
     exists p, In p (collections d) /\
               RiddleCollections.id p = c /\
               RiddleCollections.userId p = User.id u) ->
  exists r d',
    createRiddle.handler i context env d = (Returns (Some r), d') /\
    riddles d' = riddles d ++ [r] /\
    collections d' = collections d /\
    riddle_written i (User.id u) env r.
Proof.
  intros H Hfresh Hc.
  assert (forall d0, same_tables d d0 ->
            exists d',
              first_row (db.insert_Riddles (new_riddle i u env) d0)
              = (Returns (Some (new_riddle i u env)), d') /\
              riddles d' = riddles d ++ [new_riddle i u env] /\
              collections d' = collections d) as Hwrite.
  { intros d0 (F & C & R).
    rewrite insert_Riddles_succeeds.
    - eexists. split; [reflexivity|]. cbn. split; congruence.
    - rewrite R. now apply fresh_riddle_key.
    - intros _. unfold dangling. cbn [Riddles.collectionId new_riddle].
      destruct (createRiddle.collectionId i) as [c|]; [|reflexivity].
      destruct (Hc c eq_refl) as (p & Hp & Ep & _).
      apply negb_false_iff. apply has_collection_iff. exists p.
      split; [|exact Ep]. now rewrite C. }
  exists (new_riddle i u env).
  rewrite createRiddle_run with (u := u) by exact H.
  destruct (createRiddle.collectionId i) as [c|] eqn:Ec; cbn [truthy_text];
    [destruct (negb (c =? "")) eqn:T|].
  - cbn [nullish]. destruct (Hc c eq_refl) as (p & Hp & Ep1 & Ep2).
    assert (owns_collection c (User.id u) p = true) as Hown
      by (apply owned_collection_iff; auto).
    destruct (hd_error_filter_In _ (collections d) p Hp Hown) as (q & ->).
    destruct (Hwrite (issued (SELECT, tRiddleCollections) d))
      as (d' & E & R & C); [auto with riddle|].
    exists d'. split; [exact E|].
    split; [exact R|]. split; [exact C|]. apply new_riddle_written.
  - destruct (Hwrite d) as (d' & E & R & C); [auto with riddle|].
    exists d'. split; [exact E|].
    split; [exact R|]. split; [exact C|]. apply new_riddle_written.
  - destruct (Hwrite d) as (d' & E & R & C); [auto with riddle|].
    exists d'. split; [exact E|].
    split; [exact R|]. split; [exact C|]. apply new_riddle_written.
Qed.

Lemma createRiddle_succeeds_witness :
  caller (signed_in "A") = Some {| User.id := "A" |} /\
  exists r d',
    createRiddle.handler (piano_input (Some uuid1)) (signed_in "A")
      (at_ 20%Z uuid2) (with_logic true) = (Returns (Some r), d') /\
    riddles d' = riddles (with_logic true) ++ [r] /\
    collections d' = collections (with_logic true) /\
    riddle_written (piano_input (Some uuid1)) "A" (at_ 20%Z uuid2) r.
Proof.
  split; [reflexivity|].
  apply (@createRiddle_succeeds (signed_in "A") {| User.id := "A" |}
           (at_ 20%Z uuid2) (with_logic true) (piano_input (Some uuid1))
           eq_refl).
  - intros r [].
  - intros c [= <-]. exists logic_row.
    split; [left; reflexivity|split; reflexivity].
Defined.

Lemma filter_nothing A (c : A -> bool) l :
  (forall q, In q l -> c q = false) -> filter c l = [].
Proof.
  intros H. induction l as [|a l IH]; [reflexivity|].
  cbn. rewrite (H a (or_introl eq_refl)). apply IH.
  intros q Hq. apply H. now right.
Qed.

Lemma first_owned_riddle d x u r :
  riddle_keys d -> In r (riddles d) ->
  Riddles.id r = x -> Riddles.userId r = u ->
  filter (owns_riddle x u) (riddles d) = [r] /\
  delete_where (owns_riddle x u) (riddles d)
  = filter (fun q => negb (Riddles.id q =? x)) (riddles d).
Proof.
  unfold riddle_keys, delete_where.
  induction (riddles d) as [|a l IH]; [intros _ []|].
  cbn [map filter]. intros Hk. inversion Hk as [|? ? Hnotin Hnd]; subst.
  intros [->|Hr] E1 E2.
  - subst x u.
    assert (owns_riddle (Riddles.id r) (Riddles.userId r) r = true) as ->
      by now apply owned_riddle_iff.
    rewrite String.eqb_refl. cbn [negb].
    assert (forall q, In q l ->
              owns_riddle (Riddles.id r) (Riddles.userId r) q = false /\
              (Riddles.id q =? Riddles.id r) = false) as Hrest.
    { intros q Hq.
      assert (Riddles.id q <> Riddles.id r) as Hne.
      { intros E. apply Hnotin. rewrite <- E. now apply in_map. }
      split; [|now apply String.eqb_neq].
      destruct (owns_riddle _ _ q) eqn:O; [|reflexivity].
      apply owned_riddle_iff in O as [O _]. contradiction. }
    split.
    + f_equal. apply filter_nothing. intros q Hq.
      now destruct (Hrest q Hq).
    + apply filter_ext_in. intros q Hq.
      destruct (Hrest q Hq) as [-> ->]. reflexivity.
  - destruct (IH Hnd Hr E1 E2) as [IH1 IH2].
    assert (Riddles.id a <> x) as Hne.
    { intros E. apply Hnotin. rewrite E, <- E1. now apply in_map. }
    assert (owns_riddle x u a = false) as ->.
    { destruct (owns_riddle x u a) eqn:O; [|reflexivity].
      apply owned_riddle_iff in O as [O _]. contradiction. }
    apply String.eqb_neq in Hne. rewrite Hne. cbn [negb].
    split; [exact IH1|]. now rewrite IH2.
Qed.

(** X8.  Where [id] is a key of [Riddles], [deleteRiddle] on a riddle of the
    caller returns and removes exactly that row: the riddles afterwards are
    the riddles before without the one of that [id], in the same order, and
    the collections are as they were. *)
Theorem deleteRiddle_removes_one_row context u env d i r :
  caller context = Some u ->
  riddle_keys d ->
  In r (riddles d) ->
  Riddles.id r = deleteRiddle.id i ->
  Riddles.userId r = User.id u ->
  exists d',
    deleteRiddle.handler i context env d = (Returns tt, d') /\
    riddles d'
    = filter (fun q => negb (Riddles.id q =? deleteRiddle.id i)) (riddles d) /\
    ~ In r (riddles d') /\
    collections d' = collections d.
Proof.
  intros H Hk Hr E1 E2.
  destruct (@first_owned_riddle d (deleteRiddle.id i) (User.id u) r
              Hk Hr E1 E2) as [Ef Ed].
  rewrite deleteRiddle_run with (u := u) by exact H.
  rewrite Ef. cbn [hd_error]. unfold db.delete_Riddles. cbv zeta.
  eexists. split; [reflexivity|].
  cbn [riddles collections issued with_riddles]. rewrite Ed.
  split; [reflexivity|]. split; [|reflexivity].
  intros Hin. apply filter_In in Hin as [_ Hin].
  rewrite E1, String.eqb_refl in Hin. discriminate Hin.
Qed.

Lemma deleteRiddle_removes_one_row_witness :
  caller (signed_in "A") = Some {| User.id := "A" |} /\
  riddle_keys (with_two true) /\
  exists d',
    deleteRiddle.handler {| deleteRiddle.id := uuid2 |} (signed_in "A")
      (at_ 40%Z uuid1) (with_two true) = (Returns tt, d') /\
    riddles d'
    = filter (fun q => negb (Riddles.id q =? uuid2)) (riddles (with_two true)) /\
    ~ In piano_row (riddles d') /\
    collections d' = collections (with_two true).
Proof.
  assert (riddle_keys (with_two true)) as Hk.
  { unfold riddle_keys. cbn. repeat constructor.
    - intros [E|[]]. discriminate E.
    - intros []. }
  split; [reflexivity|]. split; [exact Hk|].
  exact (@deleteRiddle_removes_one_row (signed_in "A") {| User.id := "A" |}
           (at_ 40%Z uuid1) (with_two true)
           {| deleteRiddle.id := uuid2 |} piano_row eq_refl Hk
           (or_introl eq_refl) eq_refl eq_refl).
Defined.

Lemma delete_where_none A (c : A -> bool) l r :
  In r (delete_where c l) -> c r = false.
Proof.
  unfold delete_where. intros H. apply filter_In in H as [_ H].
  now apply negb_true_iff.
Qed.

(** X9.  What has been deleted is not found again: after [deleteRiddle]
    returns, the same caller's [deleteRiddle] and [updateRiddle] for that
    [id] throw [NOT_FOUND]; after [deleteRiddleCollection] returns, so do
    [deleteRiddleCollection] and [updateRiddleCollection]. *)
Theorem deleted_is_not_found_again context u env env' d :
  caller context = Some u ->
  (forall i d',
     deleteRiddle.handler i context env d = (Returns tt, d') ->
     fst (deleteRiddle.handler i context env' d')
     = Throws (ActionError NOT_FOUND) /\
     forall j, updateRiddle.id j = deleteRiddle.id i ->
       fst (updateRiddle.handler j context env' d')
       = Throws (ActionError NOT_FOUND)) /\
  (forall i d',
     deleteRiddleCollection.handler i context env d = (Returns tt, d') ->
     fst (deleteRiddleCollection.handler i context env' d')
     = Throws (ActionError NOT_FOUND) /\
     forall j, updateRiddleCollection.id j = deleteRiddleCollection.id i ->
       fst (updateRiddleCollection.handler j context env' d')
       = Throws (ActionError NOT_FOUND)).
Proof.
  intros H. split; intros i d' Hr.
  - assert (no_riddle_of (User.id u) (deleteRiddle.id i) d') as Hno.
    { revert Hr. rewrite deleteRiddle_run with (u := u) by exact H.
      destruct (hd_error _); [|discriminate].
      unfold db.delete_Riddles. cbv zeta. intros [= <-].
      intros q Hq Hown. cbn [riddles issued with_riddles] in Hq.
      apply delete_where_none in Hq. apply owned_riddle_iff in Hown.
      exact (eq_true_false_abs _ Hown Hq). }
    split.
    + rewrite deleteRiddle_run with (u := u) by exact H.
      now rewrite no_riddle_of_filter by exact Hno.
    + intros j Ej. rewrite updateRiddle_run with (u := u) by exact H.
      cbv zeta. rewrite Ej. now rewrite no_riddle_of_filter by exact Hno.
  - assert (no_collection_of (User.id u) (deleteRiddleCollection.id i) d')
      as Hno.
    { revert Hr.
      rewrite deleteRiddleCollection_run with (u := u) by exact H. cbv zeta.
      destruct (hd_error _); [|discriminate].
      rewrite update_Riddles_detach. cbn [snd].
      unfold db.delete_RiddleCollections. cbv zeta.
      destruct (_ && _); [discriminate|]. intros [= <-].
      intros q Hq Hown.
      cbn [collections issued with_riddles with_collections] in Hq.
      apply delete_where_none in Hq. apply owned_collection_iff in Hown.
      exact (eq_true_false_abs _ Hown Hq). }
    split.
    + rewrite deleteRiddleCollection_run with (u := u) by exact H. cbv zeta.
      now rewrite no_collection_of_filter by exact Hno.
    + intros j Ej.
      rewrite updateRiddleCollection_run with (u := u) by exact H.
      cbv zeta. rewrite Ej. now rewrite no_collection_of_filter by exact Hno.
Qed.

Lemma deleted_is_not_found_again_witness :
  caller (signed_in "A") = Some {| User.id := "A" |} /\
  exists d',
    deleteRiddle.handler {| deleteRiddle.id := uuid2 |} (signed_in "A")
      (at_ 40%Z uuid1) (with_two true) = (Returns tt, d') /\
    fst (deleteRiddle.handler {| deleteRiddle.id := uuid2 |} (signed_in "A")
           (at_ 50%Z uuid1) d')
    = Throws (ActionError NOT_FOUND).
Proof.
  split; [reflexivity|].
  eexists. split; [vm_compute; reflexivity|].
  apply (proj1 (@deleted_is_not_found_again (signed_in "A")
                  {| User.id := "A" |} (at_ 40%Z uuid1) (at_ 50%Z uuid1)
                  (with_two true) eq_refl)
           {| deleteRiddle.id := uuid2 |}).
  vm_compute. reflexivity.
Defined.

(** X10.  Creating a riddle and deleting it again gives the tables back:
    after [createRiddle] returns a riddle, the same caller's [deleteRiddle]
    for its [id] returns, and both tables are what they were before the
    riddle was created. *)
Theorem create_then_delete_riddle context u env env' d i r d1 :
  caller context = Some u ->
  createRiddle.handler i context env d = (Returns (Some r), d1) ->
  exists d2,
    deleteRiddle.handler {| deleteRiddle.id := Riddles.id r |} context env' d1
    = (Returns tt, d2) /\
    riddles d2 = riddles d /\
    collections d2 = collections d.
Proof.
  intros H Hr.
  apply createRiddle_returns with (u := u) in Hr
    as (Er & R & C & _ & Hfresh); [|exact H].
  injection Er as ->.
  rewrite deleteRiddle_run with (u := u) by exact H.
  cbn [deleteRiddle.id]. rewrite R.
  set (own := owns_riddle (Riddles.id (new_riddle i u env)) (User.id u)).
  assert (own (new_riddle i u env) = true) as Hown
    by now apply owned_riddle_iff.
  assert (forall q, In q (riddles d) -> own q = false) as Hold.
  { intros q Hq. destruct (own q) eqn:O; [|reflexivity].
    apply owned_riddle_iff in O as [O _].
    destruct (@fresh_riddle_key_inv (riddles d) (randomUUID env) q
                Hfresh Hq O). }
  assert (filter own (riddles d) = []) as Ef
    by now apply filter_nothing.
  rewrite filter_app, Ef. cbn [filter app]. rewrite Hown. cbn [hd_error].
  unfold db.delete_Riddles. cbv zeta. eexists. split; [reflexivity|].
  cbn [riddles collections issued with_riddles]. split; [|exact C].
  rewrite R. unfold delete_where. rewrite filter_app. cbn [filter].
  rewrite Hown. cbn [negb]. rewrite app_nil_r.
  rewrite <- (filter_ext_in (fun _ => true)); [|].
  - clear. induction (riddles d) as [|a l IH]; [reflexivity|].
    cbn. now rewrite IH.
  - intros q Hq. now rewrite (Hold q Hq).
Qed.

Lemma create_then_delete_riddle_witness :
  caller (signed_in "A") = Some {| User.id := "A" |} /\
  createRiddle.handler (piano_input (Some uuid1)) (signed_in "A")
    (at_ 20%Z uuid2) (with_logic true)
  = (Returns (Some piano_row), with_piano true) /\
  exists d2,
    deleteRiddle.handler {| deleteRiddle.id := Riddles.id piano_row |}
      (signed_in "A") (at_ 30%Z uuid3) (with_piano true) = (Returns tt, d2) /\
    riddles d2 = riddles (with_logic true) /\
    collections d2 = collections (with_logic true).
Proof.
  assert (createRiddle.handler (piano_input (Some uuid1)) (signed_in "A")
            (at_ 20%Z uuid2) (with_logic true)
          = (Returns (Some piano_row), with_piano true)) as Hc
    by reflexivity.
  split; [reflexivity|]. split; [exact Hc|].
  exact (@create_then_delete_riddle (signed_in "A") {| User.id := "A" |}
           (at_ 20%Z uuid2) (at_ 30%Z uuid3) (with_logic true)
           (piano_input (Some uuid1)) piano_row (with_piano true)
           eq_refl Hc).
Defined.

Lemma foreign_collection_is_forbidden_witness :
  caller (signed_in "B") = Some {| User.id := "B" |} /\
  uuid1 <> "" /\
  no_collection_of "B" uuid1 (with_piano true) /\
  exists d',
    createRiddle.handler (piano_input (Some uuid1)) (signed_in "B")
      (at_ 30%Z uuid3) (with_piano true)
    = (Throws (ActionError FORBIDDEN), d') /\
    same_tables (with_piano true) d'.
Proof.
  assert (no_collection_of "B" uuid1 (with_piano true)) as Hno.
  { intros r [<-|[]] [_ E]. discriminate E. }
  assert (uuid1 <> "") as Hne by discriminate.
  split; [reflexivity|]. split; [exact Hne|]. split; [exact Hno|].
  exact (proj1 (@foreign_collection_is_forbidden (signed_in "B")
                  {| User.id := "B" |} (at_ 30%Z uuid3) (with_piano true)
                  uuid1 eq_refl Hne Hno)
           (piano_input (Some uuid1)) eq_refl).
Defined.

(** ** [updateRiddle] *)

Lemma update_Riddles_succeeds p c d :
  (foreign_keys d = true -> mentions_reference p = true ->
   existsb (dangling d) (map (Riddles.assign p) (filter c (riddles d)))
   = false) ->
  db.update_Riddles p c d
  = (Returns (map (Riddles.assign p) (filter c (riddles d))),
     with_riddles (update_where (Riddles.assign p) c (riddles d))
       (issued (UPDATE, tRiddles) d)).
Proof.
  intros Hfk. unfold db.update_Riddles. cbv zeta.
  change (riddles (issued (UPDATE, tRiddles) d)) with (riddles d).
  change (foreign_keys (issued (UPDATE, tRiddles) d)) with (foreign_keys d).
  change (dangling (issued (UPDATE, tRiddles) d)) with (dangling d).
  destruct (foreign_keys d); [|reflexivity].
  destruct (mentions_reference p); [|reflexivity].
  now rewrite Hfk.
Qed.

Lemma dangling_same d d0 r :
  collections d0 = collections d -> dangling d0 r = dangling d r.
Proof. intros E. unfold dangling, has_collection. now rewrite E. Qed.

(** X11.  Where [id] is a key of [Riddles], [updateRiddle] on a riddle of
    the caller returns whenever the [collectionId], if one is supplied and
    not null, names a collection of the caller.  It returns the riddle
    updated as the input says, which is then in the table; the collections
    are as they were.  In particular [collectionId: null] clears the
    reference and nothing is checked for it. *)
Theorem updateRiddle_succeeds context u env d i old :
  caller context = Some u ->
  riddle_keys d ->
  In old (riddles d) ->
  Riddles.id old = updateRiddle.id i ->
  Riddles.userId old = User.id u ->
  (forall c, updateRiddle.collectionId i = Some (Some c) ->
     exists p, In p (collections d) /\
               RiddleCollections.id p = c /\
               RiddleCollections.userId p = User.id u) ->
  exists new d',
    updateRiddle.handler i context env d = (Returns (Some new), d') /\
    riddle_updated i (now env) old new /\
    In new (riddles d') /\
    collections d' = collections d /\
    (updateRiddle.collectionId i = Some None ->
     Riddles.collectionId new = None).
Proof.
  intros H Hk Hold E1 E2 Hc.
  destruct (@first_owned_riddle d (updateRiddle.id i) (User.id u) old
              Hk Hold E1 E2) as [Ef _].
  set (upd := updateRiddle.updateData i (now env)).
  set (own := owns_riddle (updateRiddle.id i) (User.id u)).
  assert (forall d0, same_tables d d0 ->
            first_row (db.update_Riddles upd own d0)
            = (Returns (Some (Riddles.assign upd old)),
               with_riddles (update_where (Riddles.assign upd) own (riddles d0))
                 (issued (UPDATE, tRiddles) d0))) as Hwrite.
  { intros d0 (F & C & R). rewrite update_Riddles_succeeds.
    - unfold own. now rewrite R, Ef.
    - intros _ Hm. unfold own. rewrite R, Ef. cbn [map existsb].
      rewrite orb_false_r, (@dangling_same d d0 (Riddles.assign upd old) C).
      unfold mentions_reference in Hm.
      cbn [upd updateRiddle.updateData Riddles.set_collectionId] in Hm.
      unfold dangling. cbn [Riddles.collectionId Riddles.assign upd
        updateRiddle.updateData Riddles.set_collectionId].
      destruct (updateRiddle.collectionId i) as [[c|]|] eqn:Ec;
        cbn [nullish].
      + destruct (Hc c eq_refl) as (p & Hp & Ep & _).
        apply negb_false_iff. apply has_collection_iff. eauto.
      + reflexivity.
      + discriminate Hm. }
  assert (own old = true) as Hown by now apply owned_riddle_iff.
  exists (Riddles.assign upd old).
  rewrite updateRiddle_run with (u := u) by exact H. cbv zeta.
  rewrite Ef. cbn [hd_error]. fold own upd.
  assert (forall d0, same_tables d d0 ->
            riddle_updated i (now env) old (Riddles.assign upd old) /\
            In (Riddles.assign upd old)
              (riddles (with_riddles
                          (update_where (Riddles.assign upd) own (riddles d0))
                          (issued (UPDATE, tRiddles) d0))) /\
            collections (with_riddles
                           (update_where (Riddles.assign upd) own (riddles d0))
                           (issued (UPDATE, tRiddles) d0)) = collections d /\
            (updateRiddle.collectionId i = Some None ->
             Riddles.collectionId (Riddles.assign upd old) = None)) as Hafter.
  { intros d0 (F & C & R). split; [apply assign_riddle_updated|].
    split; [|split].
    - cbn [riddles with_riddles]. rewrite R. now apply In_update_where.
    - exact C.
    - intros Ec. cbn. now rewrite Ec. }
  destruct (updateRiddle.checks_collection i) eqn:T.
  - unfold updateRiddle.checks_collection in T.
    destruct (updateRiddle.collectionId i) as [[c|]|] eqn:Ec;
      try discriminate T.
    cbn [nullish]. destruct (Hc c eq_refl) as (p & Hp & Ep1 & Ep2).
    assert (owns_collection c (User.id u) p = true) as Hp'
      by (apply owned_collection_iff; auto).
    destruct (hd_error_filter_In _ (collections d) p Hp Hp') as (q & ->).
    eexists. split; [apply Hwrite; repeat split|].
    apply Hafter. repeat split.
  - eexists. split; [apply Hwrite; auto with riddle|].
    apply Hafter. auto with riddle.
Qed.

Lemma updateRiddle_succeeds_witness :
  caller (signed_in "A") = Some {| User.id := "A" |} /\
  riddle_keys (with_piano true) /\
  exists new d',
    updateRiddle.handler (move_to None) (signed_in "A") (at_ 30%Z uuid3)
      (with_piano true) = (Returns (Some new), d') /\
    riddle_updated (move_to None) 30%Z piano_row new /\
    In new (riddles d') /\
    collections d' = collections (with_piano true) /\
    (updateRiddle.collectionId (move_to None) = Some None ->
     Riddles.collectionId new = None).
Proof.
  assert (riddle_keys (with_piano true)) as Hk.
  { unfold riddle_keys. cbn. repeat constructor. intros []. }
  split; [reflexivity|]. split; [exact Hk|].
  apply (@updateRiddle_succeeds (signed_in "A") {| User.id := "A" |}
           (at_ 30%Z uuid3) (with_piano true) (move_to None) piano_row
           eq_refl Hk (or_introl eq_refl) eq_refl eq_refl).
  intros c E. discriminate E.
Defined.

Lemma nth_error_update_where A (f : A -> A) (c : A -> bool) l k q :
  nth_error l k = Some q ->
  nth_error (update_where f c l) k = Some (if c q then f q else q).
Proof.
  intros E. unfold update_where. now rewrite nth_error_map, E.
Qed.

(** X12.  When [updateRiddle] returns, the [Riddles] table has as many rows
    as before, every row other than the caller's riddle of that [id] is
    unchanged and at its place, and the collections are as they were. *)
Theorem updateRiddle_changes_one_riddle context u env d i res d' :
  caller context = Some u ->
  updateRiddle.handler i context env d = (Returns res, d') ->
  length (riddles d') = length (riddles d) /\
  (forall k q,
     nth_error (riddles d) k = Some q ->
     ~ (Riddles.id q = updateRiddle.id i /\ Riddles.userId q = User.id u) ->
     nth_error (riddles d') k = Some q) /\
  collections d' = collections d.
Proof.
  intros H Hr.
  apply updateRiddle_returns with (u := u) in Hr
    as (old & _ & _ & R & C & _); [|exact H].
  rewrite R. split; [apply length_map|]. split; [|exact C].
  intros k q Hq Hnot. rewrite (nth_error_update_where _ _ _ _ Hq).
  destruct (owns_riddle _ _ q) eqn:O; [|reflexivity].
  apply owned_riddle_iff in O. contradiction.
Qed.

Lemma updateRiddle_changes_one_riddle_witness :
  caller (signed_in "A") = Some {| User.id := "A" |} /\
  exists res d',
    updateRiddle.handler (hint_only "88 of them") (signed_in "A")
      (at_ 40%Z uuid1) (with_two true) = (Returns res, d') /\
    length (riddles d') = length (riddles (with_two true)) /\
    (forall k q,
       nth_error (riddles (with_two true)) k = Some q ->
       ~ (Riddles.id q = uuid2 /\ Riddles.userId q = "A") ->
       nth_error (riddles d') k = Some q) /\
    collections d' = collections (with_two true).
Proof.
  split; [reflexivity|].
  eexists. eexists. split; [vm_compute; reflexivity|].
  exact (@updateRiddle_changes_one_riddle (signed_in "A")
           {| User.id := "A" |} (at_ 40%Z uuid1) (with_two true)
           (hint_only "88 of them") _ _ eq_refl eq_refl).
Defined.

(** ** [createRiddleCollection] and [updateRiddleCollection] *)

Lemma clear_is_no_longer_default t q :
  RiddleCollections.assign (clear_default t) q = no_longer_default t q.
Proof. reflexivity. Qed.

Lemma before_write_siblings i u t l :
  before_write i u t l
  = map (sibling_after (updateRiddleCollection.isDefault i) (User.id u) t) l.
Proof.
  unfold before_write, sibling_after, update_where, truthy_flag.
  destruct (updateRiddleCollection.isDefault i) as [[|]|];
    [reflexivity|symmetry; apply map_id|symmetry; apply map_id].
Qed.

Lemma sibling_after_owner asked u t q :
  RiddleCollections.id (sibling_after asked u t q) = RiddleCollections.id q /\
  RiddleCollections.userId (sibling_after asked u t q)
  = RiddleCollections.userId q.
Proof.
  unfold sibling_after. destruct asked as [[|]|]; auto.
  destruct (_ =? u); auto.
Qed.

(** X13.  When [updateRiddleCollection] returns, the riddles are as they
    were and the [RiddleCollections] table has as many rows as before.  A
    collection other than the one named is unchanged, unless the call was
    made with [isDefault: true] and the collection is the caller's: then it
    has [isDefault] false and [updatedAt] set to the time of the call, and
    is otherwise unchanged. *)
Theorem updateRiddleCollection_siblings context u env d i res d' :
  caller context = Some u ->
  updateRiddleCollection.handler i context env d = (Returns res, d') ->
  riddles d' = riddles d /\
  length (collections d') = length (collections d) /\
  (forall k q,
     nth_error (collections d) k = Some q ->
     ~ (RiddleCollections.id q = updateRiddleCollection.id i /\
        RiddleCollections.userId q = User.id u) ->
     nth_error (collections d') k
     = Some (sibling_after (updateRiddleCollection.isDefault i) (User.id u)
               (now env) q)).
Proof.
  intros H Hr.
  apply updateRiddleCollection_returns with (u := u) in Hr; [|exact H].
  cbv zeta in Hr. destruct Hr as (old & _ & _ & _ & C & R & _).
  split; [exact R|]. rewrite C, before_write_siblings.
  split; [unfold update_where; now rewrite !length_map|].
  intros k q Hq Hnot.
  erewrite nth_error_update_where;
    [|rewrite nth_error_map, Hq; reflexivity].
  destruct (owns_collection _ _ _) eqn:O; [|reflexivity].
  apply owned_collection_iff in O.
  destruct (sibling_after_owner (updateRiddleCollection.isDefault i)
              (User.id u) (now env) q) as [S1 S2].
  rewrite S1, S2 in O. contradiction.
Qed.

Lemma updateRiddleCollection_siblings_witness :
  caller (signed_in "A") = Some {| User.id := "A" |} /\
  exists res d',
    updateRiddleCollection.handler
      {| updateRiddleCollection.id := uuid1;
         updateRiddleCollection.name := None;
         updateRiddleCollection.description := None;
         updateRiddleCollection.icon := None;
         updateRiddleCollection.isDefault := Some true |}
      (signed_in "A") (at_ 40%Z uuid3) (with_piano true) = (Returns res, d') /\
    riddles d' = riddles (with_piano true) /\
    length (collections d') = length (collections (with_piano true)).
Proof.
  split; [reflexivity|].
  eexists. eexists. split; [vm_compute; reflexivity|].
  destruct (@updateRiddleCollection_siblings (signed_in "A")
              {| User.id := "A" |} (at_ 40%Z uuid3) (with_piano true)
              {| updateRiddleCollection.id := uuid1;
                 updateRiddleCollection.name := None;
                 updateRiddleCollection.description := None;
                 updateRiddleCollection.icon := None;
                 updateRiddleCollection.isDefault := Some true |}
              _ _ eq_refl eq_refl) as (R & L & _).
  split; [exact R|exact L].
Defined.

Lemma new_collection_written i u env :
  collection_written i (User.id u) env (new_collection i u env).
Proof.
  unfold collection_written. cbn. repeat split.
Qed.

(** X14.  [createRiddleCollection] returns whenever the caller is signed in
    and the identifier drawn is not yet a collection's.  The collection
    returned holds the supplied values, [false] for [isDefault] when left
    out, and the time of the call as both timestamps; it is appended to the
    table.  The rows already there are unchanged, except that with
    [isDefault: true] the caller's own lose the default and have
    [updatedAt] set to the time of the call.  The riddles are as they
    were. *)
Theorem createRiddleCollection_succeeds context u env d i :
  caller context = Some u ->
  (forall p, In p (collections d) ->
     RiddleCollections.id p <> randomUUID env) ->
  exists row d',
    createRiddleCollection.handler i context env d
    = (Returns (Some row), d') /\
    collection_written i (User.id u) env row /\
    collections d'
    = map (sibling_after (createRiddleCollection.isDefault i) (User.id u)
             (now env)) (collections d) ++ [row] /\
    riddles d' = riddles d.
Proof.
  intros H Hfresh.
  exists (new_collection i u env).
  rewrite createRiddleCollection_run with (u := u) by exact H.
  set (d1 := if truthy_flag _ then _ else d).
  assert (collections d1
          = map (sibling_after (createRiddleCollection.isDefault i)
                   (User.id u) (now env)) (collections d) /\
          riddles d1 = riddles d) as [C R].
  { unfold d1, sibling_after, truthy_flag.
    destruct (createRiddleCollection.isDefault i) as [[|]|]; cbn;
      (split; [|reflexivity]); try reflexivity; symmetry; apply map_id. }
  assert (has_collection d1 (randomUUID env) = false) as Hk.
  { destruct (has_collection d1 _) eqn:E; [|reflexivity].
    apply has_collection_iff in E as (p & Hp & Ep).
    rewrite C in Hp. apply in_map_iff in Hp as (q & <- & Hq).
    destruct (sibling_after_owner (createRiddleCollection.isDefault i)
                (User.id u) (now env) q) as [S1 _].
    rewrite S1 in Ep. now apply Hfresh in Hq. }
  destruct (insert_RiddleCollections_cases (new_collection i u env) d1)
    as [[e He]|(_ & d2 & -> & (_ & R2 & C2))].
  - apply insert_RiddleCollections_throws in He as (_ & _ & He).
    cbn [RiddleCollections.id new_collection] in He. congruence.
  - exists d2. split; [reflexivity|].
    split; [apply new_collection_written|]. split; congruence.
Qed.

Lemma createRiddleCollection_succeeds_witness :
  caller (signed_in "A") = Some {| User.id := "A" |} /\
  exists row d',
    createRiddleCollection.handler wordplay_input (signed_in "A")
      (at_ 20%Z uuid2) (with_logic true) = (Returns (Some row), d') /\
    collection_written wordplay_input "A" (at_ 20%Z uuid2) row /\
    collections d'
    = map (sibling_after (Some true) "A" 20%Z) (collections (with_logic true))
        ++ [row] /\
    riddles d' = riddles (with_logic true).
Proof.
  split; [reflexivity|].
  apply (@createRiddleCollection_succeeds (signed_in "A")
           {| User.id := "A" |} (at_ 20%Z uuid2) (with_logic true)
           wordplay_input eq_refl).
  intros p [<-|[]] E. discriminate E.
Defined.

(** ** What the listings return, for any page *)

Lemma In_limit_offset A (n k : Z) (l : list A) x :
  In x (limit_offset n k l) -> In x l.
Proof.
  unfold limit_offset. intros H.
  assert (In x (skipn (Z.to_nat k) l)) as Hs.
  { destruct (n <? 0)%Z; [exact H|].
    rewrite <- (firstn_skipn (Z.to_nat n) (skipn (Z.to_nat k) l)).
    apply in_or_app. now left. }
  rewrite <- (firstn_skipn (Z.to_nat k) l). apply in_or_app. now right.
Qed.

(** X15.  Whatever the page and the page size, every row that
    [listMyRiddles] returns is a row of the table, owned by the caller and
    matching the filters applied; every row that [listMyCollections] returns
    is a collection of the table owned by the caller.  [total] is the number
    of rows returned.  A listing never shows a row of another user. *)
Theorem listings_show_own_rows_only context env d :
  (forall i pg d',
     listMyRiddles.handler i context env d = (Returns pg, d') ->
     exists u,
       caller context = Some u /\
       total pg = length (items pg) /\
       forall r, In r (items pg) ->
         In r (riddles d) /\ Riddles.userId r = User.id u /\
         matches_nonempty i (User.id u) r = true) /\
  (forall i pg d',
     listMyCollections.handler i context env d = (Returns pg, d') ->
     exists u,
       caller context = Some u /\
       total pg = length (items pg) /\
       forall r, In r (items pg) ->
         In r (collections d) /\ RiddleCollections.userId r = User.id u).
Proof.
  split; intros i pg d'.
  - destruct (caller context) as [u|] eqn:H.
    + rewrite listMyRiddles_run with (u := u) by exact H.
      rewrite whereClause_filters. intros Hpg.
      apply paged_returns in Hpg as [-> _]. exists u.
      split; [reflexivity|]. split; [reflexivity|]. cbn [items].
      intros r Hr. apply In_limit_offset in Hr.
      apply filter_In in Hr as [Hr Hm]. rewrite filters_match in Hm.
      split; [exact Hr|]. split; [|exact Hm].
      unfold matches_nonempty in Hm. rewrite !andb_true_iff in Hm.
      destruct Hm as [[[[Hm _] _] _] _]. now apply String.eqb_eq.
    + start_handler. rewrite H. discriminate.
  - destruct (caller context) as [u|] eqn:H.
    + rewrite listMyCollections_run with (u := u) by exact H.
      intros Hpg. apply paged_returns in Hpg as [-> _]. exists u.
      split; [reflexivity|]. split; [reflexivity|]. cbn [items].
      intros r Hr. apply In_limit_offset in Hr.
      apply filter_In in Hr as [Hr Hm]. split; [exact Hr|].
      unfold eq in Hm. now apply eqb_text_iff.
    + start_handler. rewrite H. discriminate.
Qed.

Lemma listings_show_own_rows_only_witness :
  exists pg d',
    listMyRiddles.handler (list_input None 1) (signed_in "A")
      (at_ 40%Z uuid1) (with_alien true) = (Returns pg, d') /\
    exists u,
      caller (signed_in "A") = Some u /\
      total pg = length (items pg) /\
      forall r, In r (items pg) ->
        In r (riddles (with_alien true)) /\ Riddles.userId r = User.id u /\
        matches_nonempty (list_input None 1) (User.id u) r = true.
Proof.
  eexists. eexists. split; [vm_compute; reflexivity|].
  exact (proj1 (listings_show_own_rows_only (signed_in "A") (at_ 40%Z uuid1)
                  (with_alien true))
           (list_input None 1) _ _ eq_refl).
Defined.

(** ** The first page, the pages past the end, and all pages together *)

Lemma limit_offset_past A (n k : Z) (l : list A) :
  (0 <= n)%Z -> (Z.of_nat (length l) <= k)%Z -> limit_offset n k l = [].
Proof.
  intros Hn Hk. unfold limit_offset.
  destruct (Z.ltb_spec n 0); [lia|].
  rewrite skipn_all2 by lia. now rewrite firstn_nil.
Qed.

(** With fewer than 2^53 matching rows, the rows listed are those of the
    window asked for: a window computed with rounding, or refused, lies past
    the last row. *)
Lemma listed_riddles_run i context u env d :
  caller context = Some u ->
  (1 <= listMyRiddles.page i)%Z ->
  (1 <= listMyRiddles.pageSize i <= MAX_SAFE_INTEGER)%Z ->
  (Z.of_nat (length (filter (matches_nonempty i (User.id u)) (riddles d)))
   <= MAX_SAFE_INTEGER)%Z ->
  listed_riddles i context env d
  = limit_offset (listMyRiddles.pageSize i)
      ((listMyRiddles.page i - 1) * listMyRiddles.pageSize i)
      (filter (matches_nonempty i (User.id u)) (riddles d)).
Proof.
  intros H Hp Hs Hlen. unfold listed_riddles.
  rewrite listMyRiddles_run with (u := u) by exact H.
  rewrite whereClause_filters, (filter_ext _ _ (filters_match i u)).
  destruct (Z.le_gt_cases
              ((listMyRiddles.page i - 1) * listMyRiddles.pageSize i)
              MAX_SAFE_INTEGER) as [Ho|Ho].
  - now rewrite paged_safe by assumption.
  - pose proof (@js_offset_large (listMyRiddles.page i)
                  (listMyRiddles.pageSize i) Hp ltac:(lia) Ho) as Hk.
    rewrite (@limit_offset_past _ (listMyRiddles.pageSize i)
               ((listMyRiddles.page i - 1) * listMyRiddles.pageSize i))
      by lia.
    destruct (paged_cases (SELECT, tRiddles)
                (filter (matches_nonempty i (User.id u)) (riddles d))
                (listMyRiddles.pageSize i)
                (js_mul (js_sub (listMyRiddles.page i) 1)
                   (listMyRiddles.pageSize i)) d)
      as [->|[->|(_ & _ & ->)]]; cbn [page_of fst items];
      [reflexivity|reflexivity|].
    apply limit_offset_past; lia.
Qed.



Lemma firstn_next A (a b : nat) (l : list A) :
  firstn (a + b) l = firstn a l ++ firstn b (skipn a l).
Proof.
  revert l. induction a as [|a IH]; intros l; [reflexivity|].
  destruct l as [|x l]; cbn.
  - now rewrite firstn_nil.
  - now rewrite IH.
Qed.

(** X17.  Pages neither overlap nor leave a gap: for a page size of at
    least 1 that is a safe integer, and fewer than 2^53 matching riddles,
    the pages 1 to [n] of [listMyRiddles], one after the other, are the
    first [n * pageSize] matching riddles in table order.  This holds for
    every [n]: a page whose offset is rounded, or refused by the store, lies
    past the last matching riddle. *)
Theorem pages_in_a_row context u env d i n :
  caller context = Some u ->
  (1 <= listMyRiddles.pageSize i <= MAX_SAFE_INTEGER)%Z ->
  (Z.of_nat (length (filter (matches_nonempty i (User.id u)) (riddles d)))
   <= MAX_SAFE_INTEGER)%Z ->
  concat (map (fun p => listed_riddles (on_page (Z.of_nat p) i) context env d)
            (seq 1 n))
  = firstn (n * Z.to_nat (listMyRiddles.pageSize i))
      (filter (matches_nonempty i (User.id u)) (riddles d)).
Proof.
  intros H Hs Hlen. induction n as [|n IH]; [reflexivity|].
  rewrite seq_S, map_app, concat_app, IH. cbn [map concat].
  rewrite app_nil_r.
  rewrite (@listed_riddles_run (on_page (Z.of_nat (1 + n)) i) context u env d
             H ltac:(cbn [listMyRiddles.page on_page]; lia) Hs Hlen).
  cbn [listMyRiddles.page listMyRiddles.pageSize on_page].
  change (matches_nonempty (on_page (Z.of_nat (1 + n)) i) (User.id u))
    with (matches_nonempty i (User.id u)).
  unfold limit_offset.
  destruct (Z.ltb_spec (listMyRiddles.pageSize i) 0); [lia|].
  replace (Z.to_nat ((Z.of_nat (1 + n) - 1) * listMyRiddles.pageSize i))
    with (n * Z.to_nat (listMyRiddles.pageSize i)) by nia.
  replace (S n * Z.to_nat (listMyRiddles.pageSize i))
    with (n * Z.to_nat (listMyRiddles.pageSize i)
          + Z.to_nat (listMyRiddles.pageSize i)) by lia.
  symmetry. apply firstn_next.
Qed.

Lemma pages_in_a_row_witness :
  caller (signed_in "A") = Some {| User.id := "A" |} /\
  concat (map (fun p => listed_riddles (on_page (Z.of_nat p) (list_input None 1))
                          (signed_in "A") (at_ 40%Z uuid1) (with_two true))
            (seq 1 2))
  = firstn (2 * Z.to_nat 1)
      (filter (matches_nonempty (list_input None 1) "A")
         (riddles (with_two true))).
Proof.
  split; [reflexivity|].
  apply (@pages_in_a_row (signed_in "A") {| User.id := "A" |}
           (at_ 40%Z uuid1) (with_two true) (list_input None 1) 2 eq_refl).
  - cbn. unfold MAX_SAFE_INTEGER. lia.
  - cbn. unfold MAX_SAFE_INTEGER. lia.
Defined.

(** ** What the schemas let through *)

Lemma min1_nonempty v s : z.min 1 z.string v = Some s -> s <> "".
Proof.
  unfold z.min, z.string. destruct v as [[| | |x|]|]; try discriminate.
  destruct x as [|a x]; cbn; [discriminate|]. intros [= <-]. discriminate.
Qed.

Lemma optional_min1_nonempty v o :
  z.optional (z.min 1 z.string) v = Some o -> o <> Some "".
Proof.
  unfold z.optional. destruct v as [j|]; [|intros [= <-]; discriminate].
  destruct (z.min 1 z.string (Some j)) as [s|] eqn:E; cbn; [|discriminate].
  intros [= <-] [= Es]. now apply min1_nonempty in E.
Qed.

Ltac parsed E :=
  repeat match type of E with
         | match ?x with _ => _ end = Some _ =>
             let F := fresh "F" in destruct x eqn:F; [|discriminate E]
         end;
  injection E as <-.

(** X18.  An input that parses is the input of the action called, and is
    well formed: the required texts ([name] of a new collection, [question]
    and [answer] of a new riddle, every [id]) are not empty, an optional
    [name], [question] or [answer] of an update is not the empty string,
    and a listing has its page at least 1 and its page size in 1..100. *)
Theorem parsed_input_is_well_formed n raw c :
  schema n raw = Some c -> name_of c = n /\ well_formed c.
Proof.
  destruct n; cbn [schema];
    match goal with
    | |- option_map _ ?x = _ -> _ =>
        destruct x as [i|] eqn:E; [|discriminate]
    end; intros [= <-]; (split; [reflexivity|]); cbn [well_formed].
  - unfold createRiddleCollection.schema in E. parsed E. cbn.
    now apply min1_nonempty in F.
  - unfold updateRiddleCollection.schema in E. parsed E. cbn.
    apply min1_nonempty in F. apply optional_min1_nonempty in F0. auto.
  - unfold deleteRiddleCollection.schema in E. parsed E. cbn.
    now apply min1_nonempty in F.
  - unfold createRiddle.schema in E. parsed E. cbn.
    apply min1_nonempty in F, F0. auto.
  - unfold updateRiddle.schema in E. parsed E. cbn.
    apply min1_nonempty in F.
    apply optional_min1_nonempty in F0, F1. auto.
  - unfold deleteRiddle.schema in E. parsed E. cbn.
    now apply min1_nonempty in F.
  - unfold listMyCollections.schema in E. parsed E. cbn.
    apply page_field in F. apply pageSize_field in F0. tauto.
  - unfold listMyRiddles.schema in E. parsed E. cbn.
    apply page_field in F3. apply pageSize_field in F4. tauto.
Qed.

Lemma parsed_input_is_well_formed_witness :
  schema UpdateRiddle [("id", JString uuid2); ("hint", JString "88 of them")]
  = Some (call_updateRiddle (hint_only "88 of them")) /\
  name_of (call_updateRiddle (hint_only "88 of them")) = UpdateRiddle /\
  well_formed (call_updateRiddle (hint_only "88 of them")).
Proof.
  split; [reflexivity|].
  exact (@parsed_input_is_well_formed UpdateRiddle
           [("id", JString uuid2); ("hint", JString "88 of them")]
           (call_updateRiddle (hint_only "88 of them")) eq_refl).
Defined.

Lemma optional_string_reads v o :
  z.optional z.string v = Some o -> v = option_map JString o.
Proof.
  unfold z.optional, z.string.
  destruct v as [[| | |x|]|]; cbn; try discriminate; now intros [= <-].
Qed.

Lemma optional_nullable_string_reads v o :
  z.optional (z.nullable z.string) v = Some o -> reads_as v o.
Proof.
  unfold z.optional, z.nullable, z.string, reads_as.
  destruct v as [[| | |x|]|]; cbn; try discriminate; now intros [= <-].
Qed.

Lemma field_without k raw k' :
  field k' (without k raw) = if k =? k' then None else field k' raw.
Proof.
  unfold without. induction raw as [|[k0 v0] raw IH].
  - now destruct (k =? k').
  - cbn [filter fst field]. destruct (String.eqb_spec k0 k) as [->|Hk0].
    + cbn [negb]. rewrite IH. now destruct (k =? k').
    + cbn [negb field]. rewrite IH.
      destruct (String.eqb_spec k k') as [Hk|Hk]; [|reflexivity].
      subst k'. apply String.eqb_neq in Hk0. now rewrite Hk0.
Qed.

Lemma field_with_same k v raw : field k (with_field k v raw) = Some v.
Proof. unfold with_field. cbn [field]. now rewrite String.eqb_refl. Qed.

Lemma field_with_other k v raw k' :
  (k =? k') = false -> field k' (with_field k v raw) = field k' raw.
Proof.
  intros H. unfold with_field. cbn [field]. rewrite H.
  now rewrite field_without, H.
Qed.

Lemma field_without_same k raw : field k (without k raw) = None.
Proof. now rewrite field_without, String.eqb_refl. Qed.

Lemma field_without_other k raw k' :
  (k =? k') = false -> field k' (without k raw) = field k' raw.
Proof. intros H. now rewrite field_without, H. Qed.

(** Reads every field of an input that was put together with [with_field]
    or [without], then the fields that parsed before. *)
Ltac read_fields :=
  repeat match goal with
         | |- context [field ?k (with_field ?k ?v ?raw)] =>
             rewrite (@field_with_same k v raw)
         | |- context [field ?k (without ?k ?raw)] =>
             rewrite (@field_without_same k raw)
         | |- context [field ?k' (with_field ?k ?v ?raw)] =>
             rewrite (@field_with_other k v raw k' eq_refl)
         | |- context [field ?k' (without ?k ?raw)] =>
             rewrite (@field_without_other k raw k' eq_refl)
         end;
  repeat match goal with
         | F : ?x = Some _ |- context [?x] => rewrite F
         end.

(** X19.  How [collectionId] is read.  [updateRiddle] tells three cases
    apart: the field absent (nothing to assign), [null] (clear the
    reference) and a string; any other value does not parse.  [createRiddle]
    and [listMyRiddles] take a string or nothing, and [null] does not parse.
    In all three the string is taken as it is, the empty string included:
    unlike an [id], a [collectionId] is not required to be non-empty.

    So an input that parses mirrors the field; and in an input that parses,
    the field can be set to any string, the empty one included, or left
    out, and the input still parses, to that value; set to [null] it parses
    for [updateRiddle] alone; set to anything else it does not parse. *)
Theorem collectionId_as_parsed raw :
  (forall i, updateRiddle.schema raw = Some i ->
     reads_as (field "collectionId" raw) (updateRiddle.collectionId i)) /\
  (forall i, createRiddle.schema raw = Some i ->
     field "collectionId" raw
     = option_map JString (createRiddle.collectionId i)) /\
  (forall i, listMyRiddles.schema raw = Some i ->
     field "collectionId" raw
     = option_map JString (listMyRiddles.collectionId i)) /\
  (forall i, updateRiddle.schema raw = Some i ->
     (forall s,
        option_map updateRiddle.collectionId
          (updateRiddle.schema (with_field "collectionId" (JString s) raw))
        = Some (Some (Some s))) /\
     option_map updateRiddle.collectionId
       (updateRiddle.schema (with_field "collectionId" JNull raw))
     = Some (Some None) /\
     option_map updateRiddle.collectionId
       (updateRiddle.schema (without "collectionId" raw))
     = Some None /\
     (forall v, other_value v ->
        updateRiddle.schema (with_field "collectionId" v raw) = None)) /\
  (forall i, createRiddle.schema raw = Some i ->
     (forall s,
        option_map createRiddle.collectionId
          (createRiddle.schema (with_field "collectionId" (JString s) raw))
        = Some (Some s)) /\
     option_map createRiddle.collectionId
       (createRiddle.schema (without "collectionId" raw))
     = Some None /\
     (forall v, other_value v \/ v = JNull ->
        createRiddle.schema (with_field "collectionId" v raw) = None)) /\
  (forall i, listMyRiddles.schema raw = Some i ->
     (forall s,
        option_map listMyRiddles.collectionId
          (listMyRiddles.schema (with_field "collectionId" (JString s) raw))
        = Some (Some s)) /\
     option_map listMyRiddles.collectionId
       (listMyRiddles.schema (without "collectionId" raw))
     = Some None /\
     (forall v, other_value v \/ v = JNull ->
        listMyRiddles.schema (with_field "collectionId" v raw) = None)).
Proof.
  split; [|split; [|split; [|split; [|split]]]]; intros i E.
  - unfold updateRiddle.schema in E. parsed E. cbn.
    now apply optional_nullable_string_reads.
  - unfold createRiddle.schema in E. parsed E. cbn.
    now apply optional_string_reads.
  - unfold listMyRiddles.schema in E. parsed E. cbn.
    now apply optional_string_reads.
  - unfold updateRiddle.schema in E. parsed E.
    split; [|split; [|split]].
    + intros t. unfold updateRiddle.schema. read_fields. reflexivity.
    + unfold updateRiddle.schema. read_fields. reflexivity.
    + unfold updateRiddle.schema. read_fields. reflexivity.
    + intros v Hv. unfold updateRiddle.schema.
      destruct v; try contradiction; read_fields; reflexivity.
  - unfold createRiddle.schema in E. parsed E.
    split; [|split].
    + intros t. unfold createRiddle.schema. read_fields. reflexivity.
    + unfold createRiddle.schema. read_fields. reflexivity.
    + intros v [Hv| ->]; unfold createRiddle.schema;
        [destruct v; try contradiction|]; read_fields; reflexivity.
  - unfold listMyRiddles.schema in E. parsed E.
    split; [|split].
    + intros t. unfold listMyRiddles.schema. read_fields. reflexivity.
    + unfold listMyRiddles.schema. read_fields. reflexivity.
    + intros v [Hv| ->]; unfold listMyRiddles.schema;
        [destruct v; try contradiction|]; read_fields; reflexivity.
Qed.

Lemma collectionId_as_parsed_witness :
  updateRiddle.schema [("id", JString uuid2); ("hint", JString "88 keys")]
  = Some (hint_only "88 keys") /\
  option_map updateRiddle.collectionId
    (updateRiddle.schema
       (with_field "collectionId" (JString "")
          [("id", JString uuid2); ("hint", JString "88 keys")]))
  = Some (Some (Some "")) /\
  option_map updateRiddle.collectionId
    (updateRiddle.schema
       (with_field "collectionId" JNull
          [("id", JString uuid2); ("hint", JString "88 keys")]))
  = Some (Some None) /\
  createRiddle.schema
    [("question", JString "What has keys but no locks?");
     ("answer", JString "A piano"); ("difficulty", JString "easy");
     ("category", JString "wordplay"); ("collectionId", JString uuid1)]
  = Some (piano_input (Some uuid1)) /\
  option_map createRiddle.collectionId
    (createRiddle.schema
       (with_field "collectionId" (JString "")
          [("question", JString "What has keys but no locks?");
           ("answer", JString "A piano"); ("difficulty", JString "easy");
           ("category", JString "wordplay");
           ("collectionId", JString uuid1)]))
  = Some (Some "") /\
  createRiddle.schema
    (with_field "collectionId" JNull
       [("question", JString "What has keys but no locks?");
        ("answer", JString "A piano"); ("difficulty", JString "easy");
        ("category", JString "wordplay"); ("collectionId", JString uuid1)])
  = None /\
  listMyRiddles.schema [("category", JString "wordplay")]
  = Some (list_input (Some "wordplay") 20) /\
  option_map listMyRiddles.collectionId
    (listMyRiddles.schema
       (with_field "collectionId" (JString "")
          [("category", JString "wordplay")]))
  = Some (Some "").
Proof.
  split; [reflexivity|].
  split; [exact (proj1 (proj1 (proj2 (proj2 (proj2
            (collectionId_as_parsed
               [("id", JString uuid2); ("hint", JString "88 keys")]))))
            (hint_only "88 keys") eq_refl) "")|].
  split; [exact (proj1 (proj2 (proj1 (proj2 (proj2 (proj2
            (collectionId_as_parsed
               [("id", JString uuid2); ("hint", JString "88 keys")]))))
            (hint_only "88 keys") eq_refl)))|].
  split; [reflexivity|].
  split; [exact (proj1 (proj1 (proj2 (proj2 (proj2 (proj2
            (collectionId_as_parsed
               [("question", JString "What has keys but no locks?");
                ("answer", JString "A piano");
                ("difficulty", JString "easy");
                ("category", JString "wordplay");
                ("collectionId", JString uuid1)])))))
            (piano_input (Some uuid1)) eq_refl) "")|].
  split; [exact (proj2 (proj2 (proj1 (proj2 (proj2 (proj2 (proj2
            (collectionId_as_parsed
               [("question", JString "What has keys but no locks?");
                ("answer", JString "A piano");
                ("difficulty", JString "easy");
                ("category", JString "wordplay");
                ("collectionId", JString uuid1)])))))
            (piano_input (Some uuid1)) eq_refl)) JNull (or_intror eq_refl))|].
  split; [reflexivity|].
  exact (proj1 (proj2 (proj2 (proj2 (proj2 (proj2
           (collectionId_as_parsed [("category", JString "wordplay")])))))
           (list_input (Some "wordplay") 20) eq_refl) "").
Defined.

(** ** Creating a collection and deleting it again *)

Lemma update_where_nothing A (f : A -> A) (c : A -> bool) l :
  (forall q, In q l -> c q = false) -> update_where f c l = l.
Proof.
  intros H. unfold update_where. induction l as [|a l IH]; [reflexivity|].
  cbn. rewrite (H a (or_introl eq_refl)). f_equal. apply IH.
  intros q Hq. apply H. now right.
Qed.

Lemma delete_where_last A (c : A -> bool) l r :
  (forall q, In q l -> c q = false) -> c r = true ->
  filter c (l ++ [r]) = [r] /\ delete_where c (l ++ [r]) = l.
Proof.
  intros Hold Hr. unfold delete_where. rewrite !filter_app. cbn [filter].
  rewrite Hr. cbn [negb]. rewrite app_nil_r.
  rewrite (filter_nothing _ _ Hold). split; [reflexivity|].
  induction l as [|a l IH]; [reflexivity|].
  cbn. rewrite (Hold a (or_introl eq_refl)). cbn [negb]. f_equal.
  apply IH. intros q Hq. apply Hold. now right.
Qed.

(** No riddle of a consistent database references an identifier that has
    the shape of a UUID and is not a collection's. *)
Lemma unused_key_is_not_referenced d k r :
  consistent d -> uuid_shaped k -> has_collection d k = false ->
  In r (riddles d) -> Riddles.collectionId r <> Some k.
Proof.
  intros [_ _ Href] Hk Hfree Hr Ec.
  destruct (Href r Hr) as [Hres|[Hemp _]].
  - destruct (Hres k Ec) as (p & Hp & Ep & _).
    assert (has_collection d k = true) by (apply has_collection_iff; eauto).
    congruence.
  - rewrite Ec in Hemp. injection Hemp as ->. discriminate Hk.
Qed.

(** X20.  In a reachable database, creating a collection without
    [isDefault: true] and deleting it again gives the tables back: after
    [createRiddleCollection] returns a collection, the same caller's
    [deleteRiddleCollection] for its [id] returns, and both tables are what
    they were before the collection was created. *)
Theorem create_then_delete_collection fk context u env env' d i row d1 :
  reachable fk d ->
  uuid_shaped (randomUUID env) ->
  caller context = Some u ->
  createRiddleCollection.isDefault i <> Some true ->
  createRiddleCollection.handler i context env d = (Returns (Some row), d1) ->
  exists d2,
    deleteRiddleCollection.handler
      {| deleteRiddleCollection.id := RiddleCollections.id row |}
      context env' d1 = (Returns tt, d2) /\
    collections d2 = collections d /\
    riddles d2 = riddles d.
Proof.
  intros Hreach Huuid H Hflag Hr.
  apply reachable_consistent in Hreach as [Hd _].
  assert (truthy_flag (createRiddleCollection.isDefault i) = false) as T.
  { destruct (createRiddleCollection.isDefault i) as [[|]|];
      [contradiction|reflexivity|reflexivity]. }
  revert Hr. rewrite createRiddleCollection_run with (u := u) by exact H.
  rewrite T. intros Hr. apply first_row_returns in Hr as (l & Hl & El).
  destruct (insert_RiddleCollections_cases (new_collection i u env) d)
    as [[e He]|(Hfree & d1' & Hd1 & (F & R & C))]; [congruence|].
  rewrite Hd1 in Hl. injection Hl as <- <-. injection El as ->.
  cbn [RiddleCollections.id new_collection] in Hfree.
  set (own := owns_collection (randomUUID env) (User.id u)).
  assert (forall q, In q (collections d) -> own q = false) as Hold.
  { intros q Hq. destruct (own q) eqn:O; [|reflexivity].
    apply owned_collection_iff in O as [O _].
    assert (has_collection d (randomUUID env) = true)
      by (apply has_collection_iff; eauto).
    congruence. }
  assert (own (new_collection i u env) = true) as Hnew
    by now apply owned_collection_iff.
  destruct (delete_where_last own (collections d) (new_collection i u env)
              Hold Hnew) as [Ef Edel].
  assert (forall r, In r (riddles d) ->
            Riddles.collectionId r <> Some (randomUUID env)) as Hfreeref.
  { intros r Hr.
    exact (@unused_key_is_not_referenced d (randomUUID env) r
             Hd Huuid Hfree Hr). }
  assert (update_where (Riddles.assign (detach (now env')))
            (attached_to (randomUUID env) (User.id u)) (riddles d)
          = riddles d) as Ekeep.
  { apply update_where_nothing. intros q Hq.
    destruct (attached_to _ _ q) eqn:A; [|reflexivity].
    apply attached_riddle_iff in A as [A _]. now apply Hfreeref in Hq. }
  rewrite deleteRiddleCollection_run with (u := u) by exact H. cbv zeta.
  cbn [deleteRiddleCollection.id RiddleCollections.id new_collection].
  fold own. rewrite C, Ef. cbn [hd_error].
  rewrite update_Riddles_detach. cbn [snd].
  unfold db.delete_RiddleCollections. cbv zeta.
  cbn [collections riddles foreign_keys issued with_riddles
         with_collections].
  rewrite R, Ekeep, C, Ef, Edel.
  assert (existsb
            (referenced
               (issued (DELETE, tRiddleCollections)
                  (with_riddles (riddles d)
                     (issued (UPDATE, tRiddles)
                        (issued (SELECT, tRiddleCollections) d1')))))
            [new_collection i u env] = false) as Hnoref.
  { cbn [existsb]. rewrite orb_false_r. unfold referenced.
    cbn [riddles issued with_riddles RiddleCollections.id new_collection].
    destruct (existsb _ (riddles d)) eqn:E; [|reflexivity].
    apply existsb_exists in E as (r & Hr & Er).
    unfold eq in Er. apply eqb_nullable_iff in Er.
    now apply Hfreeref in Hr. }
  rewrite Hnoref, andb_false_r. eexists. split; [reflexivity|].
  split; reflexivity.
Qed.

Lemma create_then_delete_collection_witness :
  reachable true (with_logic true) /\
  createRiddleCollection.handler maths_input (signed_in "A")
    (at_ 20%Z uuid2) (with_logic true)
  = (Returns (Some maths_row), with_maths true) /\
  exists d2,
    deleteRiddleCollection.handler
      {| deleteRiddleCollection.id := RiddleCollections.id maths_row |}
      (signed_in "A") (at_ 30%Z uuid3) (with_maths true) = (Returns tt, d2) /\
    collections d2 = collections (with_logic true) /\
    riddles d2 = riddles (with_logic true).
Proof.
  assert (reachable true (with_logic true)) as Hreach.
  { unfold with_logic. apply reachable_call; [|reflexivity].
    apply reachable_empty. }
  assert (createRiddleCollection.handler maths_input (signed_in "A")
            (at_ 20%Z uuid2) (with_logic true)
          = (Returns (Some maths_row), with_maths true)) as Hc
    by reflexivity.
  split; [exact Hreach|]. split; [exact Hc|].
  apply (@create_then_delete_collection true (signed_in "A")
           {| User.id := "A" |} (at_ 20%Z uuid2) (at_ 30%Z uuid3)
           (with_logic true) maths_input maths_row (with_maths true)
           Hreach eq_refl eq_refl); [discriminate|exact Hc].
Defined.

(** ** [updateRiddleCollection] on a collection of the caller *)

(** X22.  [updateRiddleCollection] returns whenever the caller is signed in
    and owns a collection of that [id]: it has no other way to fail, and the
    store has nothing to refuse.  The row returned has that [id] and the
    caller as owner, and is in the table afterwards. *)
Theorem updateRiddleCollection_succeeds context u env d i old :
  caller context = Some u ->
  In old (collections d) ->
  RiddleCollections.id old = updateRiddleCollection.id i ->
  RiddleCollections.userId old = User.id u ->
  exists new d',
    updateRiddleCollection.handler i context env d
    = (Returns (Some new), d') /\
    RiddleCollections.id new = updateRiddleCollection.id i /\
    RiddleCollections.userId new = User.id u /\
    In new (collections d').
Proof.
  intros H Hold E1 E2.
  set (own := owns_collection (updateRiddleCollection.id i) (User.id u)).
  assert (own old = true) as Hown by now apply owned_collection_iff.
  destruct (hd_error_filter_In own (collections d) old Hold Hown)
    as (q & Eq).
  pose proof (hd_error_filter_some _ _ Eq) as [Hq Hqown].
  apply owned_collection_iff in Hqown as [Q1 Q2].
  set (upd := RiddleCollections.assign
                (updateRiddleCollection.updateData i (now env))).
  set (mid := if truthy_flag (updateRiddleCollection.isDefault i)
              then RiddleCollections.assign (clear_default (now env)) q
              else q).
  destruct (updateRiddleCollection.handler i context env d)
    as [[res|e] d'] eqn:Hr.
  - apply updateRiddleCollection_returns with (u := u) in Hr; [|exact H].
    cbv zeta in Hr. destruct Hr as (old' & Eold & _ & Eres & C & _).
    fold own in Eold. rewrite Eq in Eold. injection Eold as <-.
    exists (upd mid), d'. subst res. split; [reflexivity|].
    split; [unfold mid; now destruct (truthy_flag _)|].
    split; [unfold mid; now destruct (truthy_flag _)|].
    rewrite C. apply In_update_where.
    + unfold before_write, mid. destruct (truthy_flag _); [|exact Hq].
      apply In_update_where; [exact Hq|].
      unfold eq. now apply eqb_text_iff.
    + unfold mid. destruct (truthy_flag _); now apply owned_collection_iff.
  - exfalso. revert Hr.
    rewrite updateRiddleCollection_run with (u := u) by exact H. cbv zeta.
    fold own. rewrite Eq. intros Hr. apply first_row_throws in Hr.
    discriminate Hr.
Qed.

Lemma updateRiddleCollection_succeeds_witness :
  caller (signed_in "A") = Some {| User.id := "A" |} /\
  exists new d',
    updateRiddleCollection.handler
      {| updateRiddleCollection.id := uuid1;
         updateRiddleCollection.name := Some "Logic puzzles";
         updateRiddleCollection.description := None;
         updateRiddleCollection.icon := None;
         updateRiddleCollection.isDefault := None |}
      (signed_in "A") (at_ 40%Z uuid3) (with_piano true)
    = (Returns (Some new), d') /\
    RiddleCollections.id new = uuid1 /\
    RiddleCollections.userId new = "A" /\
    In new (collections d').
Proof.
  split; [reflexivity|].
  exact (@updateRiddleCollection_succeeds (signed_in "A")
           {| User.id := "A" |} (at_ 40%Z uuid3) (with_piano true)
           {| updateRiddleCollection.id := uuid1;
              updateRiddleCollection.name := Some "Logic puzzles";
              updateRiddleCollection.description := None;
              updateRiddleCollection.icon := None;
              updateRiddleCollection.isDefault := None |}
           logic_row eq_refl (or_introl eq_refl) eq_refl eq_refl).
Defined.
